(** * envcfg: loading structure fields from a .env file and the OS environment

    A shallow embedding of [envcfg.go] and the properties of its
    specification.  A Go [string] is a byte string ([string] of [ascii]);
    the map built by [readSource] is a [gmap string string]; the target
    structure is a tree of values and a [reflect.Value] handle on one of
    its fields is the path of field indices that leads to it. *)

From Stdlib Require Import ZArith String Ascii List Lia SpecFloat.
From stdpp Require Import base option list sorting gmap strings.
From Equations.Prop Require Import Equations Logic.

Local Open Scope string_scope.
Local Open Scope list_scope.
Local Open Scope Z_scope.

(** ** Package [strings] *)

Definition byte_code (c : ascii) : Z := Z.of_N (N_of_ascii c).

(** The six ASCII white space bytes of [strings.asciiSpace]:
    tab, line feed, vertical tab, form feed, carriage return, space. *)
Definition asciiSpace (c : ascii) : bool :=
  let n := byte_code c in
  ((9 <=? n) && (n <=? 13)) || (n =? 32).

(** UTF-8 encodings of the other code points of [unicode.IsSpace]:
    U+0085 and U+00A0 on two bytes; U+1680, U+2000..U+200A, U+2028,
    U+2029, U+202F, U+205F and U+3000 on three bytes. *)
Definition space2 (a b : ascii) : bool :=
  (byte_code a =? 194) && ((byte_code b =? 133) || (byte_code b =? 160)).

Definition space3 (a b c : ascii) : bool :=
  let x := byte_code a in
  let y := byte_code b in
  let z := byte_code c in
  ((x =? 225) && (y =? 154) && (z =? 128))
  || ((x =? 226) && (y =? 128)
      && (((128 <=? z) && (z <=? 138)) || (z =? 168) || (z =? 169) || (z =? 175)))
  || ((x =? 226) && (y =? 129) && (z =? 159))
  || ((x =? 227) && (y =? 128) && (z =? 128)).

(** [strings.TrimLeftFunc s unicode.IsSpace]: drop leading white space
    runes.  A byte sequence that is not the encoding of a white space rune
    (invalid UTF-8 included) stops the scan. *)
Fixpoint TrimLeft (s : string) : string :=
  match s with
  | String a r1 =>
      if asciiSpace a then TrimLeft r1
      else match r1 with
           | String b r2 =>
               if space2 a b then TrimLeft r2
               else match r2 with
                    | String c r3 => if space3 a b c then TrimLeft r3 else s
                    | EmptyString => s
                    end
           | EmptyString => s
           end
  | EmptyString => s
  end.

(** The same scan on the reversed string: the bytes of a rune come last
    byte first. *)
Fixpoint TrimLeft_rev (s : string) : string :=
  match s with
  | String a r1 =>
      if asciiSpace a then TrimLeft_rev r1
      else match r1 with
           | String b r2 =>
               if space2 b a then TrimLeft_rev r2
               else match r2 with
                    | String c r3 => if space3 c b a then TrimLeft_rev r3 else s
                    | EmptyString => s
                    end
           | EmptyString => s
           end
  | EmptyString => s
  end.

(** [strings.TrimRightFunc s unicode.IsSpace]. *)
Definition TrimRight (s : string) : string :=
  String.rev (TrimLeft_rev (String.rev s)).

(** [strings.TrimSpace]: leading, then trailing white space is removed. *)
Definition TrimSpace (s : string) : string := TrimRight (TrimLeft s).

(** [strings.HasPrefix s "#"]. *)
Definition HasPrefix_hash (s : string) : bool :=
  match s with
  | String c _ => Ascii.eqb c "#"
  | EmptyString => false
  end.

(** [strings.SplitN s "=" 2]: the text before the first ['='] and the text
    after it, or [s] alone when it has no ['=']. *)
Fixpoint cut_eq (s : string) : option (string * string) :=
  match s with
  | EmptyString => None
  | String c r =>
      if Ascii.eqb c "=" then Some (EmptyString, r)
      else match cut_eq r with
           | Some (k, v) => Some (String c k, v)
           | None => None
           end
  end.

Definition SplitN_eq_2 (s : string) : list string :=
  match cut_eq s with
  | Some (k, v) => [k; v]
  | None => [s]
  end.

(** ** Package [strconv] *)

(** The two causes carried by a [*strconv.NumError]. *)
Inductive NumErr := ErrSyntax | ErrRange.

(** [strconv.ParseBool]. *)
Definition ParseBool (str : string) : NumErr + bool :=
  if decide (str ∈ ["1"; "t"; "T"; "TRUE"; "true"; "True"]) then inr true
  else if decide (str ∈ ["0"; "f"; "F"; "FALSE"; "false"; "False"]) then inr false
  else inl ErrSyntax.

Definition lower (c : ascii) : Z := Z.lor (byte_code c) 32.

(** The value of a byte as a digit, before the comparison with the base. *)
Definition digit_val (c : ascii) : option Z :=
  let n := byte_code c in
  if (48 <=? n) && (n <=? 57) then Some (n - 48)
  else if (97 <=? lower c) && (lower c <=? 122) then Some (lower c - 97 + 10)
  else None.

Definition maxUint64 : Z := 2 ^ 64 - 1.

(** The digit loop of [strconv.ParseUint] for an explicit base between 2
    and 36 (no prefix, no underscores): [n] is the value read so far. *)
Fixpoint ParseUint_loop (s : string) (base maxVal n : Z) : NumErr + Z :=
  match s with
  | EmptyString => inr n
  | String c r =>
      match digit_val c with
      | None => inl ErrSyntax
      | Some d =>
          if d >=? base then inl ErrSyntax
          else if n >=? maxUint64 / base + 1 then inl ErrRange
          else
            let n1 := n * base + d in
            if (n1 >? maxUint64) || (n1 >? maxVal) then inl ErrRange
            else ParseUint_loop r base maxVal n1
      end
  end.

(** [strconv.ParseUint s base bitSize], [2 <= base <= 36]. *)
Definition ParseUint (s : string) (base bitSize : Z) : NumErr + Z :=
  match s with
  | EmptyString => inl ErrSyntax
  | _ => ParseUint_loop s base (2 ^ bitSize - 1) 0
  end.

(** [strconv.ParseInt s base bitSize], [2 <= base <= 36]: an optional
    sign, then [ParseUint] and the signed range check. *)
Definition ParseInt (s : string) (base bitSize : Z) : NumErr + Z :=
  match s with
  | EmptyString => inl ErrSyntax
  | String c r =>
      let neg := Ascii.eqb c "-" in
      let s' := if Ascii.eqb c "+" || neg then r else s in
      let cutoff := 2 ^ (bitSize - 1) in
      match ParseUint s' base bitSize with
      | inl ErrSyntax => inl ErrSyntax
      | inl ErrRange => inl ErrRange
      | inr un =>
          if negb neg && (un >=? cutoff) then inl ErrRange
          else if neg && (un >? cutoff) then inl ErrRange
          else inr (if neg then - un else un)
      end
  end.

(** ** Package [reflect] *)

Module reflect.
(** [reflect.Kind], in the order of its constants. *)
Inductive Kind :=
| Invalid | Bool
| Int | Int8 | Int16 | Int32 | Int64
| Uint | Uint8 | Uint16 | Uint32 | Uint64 | Uintptr
| Float32 | Float64 | Complex64 | Complex128
| Array | Chan | Func | Interface | Map | Pointer | Slice
| String | Struct | UnsafePointer.

(** The numeric value of a kind, which the comparisons of [setValue]
    read. *)
Definition code (k : Kind) : Z :=
  match k with
  | Invalid => 0 | Bool => 1
  | Int => 2 | Int8 => 3 | Int16 => 4 | Int32 => 5 | Int64 => 6
  | Uint => 7 | Uint8 => 8 | Uint16 => 9 | Uint32 => 10 | Uint64 => 11
  | Uintptr => 12
  | Float32 => 13 | Float64 => 14 | Complex64 => 15 | Complex128 => 16
  | Array => 17 | Chan => 18 | Func => 19 | Interface => 20 | Map => 21
  | Pointer => 22 | Slice => 23 | String => 24 | Struct => 25
  | UnsafePointer => 26
  end.

#[global] Instance Kind_eq_dec : EqDecision Kind.
Proof. solve_decision. Defined.
End reflect.

(** What the embedding takes from the platform and from library code it
    does not unfold: the size of [int], the floating-point types with
    [strconv.ParseFloat s 64] and the conversion [float32(x)], and
    [path.Join]. *)
Class Platform := {
  IntSize : Z;
  float32 : Type;
  float64 : Type;
  ParseFloat64 : string -> NumErr + float64;
  to_float32 : float64 -> float32;
  path_Join : string -> string -> string
}.

(** A platform to run the package on: 64-bit [int], IEEE 754 binary32
    and binary64 numbers, and a [ParseFloat] for plain decimal numerals
    (a sign, digits, at most one point), rounded to nearest even.  It
    serves the examples; the theorems hold on every platform. *)
Module Decimal.
(** Digits and point of a numeral: the integer read and the number of
    digits after the point. *)
Fixpoint digits (s : string) (m : Z) (frac : option Z) (seen : bool)
  : option (Z * Z) :=
  match s with
  | EmptyString => if seen then Some (m, default 0 frac) else None
  | String c r =>
      let n := byte_code c in
      if (48 <=? n) && (n <=? 57)
      then digits r (10 * m + (n - 48)) (Z.succ <$> frac) true
      else if (n =? 46) && bool_decide (frac = None)
      then digits r m (Some 0) seen
      else None
  end.

Definition numeral (s : string) : option (bool * Z * Z) :=
  match s with
  | String c r =>
      let neg := Ascii.eqb c "-" in
      let s' := if Ascii.eqb c "+" || neg then r else s in
      match digits s' 0 None false with
      | Some (m, k) => Some (neg, m, k)
      | None => None
      end
  | EmptyString => None
  end.

Definition ParseFloat (s : string) : NumErr + spec_float :=
  match numeral s with
  | None => inl ErrSyntax
  | Some (neg, m, k) =>
      match m with
      | Zpos mp =>
          match SFdiv 53 1024 (S754_finite neg mp 0)
                  (S754_finite false (Z.to_pos (10 ^ k)) 0) with
          | S754_infinity _ => inl ErrRange
          | x => inr x
          end
      | _ => inr (S754_zero neg)
      end
  end.

Definition narrow (x : spec_float) : spec_float :=
  match x with
  | S754_finite sx mx ex => binary_round 24 128 sx mx ex
  | _ => x
  end.

Definition Join (dir name : string) : string := dir +:+ "/" +:+ name.
End Decimal.

(** The platform of the examples. *)
Definition decimal_platform : Platform := {|
  IntSize := 64;
  float32 := spec_float;
  float64 := spec_float;
  ParseFloat64 := Decimal.ParseFloat;
  to_float32 := Decimal.narrow;
  path_Join := Decimal.Join
|}.

Inductive intKind := KInt | KInt8 | KInt16 | KInt32 | KInt64.
Inductive uintKind := KUint | KUint8 | KUint16 | KUint32 | KUint64 | KUintptr.
Inductive otherKind :=
| KComplex64 | KComplex128 | KArray | KChan | KFunc | KInterface | KMap
| KSlice | KUnsafePointer.

(** A [reflect.StructTag] in the conventional format, as its list of
    [key:"value"] pairs. *)
Definition StructTag := list (string * string).

(** [StructTag.Get]: the value of the first pair with that key, or the
    empty string. *)
Fixpoint Tag_Get (tag : StructTag) (key : string) : string :=
  match tag with
  | [] => ""
  | (k, v) :: rest => if decide (k = key) then v else Tag_Get rest key
  end.

(** [reflect.StructField]: [PkgPath] is empty exactly for exported
    fields. *)
Record StructField := {
  FieldName : string;
  PkgPath : string;
  Tag : StructTag
}.

(** ** Vocabulary for strings and numerals *)

(** The string begins with the encoding of a white space rune. *)
Definition leading_space (s : string) : bool :=
  match s with
  | String a r1 =>
      asciiSpace a
      || match r1 with
         | String b r2 =>
             space2 a b
             || match r2 with
                | String c _ => space3 a b c
                | EmptyString => false
                end
         | EmptyString => false
         end
  | EmptyString => false
  end.

(** A numeral in base 10, read as the specification reads it: digits only,
    at least one, after an optional sign for a signed number. *)
Definition is_digit (c : ascii) : bool := (48 <=? byte_code c) && (byte_code c <=? 57).

Fixpoint decimal (s : string) (acc : Z) : option Z :=
  match s with
  | EmptyString => Some acc
  | String c r =>
      if is_digit c then decimal r (10 * acc + (byte_code c - 48)) else None
  end.

Definition unsigned_decimal (s : string) : option Z :=
  match s with
  | EmptyString => None
  | _ => decimal s 0
  end.

Definition signed_decimal (s : string) : option Z :=
  match s with
  | String c r =>
      if Ascii.eqb c "+" then unsigned_decimal r
      else if Ascii.eqb c "-" then Z.opp <$> unsigned_decimal r
      else unsigned_decimal s
  | EmptyString => None
  end.

Section Envcfg.
Context `{Platform}.

Set Warnings "-register-all".

(** A Go value with its dynamic type, as far as [reflect] shows it to the
    package.  A structure lists its fields in declaration order. *)
Inductive GoValue :=
| VBool (b : bool)
| VInt (k : intKind) (n : Z)
| VUint (k : uintKind) (n : Z)
| VFloat32 (x : float32)
| VFloat64 (x : float64)
| VString (s : string)
| VStruct (fields : list (StructField * GoValue))
| VPtr (elem : option GoValue)
| VOther (k : otherKind).

Definition Kind_of_int (k : intKind) : reflect.Kind :=
  match k with
  | KInt => reflect.Int | KInt8 => reflect.Int8 | KInt16 => reflect.Int16
  | KInt32 => reflect.Int32 | KInt64 => reflect.Int64
  end.

Definition Kind_of_uint (k : uintKind) : reflect.Kind :=
  match k with
  | KUint => reflect.Uint | KUint8 => reflect.Uint8 | KUint16 => reflect.Uint16
  | KUint32 => reflect.Uint32 | KUint64 => reflect.Uint64
  | KUintptr => reflect.Uintptr
  end.

Definition Kind_of_other (k : otherKind) : reflect.Kind :=
  match k with
  | KComplex64 => reflect.Complex64 | KComplex128 => reflect.Complex128
  | KArray => reflect.Array | KChan => reflect.Chan | KFunc => reflect.Func
  | KInterface => reflect.Interface | KMap => reflect.Map
  | KSlice => reflect.Slice | KUnsafePointer => reflect.UnsafePointer
  end.

(** [Value.Kind] of a valid value. *)
Definition Kind (v : GoValue) : reflect.Kind :=
  match v with
  | VBool _ => reflect.Bool
  | VInt k _ => Kind_of_int k
  | VUint k _ => Kind_of_uint k
  | VFloat32 _ => reflect.Float32
  | VFloat64 _ => reflect.Float64
  | VString _ => reflect.String
  | VStruct _ => reflect.Struct
  | VPtr _ => reflect.Pointer
  | VOther k => Kind_of_other k
  end.

Definition int_bits (k : intKind) : Z :=
  match k with
  | KInt => IntSize | KInt8 => 8 | KInt16 => 16 | KInt32 => 32 | KInt64 => 64
  end.

Definition uint_bits (k : uintKind) : Z :=
  match k with
  | KUint => IntSize | KUint8 => 8 | KUint16 => 16 | KUint32 => 32
  | KUint64 => 64 | KUintptr => IntSize
  end.

(** The conversions [intN(x)] and [uintN(x)] of an [int64] / [uint64]:
    the low [bits] bits, read in two's complement for the signed types. *)
Definition wrap_signed (bits x : Z) : Z :=
  (x + 2 ^ (bits - 1)) mod 2 ^ bits - 2 ^ (bits - 1).

Definition wrap_unsigned (bits x : Z) : Z := x mod 2 ^ bits.

(** *** Handles

    The handle [st.Field(i)] of the field [i] of the structure behind the
    handle [st] is [st ++ [i]]; the empty path is the target itself. *)
Definition handle := list nat.

Fixpoint load (st : GoValue) (p : handle) {struct p} : option GoValue :=
  match p with
  | [] => Some st
  | i :: q =>
      match st with
      | VStruct fs =>
          match fs !! i with
          | Some (_, fv) => load fv q
          | None => None
          end
      | _ => None
      end
  end.

Fixpoint store (st : GoValue) (p : handle) (new : GoValue) {struct p}
  : GoValue :=
  match p with
  | [] => new
  | i :: q =>
      match st with
      | VStruct fs => VStruct (alter (fun f => (f.1, store f.2 q new)) i fs)
      | _ => st
      end
  end.

(** [Value.Kind] through a handle; the zero [Value] has kind [Invalid]. *)
Definition Kind_at (st : GoValue) (p : handle) : reflect.Kind :=
  match load st p with
  | Some v => Kind v
  | None => reflect.Invalid
  end.

(** [Value.SetBool], [SetInt], [SetUint], [SetFloat] and [SetString]
    through a handle.  Each is called by [setValue] under the test of the
    matching kind; on another kind, where [reflect] panics, the target is
    returned as it is. *)
Definition SetBool (field : handle) (b : bool) (st : GoValue) : GoValue :=
  match load st field with
  | Some (VBool _) => store st field (VBool b)
  | _ => st
  end.

Definition SetInt (field : handle) (x : Z) (st : GoValue) : GoValue :=
  match load st field with
  | Some (VInt k _) => store st field (VInt k (wrap_signed (int_bits k) x))
  | _ => st
  end.

Definition SetUint (field : handle) (x : Z) (st : GoValue) : GoValue :=
  match load st field with
  | Some (VUint k _) => store st field (VUint k (wrap_unsigned (uint_bits k) x))
  | _ => st
  end.

Definition SetFloat (field : handle) (x : float64) (st : GoValue) : GoValue :=
  match load st field with
  | Some (VFloat32 _) => store st field (VFloat32 (to_float32 x))
  | Some (VFloat64 _) => store st field (VFloat64 x)
  | _ => st
  end.

Definition SetString (field : handle) (x : string) (st : GoValue) : GoValue :=
  match load st field with
  | Some (VString _) => store st field (VString x)
  | _ => st
  end.

(** ** Errors

    The package has no error types of its own; these are the values its
    functions can return. *)
Inductive Errno := ENOENT | EACCES | EISDIR | ENOTDIR | EIO.

Inductive error :=
| NumError (Func Num : string) (Err : NumErr)
    (* *strconv.NumError: a value that does not convert *)
| FieldNotSupported (k : reflect.Kind)
    (* fmt.Errorf("field %s is not supported", k) *)
| SeparatorMissing (line : string)
    (* fmt.Errorf("key and value must be separated by the sign '=': %v", line) *)
| TargetNotStructPointer
    (* errors.New("target must be a pointer to struct") *)
| PathError (Op Path : string) (Err : Errno)
    (* *os.PathError, from os.Open, os.Stat, os.Getwd or a read *)
| ErrTooLong.
    (* bufio.ErrTooLong *)

(** [os.IsNotExist]. *)
Definition IsNotExist (err : option error) : bool :=
  match err with
  | Some (PathError _ _ ENOENT) => true
  | _ => false
  end.

(** ** The operating system

    An open file is what a [bufio.Scanner] makes of it: the lines its
    [Scan] delivers, and the error, if any, that ended the scan before
    the end of the file ([Scanner.Err]). *)
Record File := {
  file_lines : list string;
  file_err : option error
}.

Record OS := {
  os_Environ : list string;
  os_Getwd : error + string;
  os_Open : string -> error + File;
  os_Stat : string -> option error
}.

(** ** Iterators *)

(** The interface [iterable].  Go leaves the end of an iteration to the
    implementation; here each implementation gives the measure that its
    [Iter] decreases. *)
Class iterable (T : Type) := {
  Iter : T -> bool * T;
  Next : T -> string;
  pending : T -> nat;
  Iter_pending : forall it, (Iter it).1 = true -> (pending (Iter it).2 < pending it)%nat
}.

Record arrayIter := {
  Index : Z;
  Environ : list string
}.

Definition newArrayIter (arr : list string) : arrayIter :=
  {| Index := -1; Environ := arr |}.

Definition arrayIter_Iter (ai : arrayIter) : bool * arrayIter :=
  let ai := {| Index := Index ai + 1; Environ := Environ ai |} in
  (Index ai <? Z.of_nat (length (Environ ai)), ai).

(** [Next] is called after an [Iter] that returned [true], with the index
    in range; an index out of range, where Go panics, reads as the empty
    string. *)
Definition arrayIter_Next (ai : arrayIter) : string :=
  default "" (Environ ai !! Z.to_nat (Index ai)).

#[export, refine] Instance arrayIter_iterable : iterable arrayIter := {|
  Iter := arrayIter_Iter;
  Next := arrayIter_Next;
  pending ai := Z.to_nat (Z.of_nat (length (Environ ai)) - Index ai - 1)
|}.
Proof.
  intros [i l]; unfold arrayIter_Iter; simpl.
  intros Hlt%Z.ltb_lt. lia.
Defined.

(** A [bufio.Scanner] on a file: the lines not yet delivered and the
    current token. *)
Record Scanner := {
  unread : list string;
  Text : string;
  Err : option error
}.

Definition NewScanner (f : File) : Scanner :=
  {| unread := file_lines f; Text := ""; Err := file_err f |}.

Definition Scan (sc : Scanner) : bool * Scanner :=
  match unread sc with
  | line :: rest => (true, {| unread := rest; Text := line; Err := Err sc |})
  | [] => (false, {| unread := []; Text := ""; Err := Err sc |})
  end.

Record scannerIter := { Scanner_of : Scanner }.

#[export, refine] Instance scannerIter_iterable : iterable scannerIter := {|
  Iter si := let r := Scan (Scanner_of si) in (r.1, {| Scanner_of := r.2 |});
  Next si := Text (Scanner_of si);
  pending si := length (unread (Scanner_of si))
|}.
Proof.
  intros [[u t e]]; unfold Scan; simpl.
  destruct u; simpl; [discriminate | lia].
Defined.

(** ** The package *)

(** A field to load: the name of its variable and the handle on its
    storage. *)
Record structField := {
  Name : string;
  Value : handle
}.

(** The body of the loop of [readSource] on one item of the source:
    [inr] is the map after the item, [inl] the error returned. *)
Definition readSource_line (raw : string) (vars : gmap string string)
  : error + gmap string string :=
  let line := TrimSpace raw in
  (* Skip blank lines and comments *)
  if (String.length line =? 0)%nat || HasPrefix_hash line then inr vars
  else
    let tokens := SplitN_eq_2 line in
    if negb (length tokens =? 2)%nat then inl (SeparatorMissing line)
    else
      let key := TrimSpace (default "" (tokens !! 0%nat)) in
      let value := TrimSpace (default "" (tokens !! 1%nat)) in
      inr (<[key := value]> vars).

Equations? readSource_loop {T : Type} `{iterable T} (source : T)
    (vars : gmap string string) : error + gmap string string
    by wf (pending source) lt :=
  readSource_loop source vars with inspect (Iter source) := {
    | @exist (true, source') Hit with readSource_line (Next source') vars := {
        | inl err := inl err;
        | inr vars' := readSource_loop source' vars' };
    | @exist (false, _) _ := inr vars }.
Proof.
  pose proof (Iter_pending source) as Hdec.
  rewrite Hit in Hdec. simpl in Hdec. auto.
Qed.

Definition readSource {T : Type} `{iterable T} (source : T)
  : error + gmap string string :=
  readSource_loop source ∅.

(** A function of the package returns its error, if any, with the target
    as it leaves it. *)
Definition setValue (field : handle) (value : string) (st : GoValue)
  : option error * GoValue :=
  let k := Kind_at st field in
  if decide (k = reflect.Bool) then
    match ParseBool value with
    | inl err => (Some (NumError "ParseBool" value err), st)
    | inr b => (None, SetBool field b st)
    end
  else if (reflect.code reflect.Int <=? reflect.code k)
          && (reflect.code k <=? reflect.code reflect.Int64) then
    match ParseInt value 10 64 with
    | inl err => (Some (NumError "ParseInt" value err), st)
    | inr i => (None, SetInt field i st)
    end
  else if (reflect.code reflect.Uint <=? reflect.code k)
          && (reflect.code k <=? reflect.code reflect.Uint64) then
    match ParseUint value 10 64 with
    | inl err => (Some (NumError "ParseUint" value err), st)
    | inr u => (None, SetUint field u st)
    end
  else if (reflect.code reflect.Float32 <=? reflect.code k)
          && (reflect.code k <=? reflect.code reflect.Float64) then
    match ParseFloat64 value with
    | inl err => (Some (NumError "ParseFloat" value err), st)
    | inr f => (None, SetFloat field f st)
    end
  else if decide (k = reflect.String) then
    (None, SetString field value st)
  else
    (Some (FieldNotSupported k), st).

(** The loop of [loadFromSource] over the fields. *)
Fixpoint loadFields (vars : gmap string string) (fields : list structField)
    (st : GoValue) : option error * GoValue :=
  match fields with
  | [] => (None, st)
  | field :: rest =>
      match vars !! Name field with
      | Some data =>
          match setValue (Value field) data st with
          | (Some err, st') => (Some err, st')
          | (None, st') => loadFields vars rest st'
          end
      | None => loadFields vars rest st
      end
  end.

Definition loadFromSource {T : Type} `{iterable T} (source : T)
    (fields : list structField) (st : GoValue) : option error * GoValue :=
  match readSource source with
  | inl err => (Some err, st)
  | inr vars => loadFields vars fields st
  end.

Definition loadFromEnv (os : OS) (fields : list structField) (st : GoValue)
  : option error * GoValue :=
  let environ := os_Environ os in
  loadFromSource (newArrayIter environ) fields st.

Definition loadFromFile (os : OS) (filename : string)
    (fields : list structField) (st : GoValue) : option error * GoValue :=
  match os_Open os filename with
  | inl err => (Some err, st)
  | inr file =>
      loadFromSource {| Scanner_of := NewScanner file |} fields st
  end.

(** [parseStruct]: [st] is the handle on a structure and [v] the
    structure behind it.  [parseFields] is its loop from the field [i]
    on, [parseField] the contribution of one field. *)
Fixpoint parseStruct (st : handle) (v : GoValue) {struct v} : list structField :=
  match v with
  | VStruct fs =>
      (fix loop (i : nat) (fs : list (StructField * GoValue)) {struct fs}
         : list structField :=
         match fs with
         | [] => []
         | (refField, refValue) :: rest =>
             (* Skip unexported field *)
             (if negb (String.eqb (PkgPath refField) "") then []
              else
                match refValue with
                | VStruct _ =>
                    (* Append fields from the nested struct *)
                    parseStruct (st ++ [i]) refValue
                | _ =>
                    (* Skip field without tag *)
                    let envVarName := Tag_Get (Tag refField) "env" in
                    if String.eqb envVarName "" then []
                    else [{| Name := envVarName; Value := st ++ [i] |}]
                end)
             ++ loop (S i) rest
         end) 0%nat fs
  | _ => []
  end.

Definition parseField (st : handle) (i : nat) (f : StructField * GoValue)
  : list structField :=
  if negb (String.eqb (PkgPath f.1) "") then []
  else if decide (Kind f.2 = reflect.Struct) then parseStruct (st ++ [i]) f.2
  else
    let envVarName := Tag_Get (Tag f.1) "env" in
    if String.eqb envVarName "" then []
    else [{| Name := envVarName; Value := st ++ [i] |}].

Fixpoint parseFields (st : handle) (i : nat) (fs : list (StructField * GoValue))
  : list structField :=
  match fs with
  | [] => []
  | f :: rest => parseField st i f ++ parseFields st (S i) rest
  end.

(** [LoadFile].  The argument [to : interface{}] is [None] for the nil
    interface, whose [reflect.Value] is not valid; [VPtr None] is a nil
    pointer, whose [Elem] has kind [Invalid].  The result is the error with
    the argument as the call leaves it. *)
Definition LoadFile (os : OS) (filename : string) (to : option GoValue)
  : option error * option GoValue :=
  match to with
  | Some (VPtr (Some (VStruct fs as st))) =>
      let fields := parseStruct [] st in
      (* Load environment variables from .env file *)
      let '(err, st) := loadFromFile os filename fields st in
      if bool_decide (is_Some err) && negb (IsNotExist (os_Stat os filename))
      then (err, Some (VPtr (Some st)))
      else
        (* Override values by loading OS environment variables *)
        let '(err, st) := loadFromEnv os fields st in
        (err, Some (VPtr (Some st)))
  | _ =>
      (* Loading target must be a pointer to structure *)
      (Some TargetNotStructPointer, to)
  end.

Definition Load (os : OS) (to : option GoValue) : option error * option GoValue :=
  match os_Getwd os with
  | inl err => (Some err, to)
  | inr dir =>
      let filename := path_Join dir ".env" in
      LoadFile os filename to
  end.

(** ** Vocabulary of the specification *)

(** The two entry points as one: a call and the file it reads. *)
Inductive call := CallLoad | CallLoadFile (filename : string).

Definition run (os : OS) (c : call) (to : option GoValue)
  : option error * option GoValue :=
  match c with
  | CallLoad => Load os to
  | CallLoadFile filename => LoadFile os filename to
  end.

Definition call_file (os : OS) (c : call) : error + string :=
  match c with
  | CallLoad =>
      match os_Getwd os with
      | inl err => inl err
      | inr dir => inr (path_Join dir ".env")
      end
  | CallLoadFile filename => inr filename
  end.

(** A valid target: a non-nil pointer to a structure. *)
Definition struct_pointer (to : option GoValue) : Prop :=
  exists fs, to = Some (VPtr (Some (VStruct fs))).

Definition pointer_to (st : GoValue) : option GoValue := Some (VPtr (Some st)).

(** The coerced value: what a string becomes in a field that holds [old];
    only the type of [old] matters. *)
Definition coerce (old : GoValue) (value : string) : error + GoValue :=
  match old with
  | VBool _ =>
      match ParseBool value with
      | inl err => inl (NumError "ParseBool" value err)
      | inr b => inr (VBool b)
      end
  | VInt k _ =>
      match ParseInt value 10 64 with
      | inl err => inl (NumError "ParseInt" value err)
      | inr i => inr (VInt k (wrap_signed (int_bits k) i))
      end
  | VUint KUintptr _ => inl (FieldNotSupported reflect.Uintptr)
  | VUint k _ =>
      match ParseUint value 10 64 with
      | inl err => inl (NumError "ParseUint" value err)
      | inr u => inr (VUint k (wrap_unsigned (uint_bits k) u))
      end
  | VFloat32 _ =>
      match ParseFloat64 value with
      | inl err => inl (NumError "ParseFloat" value err)
      | inr f => inr (VFloat32 (to_float32 f))
      end
  | VFloat64 _ =>
      match ParseFloat64 value with
      | inl err => inl (NumError "ParseFloat" value err)
      | inr f => inr (VFloat64 f)
      end
  | VString _ => inr (VString value)
  | VStruct _ | VPtr _ | VOther _ => inl (FieldNotSupported (Kind old))
  end.

(** The loop of [readSource] over the items of a source, in order. *)
Fixpoint readLines (lines : list string) (vars : gmap string string)
  : error + gmap string string :=
  match lines with
  | [] => inr vars
  | raw :: rest =>
      match readSource_line raw vars with
      | inl err => inl err
      | inr vars' => readLines rest vars'
      end
  end.

(** The line grammar in the words of the specification: the item [raw]
    assigns [value] to [key] when, trimmed, it is neither blank nor a
    comment, and [key] and [value] are the trimmed parts around its first
    ['=']. *)
Definition has_eq (s : string) : Prop :=
  exists a b, s = a +:+ String "=" b.

Definition assigns (raw key value : string) : Prop :=
  let line := TrimSpace raw in
  line <> "" /\ HasPrefix_hash line = false
  /\ exists k v, line = k +:+ String "=" v /\ ~ has_eq k
     /\ key = TrimSpace k /\ value = TrimSpace v.

Definition malformed (raw : string) : Prop :=
  let line := TrimSpace raw in
  line <> "" /\ HasPrefix_hash line = false /\ ~ has_eq line.

(** The field of a structure that a non-empty path ends on, with its
    declaration. *)
Fixpoint field_at (st : GoValue) (p : handle) {struct p}
  : option (StructField * GoValue) :=
  match p, st with
  | [i], VStruct fs => fs !! i
  | i :: q, VStruct fs =>
      match fs !! i with
      | Some (_, fv) => field_at fv q
      | None => None
      end
  | _, _ => None
  end.

(** The handle [p] leads to a field that is not a structure. *)
Definition is_leaf (st : GoValue) (p : handle) : Prop :=
  exists v, load st p = Some v /\ Kind v <> reflect.Struct.

(** The fields are well formed for a target: their handles are pairwise
    distinct and lead to fields that are not structures. *)
Definition wf_fields (st : GoValue) (fields : list structField) : Prop :=
  NoDup (Value <$> fields) /\ forall d, d ∈ fields -> is_leaf st (Value d).

(** What a field holds after the loop: the coerced value of its variable,
    or what it held when the variable is absent. *)
Definition loaded (vars : gmap string string) (st st' : GoValue) (d : structField) : Prop :=
  exists old,
    load st (Value d) = Some old /\
    match vars !! Name d with
    | Some data => exists new, coerce old data = inr new /\ load st' (Value d) = Some new
    | None => load st' (Value d) = Some old
    end.

(** Every field of a structure along the path is exported. *)
Fixpoint exported_path (st : GoValue) (p : handle) {struct p} : Prop :=
  match p with
  | [] => True
  | i :: q =>
      match st with
      | VStruct fs =>
          match fs !! i with
          | Some (sf, fv) => PkgPath sf = "" /\ exported_path fv q
          | None => False
          end
      | _ => False
      end
  end.

(** [parseStruct] collects the field behind [st ++ p] under the name
    [Name d] exactly when every field along [p] is exported, the field is
    not a structure, and its tag gives it that name, which is not empty. *)
Definition collects (v : GoValue) (st : handle) (d : structField) : Prop :=
  exists p sf fv,
    Value d = st ++ p
    /\ exported_path v p
    /\ field_at v p = Some (sf, fv)
    /\ Kind fv <> reflect.Struct
    /\ Name d = Tag_Get (Tag sf) "env"
    /\ Name d <> "".

(** What the file pass reads: the map of the file, empty when the file
    cannot be opened or has a line that is not an assignment. *)
Definition file_vars (os : OS) (filename : string) : gmap string string :=
  match os_Open os filename with
  | inr file =>
      match readSource {| Scanner_of := NewScanner file |} with
      | inr vars => vars
      | inl _ => ∅
      end
  | inl _ => ∅
  end.

(** The file system does not change under the call: a file that [os.Stat]
    reports missing is one that [os.Open] did not open. *)
Definition stat_consistent (os : OS) : Prop :=
  forall filename,
    IsNotExist (os_Stat os filename) = true -> exists err, os_Open os filename = inl err.

(** The last item of [lines] that assigns to [key] assigns [value]. *)
Definition last_assigns (lines : list string) (key value : string) : Prop :=
  exists before raw after,
    lines = before ++ raw :: after
    /\ assigns raw key value
    /\ forall r v, r ∈ after -> ~ assigns r key v.

(** The source delivers the items [lines], in this order, and ends. *)
Definition delivers {T : Type} `{iterable T} (source : T) (lines : list string) : Prop :=
  forall vars, readSource_loop source vars = readLines lines vars.

(** Moving a field: under another handle, or to a later index. *)
Definition under (st : handle) (d : structField) : structField :=
  {| Name := Name d; Value := st ++ Value d |}.

Definition shift (k : nat) (d : structField) : structField :=
  {| Name := Name d;
     Value := match Value d with
              | j :: q => (k + j)%nat :: q
              | [] => []
              end |}.

(** A handle into the structure with the nested field at index [n], and
    the handle on the same field once the [m] fields of the nested
    structure are declared in its place. *)
Inductive spliced (n m : nat) : handle -> handle -> Prop :=
| spliced_before j q : (j < n)%nat -> spliced n m (j :: q) (j :: q)
| spliced_inner j q : (j < m)%nat -> spliced n m (n :: j :: q) ((n + j)%nat :: q)
| spliced_after j q : spliced n m ((S n + j)%nat :: q) ((n + m + j)%nat :: q).

Definition spliced_field (n m : nat) (d d' : structField) : Prop :=
  Name d = Name d' /\ spliced n m (Value d) (Value d').

(** The target with the nested structure, and the target with the fields
    of the nested structure in its place. *)
Inductive splices (sf : StructField) (n m : nat) : GoValue -> GoValue -> Prop :=
| splices_intro before inner after :
    length before = n -> length inner = m ->
    splices sf n m (VStruct (before ++ (sf, VStruct inner) :: after))
                   (VStruct (before ++ inner ++ after)).

(** ** Vocabulary of the further properties *)

(** The items that a source delivers to the loop of [readSource]: [Iter],
    then [Next] as long as [Iter] returns [true]; at most [fuel] items. *)
Fixpoint items {T : Type} `{iterable T} (fuel : nat) (source : T) : list string :=
  match fuel with
  | O => []
  | S fuel' =>
      match Iter source with
      | (true, source') => Next source' :: items fuel' source'
      | (false, _) => []
      end
  end.

(** Declaration order on handles, depth first. *)
Fixpoint handle_lt (p q : handle) {struct p} : Prop :=
  match p, q with
  | i :: p', j :: q' => (i < j)%nat \/ (i = j /\ handle_lt p' q')
  | _, _ => False
  end.

(** The type of a value, as far as the package reads it: the kind of a
    value that is not a structure, the declarations and the types of the
    fields of a structure. *)
Inductive GoType :=
| TLeaf (k : reflect.Kind)
| TStruct (fields : list (StructField * GoType)).

Fixpoint TypeOf (v : GoValue) : GoType :=
  match v with
  | VStruct fs => TStruct ((fun f => (f.1, TypeOf f.2)) <$> fs)
  | _ => TLeaf (Kind v)
  end.

(** The kinds that [setValue] converts to. *)
Definition supported (k : reflect.Kind) : bool :=
  bool_decide (k ∈ [reflect.Bool; reflect.Int; reflect.Int8; reflect.Int16;
                    reflect.Int32; reflect.Int64; reflect.Uint; reflect.Uint8;
                    reflect.Uint16; reflect.Uint32; reflect.Uint64;
                    reflect.Float32; reflect.Float64; reflect.String]).

End Envcfg.

Section Scenarios.
#[local] Existing Instance decimal_platform.

(** ** The structures and the environment of the package's tests *)

Definition tagged (name env : string) : StructField :=
  {| FieldName := name; PkgPath := ""; Tag := [("env", env)] |}.

(** The structure [Cfg] of the tests, with the fields given. *)
Definition Cfg (b : bool) (i u : Z) (f : spec_float) (s : string) : GoValue :=
  VStruct [
    (tagged "BoolField" "BOOL_FIELD", VBool b);
    (tagged "IntField" "INT_FIELD", VInt KInt i);
    (tagged "UIntField" "UINT_FIELD", VUint KUint u);
    (tagged "FloatField" "FLOAT_FIELD", VFloat32 f);
    (tagged "StringField" "STRING_FIELD", VString s)].

Definition Cfg_zero : GoValue := Cfg false 0 0 (S754_zero false) "".

(** [16.5] as a [float32]. *)
Definition f16_5 : spec_float := S754_finite false 8650752 (-19).

(** The environment after [setupEnv]. *)
Definition setupEnv : list string :=
  ["BOOL_FIELD=true"; "INT_FIELD=-8"; "UINT_FIELD=7"; "FLOAT_FIELD=16.5";
   "STRING_FIELD=32"].

(** The lines of the file that [setupEnvFile] writes. *)
Definition setupEnvFile : list string :=
  [""; "BOOL_FIELD=true"; " INT_FIELD = 4 "; "UINT_FIELD= 11";
   " # FLOAT_FIELD=8.25"; "STRING_FIELD=ABC"].

(** A system with the working directory [/work], the environment
    [environ], and at most one file, [/work/.env]. *)
Definition system (environ : list string) (dotenv : option File) : OS :=
  {| os_Environ := environ;
     os_Getwd := inr "/work";
     os_Open name :=
       match dotenv with
       | Some file =>
           if decide (name = "/work/.env") then inr file
           else inl (PathError "open" name ENOENT)
       | None => inl (PathError "open" name ENOENT)
       end;
     os_Stat name :=
       match dotenv with
       | Some file =>
           if decide (name = "/work/.env") then None
           else Some (PathError "stat" name ENOENT)
       | None => Some (PathError "stat" name ENOENT)
       end |}.

Definition whole (lines : list string) : File :=
  {| file_lines := lines; file_err := None |}.

(** The structure of [TestFieldVisibility]: a field without tag, a field
    with an empty tag, an unexported field, an exported one. *)
Definition hidden (name env : string) : StructField :=
  {| FieldName := name; PkgPath := "envcfg"; Tag := [("env", env)] |}.

Definition Visibility (s : string) : GoValue :=
  VStruct [
    ({| FieldName := "BoolField"; PkgPath := ""; Tag := [] |}, VBool false);
    (tagged "IntField" "", VInt KInt 0);
    (hidden "floatField" "FLOAT_FIELD", VFloat32 (S754_zero false));
    (tagged "StringField" "STRING_FIELD", VString s)].

(** The structures of [TestNestedStruct], and the same fields declared at
    top level. *)
Definition More : StructField := {| FieldName := "More"; PkgPath := ""; Tag := [] |}.

Definition Nested (b : bool) (i : Z) : GoValue :=
  VStruct [
    (tagged "Field" "BOOL_FIELD", VBool b);
    (More, VStruct [(tagged "Field" "INT_FIELD", VInt KInt i)])].

Definition Flat (b : bool) (i : Z) : GoValue :=
  VStruct [
    (tagged "Field" "BOOL_FIELD", VBool b);
    (tagged "Field" "INT_FIELD", VInt KInt i)].

(** A structure with an 8-bit field, one with a field named as a comment. *)
Definition Small (i : Z) : GoValue := VStruct [(tagged "Level" "LEVEL", VInt KInt8 i)].

Definition Commented (s : string) : GoValue :=
  VStruct [(tagged "Note" "#NOTE", VString s)].

(** A system whose working directory is gone. *)
Definition lost : OS :=
  {| os_Environ := [];
     os_Getwd := inl (PathError "getwd" "." ENOENT);
     os_Open name := inl (PathError "open" name ENOENT);
     os_Stat name := Some (PathError "stat" name ENOENT) |}.

(** A system where [/etc] opens, being a directory, and cannot be read. *)
Definition unreadable : File :=
  {| file_lines := []; file_err := Some (PathError "read" "/etc" EISDIR) |}.

Definition etc (environ : list string) : OS :=
  {| os_Environ := environ;
     os_Getwd := inr "/";
     os_Open name :=
       if decide (name = "/etc") then inr unreadable
       else inl (PathError "open" name ENOENT);
     os_Stat name :=
       if decide (name = "/etc") then None else Some (PathError "stat" name ENOENT) |}.

(** A structure with two fields of one variable, and one with a field
    whose name no line can assign to. *)
Definition Twice (port : Z) (label : string) : GoValue :=
  VStruct [
    (tagged "Port" "PORT", VInt KInt port);
    (tagged "Label" "PORT", VString label)].

Definition Equation (s : string) : GoValue :=
  VStruct [(tagged "Note" "A=B", VString s)].

End Scenarios.

(** Case analysis on the integer comparisons of a goal. *)
Ltac zbool :=
  repeat match goal with
    | |- context [?a >? ?b] => rewrite (Z.gtb_ltb a b)
    | |- context [?a >=? ?b] => rewrite (Z.geb_leb a b)
    | |- context [?a <=? ?b] => destruct (Z.leb_spec a b)
    | |- context [?a <? ?b] => destruct (Z.ltb_spec a b)
    end;
  simpl; try lia; try done.

Section Properties.
Context `{Platform}.

(** ** The iterators deliver the items of their source in order *)

Lemma readSource_loop_eq {T : Type} `{iterable T} (source : T) (vars : gmap string string) :
  readSource_loop source vars =
  match Iter source with
  | (true, source') =>
      match readSource_line (Next source') vars with
      | inl err => inl err
      | inr vars' => readSource_loop source' vars'
      end
  | (false, _) => inr vars
  end.
Proof.
  funelim (readSource_loop source vars);
    match goal with Hi : Iter _ = _ |- _ => rewrite Hi end;
    try match goal with Hl : readSource_line _ _ = _ |- _ => rewrite Hl end;
    reflexivity.
Qed.

Lemma readSource_loop_arrayIter (pre suf : list string) (vars : gmap string string) :
  readSource_loop {| Index := Z.of_nat (length pre) - 1; Environ := pre ++ suf |} vars
  = readLines suf vars.
Proof.
  revert pre vars. induction suf as [|raw suf IH]; intros pre vars;
    rewrite readSource_loop_eq; cbn [Iter Next arrayIter_iterable];
    unfold arrayIter_Iter, arrayIter_Next; cbn [Index Environ fst snd].
  - rewrite length_app, (proj2 (Z.ltb_ge _ _)) by (simpl; lia). reflexivity.
  - rewrite length_app, (proj2 (Z.ltb_lt _ _)) by (simpl; lia).
    replace (Z.to_nat (Z.of_nat (length pre) - 1 + 1)) with (length pre) by lia.
    rewrite list_lookup_middle by reflexivity. cbn [from_option id readLines].
    destruct (readSource_line raw vars) as [err|vars']; [reflexivity|].
    specialize (IH (pre ++ [raw]) vars').
    rewrite length_app, <- app_assoc in IH. cbn [length app] in IH.
    rewrite <- IH. f_equal. f_equal. lia.
Qed.

Lemma readSource_arrayIter (environ : list string) :
  readSource (newArrayIter environ) = readLines environ ∅.
Proof. exact (readSource_loop_arrayIter [] environ ∅). Qed.

Lemma readSource_loop_scannerIter (sc : Scanner) (vars : gmap string string) :
  readSource_loop {| Scanner_of := sc |} vars = readLines (unread sc) vars.
Proof.
  destruct sc as [u t e]. revert t vars.
  induction u as [|raw u IH]; intros t vars;
    rewrite readSource_loop_eq; cbn.
  - reflexivity.
  - destruct (readSource_line raw vars) as [err|vars']; [reflexivity|]. apply IH.
Qed.

Lemma readSource_scannerIter (file : File) :
  readSource {| Scanner_of := NewScanner file |} = readLines (file_lines file) ∅.
Proof. apply readSource_loop_scannerIter. Qed.

(** ** Handles: reading and writing through a path *)

Lemma load_leaf_cons (v : GoValue) (i : nat) (q : handle) :
  Kind v <> reflect.Struct -> load v (i :: q) = None.
Proof. destruct v; simpl; congruence. Qed.

Lemma load_app (st : GoValue) (p q : handle) :
  load st (p ++ q) = load st p ≫= fun v => load v q.
Proof.
  revert st. induction p as [|i p IH]; intros st; [reflexivity|].
  destruct st as [| | | | | |fs| |]; try reflexivity. simpl.
  destruct (fs !! i) as [[sf fv]|]; [apply IH | reflexivity].
Qed.

(** A structure lies behind every proper prefix of a handle that leads
    somewhere. *)
Lemma load_prefix_struct (st : GoValue) (p q : handle) (v w : GoValue) :
  load st (p ++ q) = Some w -> q <> [] -> load st p = Some v ->
  Kind v = reflect.Struct.
Proof.
  rewrite load_app. intros Hw Hq Hv. rewrite Hv in Hw. simpl in Hw.
  destruct q as [|i q]; [congruence|].
  destruct v; simpl in Hw; try discriminate. reflexivity.
Qed.

Lemma load_store (st : GoValue) (p : handle) (old new : GoValue) :
  load st p = Some old -> load (store st p new) p = Some new.
Proof.
  revert st. induction p as [|i p IH]; intros st Hold; [reflexivity|].
  destruct st as [| | | | | |fs| |]; try discriminate Hold. simpl in *.
  destruct (fs !! i) as [[sf fv]|] eqn:Hi; [|discriminate].
  rewrite list_lookup_alter_eq, Hi. simpl. auto.
Qed.

(** Writing a field that is not a structure leaves alone whatever is not
    on the way to it. *)
Lemma load_store_frame (st : GoValue) (h p : handle) (old new : GoValue) :
  load st h = Some old ->
  Kind old <> reflect.Struct -> Kind new <> reflect.Struct ->
  ~ p `prefix_of` h ->
  load (store st h new) p = load st p.
Proof.
  revert st p. induction h as [|j h IH]; intros st p Hold Ho Hn Hp.
  - destruct p as [|i q]; [destruct Hp; apply prefix_nil|].
    simpl in Hold. injection Hold as ->. cbn [store].
    rewrite !load_leaf_cons; auto.
  - destruct p as [|i q]; [destruct Hp; apply prefix_nil|].
    destruct st as [| | | | | |fs| |]; try discriminate Hold. simpl in *.
    destruct (fs !! j) as [[sf fv]|] eqn:Hj; [|discriminate].
    destruct (decide (i = j)) as [->|Hne].
    + rewrite list_lookup_alter_eq, Hj. simpl. apply IH; auto.
      intros Hq. apply Hp. by apply prefix_cons.
    + rewrite list_lookup_alter_ne by congruence. reflexivity.
Qed.

Lemma field_at_store (st : GoValue) (h p : handle) (old new : GoValue) :
  load st h = Some old ->
  Kind old <> reflect.Struct -> Kind new <> reflect.Struct ->
  ~ p `prefix_of` h ->
  field_at (store st h new) p = field_at st p.
Proof.
  revert st p. induction h as [|j h IH]; intros st p Hold Ho Hn Hp.
  - destruct p as [|i q]; [destruct Hp; apply prefix_nil|].
    simpl in Hold. injection Hold as ->.
    destruct old, new; simpl in *; try congruence; by destruct q.
  - destruct p as [|i q]; [destruct Hp; apply prefix_nil|].
    destruct st as [| | | | | |fs| |]; try discriminate Hold. simpl in Hold.
    destruct (fs !! j) as [[sf fv]|] eqn:Hj; [|discriminate].
    cbn [store field_at].
    destruct (decide (i = j)) as [->|Hne].
    + rewrite list_lookup_alter_eq, Hj. simpl.
      destruct q as [|i' q'].
      * destruct Hp. apply prefix_cons, prefix_nil.
      * apply IH; auto. intros Hq. apply Hp. by apply prefix_cons.
    + rewrite list_lookup_alter_ne by congruence. reflexivity.
Qed.

(** ** [setValue] writes the coerced value, or nothing *)

Lemma setValue_coerce (st : GoValue) (field : handle) (value : string) (old : GoValue) :
  load st field = Some old ->
  setValue field value st =
  match coerce old value with
  | inl err => (Some err, st)
  | inr new => (None, store st field new)
  end.
Proof.
  intros Hold. unfold setValue, Kind_at, SetBool, SetInt, SetUint, SetFloat, SetString.
  rewrite Hold.
  destruct old as [b|k n|k n|x|x|s|fs|e|k]; try destruct k; cbn;
    repeat case_match; try congruence; reflexivity.
Qed.

Lemma setValue_invalid (st : GoValue) (field : handle) (value : string) :
  load st field = None ->
  setValue field value st = (Some (FieldNotSupported reflect.Invalid), st).
Proof. intros Hnone. unfold setValue, Kind_at. rewrite Hnone. reflexivity. Qed.

Lemma coerce_leaf (old new : GoValue) (value : string) :
  coerce old value = inr new ->
  Kind old <> reflect.Struct /\ Kind new = Kind old.
Proof.
  destruct old as [b|k n|k n|x|x|s|fs|e|k]; try destruct k; cbn;
    repeat case_match; intros Hc; try discriminate Hc;
    injection Hc as <-; split; done.
Qed.

(** Coercion reads the type of the old value only, and keeps it. *)
Lemma coerce_again (old new : GoValue) (value value' : string) :
  coerce old value = inr new -> coerce new value' = coerce old value'.
Proof.
  destruct old as [b|k n|k n|x|x|s|fs|e|k]; try destruct k; cbn;
    try destruct (ParseBool value); try destruct (ParseInt value 10 64);
    try destruct (ParseUint value 10 64); try destruct (ParseFloat64 value);
    intros Hc; try discriminate Hc; injection Hc as <-; reflexivity.
Qed.

(** An error of [setValue] leaves the target as it was. *)
Lemma setValue_error (st st' : GoValue) (field : handle) (value : string) (err : error) :
  setValue field value st = (Some err, st') -> st' = st.
Proof.
  destruct (load st field) as [old|] eqn:Hold.
  - rewrite (setValue_coerce _ _ _ _ Hold). destruct (coerce old value); congruence.
  - rewrite setValue_invalid by done. congruence.
Qed.

Lemma setValue_frame (st : GoValue) (field p : handle) (value : string) :
  ~ p `prefix_of` field ->
  load (setValue field value st).2 p = load st p.
Proof.
  intros Hp. destruct (load st field) as [old|] eqn:Hold.
  - rewrite (setValue_coerce _ _ _ _ Hold).
    destruct (coerce old value) as [err|new] eqn:Hc; [reflexivity|].
    apply coerce_leaf in Hc as [Ho Hn]. simpl.
    eapply load_store_frame; eauto. congruence.
  - rewrite setValue_invalid by done. reflexivity.
Qed.

Lemma setValue_field_at (st : GoValue) (field p : handle) (value : string) :
  ~ p `prefix_of` field ->
  field_at (setValue field value st).2 p = field_at st p.
Proof.
  intros Hp. destruct (load st field) as [old|] eqn:Hold.
  - rewrite (setValue_coerce _ _ _ _ Hold).
    destruct (coerce old value) as [err|new] eqn:Hc; [reflexivity|].
    apply coerce_leaf in Hc as [Ho Hn]. simpl.
    eapply field_at_store; eauto. congruence.
  - rewrite setValue_invalid by done. reflexivity.
Qed.

(** Two handles on fields that are not structures: one is a prefix of the
    other only if they are equal. *)
Lemma leaf_prefix (st : GoValue) (p h : handle) :
  is_leaf st p -> is_Some (load st h) -> p `prefix_of` h -> p = h.
Proof.
  intros (v & Hv & Hk) [w Hw] [q ->].
  destruct q as [|i q]; [by rewrite app_nil_r|].
  destruct Hk. eapply load_prefix_struct; eauto; done.
Qed.

Lemma setValue_is_leaf (st : GoValue) (field p : handle) (value : string) :
  is_leaf st p -> is_leaf (setValue field value st).2 p.
Proof.
  intros Hleaf. destruct (load st field) as [old|] eqn:Hold.
  - destruct (decide (p `prefix_of` field)) as [Hpre|Hpre].
    + apply (leaf_prefix st) in Hpre as ->; [|done|eauto].
      rewrite (setValue_coerce _ _ _ _ Hold).
      destruct (coerce old value) as [err|new] eqn:Hc; [done|].
      apply coerce_leaf in Hc as [Ho Hn]. simpl.
      exists new. split; [eapply load_store; eauto | congruence].
    + destruct Hleaf as (v & Hv & Hk). exists v.
      rewrite setValue_frame by done. done.
  - rewrite setValue_invalid by done. done.
Qed.

(** ** The loop over the fields *)

Lemma loadFields_app (vars : gmap string string) (a b : list structField) (st : GoValue) :
  loadFields vars (a ++ b) st =
  match loadFields vars a st with
  | (Some err, st') => (Some err, st')
  | (None, st') => loadFields vars b st'
  end.
Proof.
  revert st. induction a as [|f a IH]; intros st; [reflexivity|]. simpl.
  destruct (vars !! Name f) as [data|]; [|apply IH].
  destruct (setValue (Value f) data st) as [[err|] st']; [reflexivity | apply IH].
Qed.

Lemma loadFields_frame (vars : gmap string string) (fields : list structField)
    (st : GoValue) (p : handle) :
  (forall d, d ∈ fields -> is_Some (vars !! Name d) -> ~ p `prefix_of` Value d) ->
  load (loadFields vars fields st).2 p = load st p
  /\ field_at (loadFields vars fields st).2 p = field_at st p.
Proof.
  revert st. induction fields as [|f fields IH]; intros st Hp; [done|]. simpl.
  assert (Hrest : forall d, d ∈ fields -> is_Some (vars !! Name d) ->
                            ~ p `prefix_of` Value d).
  { intros d Hd. apply Hp. by right. }
  destruct (vars !! Name f) as [data|] eqn:Hdata; [|by apply IH].
  assert (Hf : ~ p `prefix_of` Value f).
  { apply Hp; [by left | by rewrite Hdata]. }
  pose proof (setValue_frame st (Value f) p data Hf) as Hl.
  pose proof (setValue_field_at st (Value f) p data Hf) as Hfa.
  destruct (setValue (Value f) data st) as [[err|] st1]; simpl in *; [done|].
  destruct (IH st1 Hrest) as [-> ->]. done.
Qed.

Lemma loadFields_is_leaf (vars : gmap string string) (fields : list structField)
    (st : GoValue) (p : handle) :
  is_leaf st p -> is_leaf (loadFields vars fields st).2 p.
Proof.
  revert st. induction fields as [|f fields IH]; intros st Hleaf; [done|]. simpl.
  destruct (vars !! Name f) as [data|]; [|by apply IH].
  pose proof (setValue_is_leaf st (Value f) p data Hleaf) as Hl.
  destruct (setValue (Value f) data st) as [[err|] st1]; simpl in *; [done|].
  by apply IH.
Qed.

Lemma wf_fields_cons (st : GoValue) (f : structField) (fields : list structField) :
  wf_fields st (f :: fields) ->
  wf_fields st fields /\ is_leaf st (Value f)
  /\ forall d, d ∈ fields -> ~ Value f `prefix_of` Value d /\ ~ Value d `prefix_of` Value f.
Proof.
  intros [Hnd Hleaf]. rewrite fmap_cons in Hnd. apply NoDup_cons in Hnd as [Hnotin Hnd].
  split; [|split].
  - split; [done|]. intros d Hd. apply Hleaf. by right.
  - apply Hleaf. by left.
  - intros d Hd.
    assert (Hne : Value f <> Value d).
    { intros Heq. apply Hnotin. rewrite Heq. by apply list_elem_of_fmap_2. }
    assert (Hlf : is_leaf st (Value f)) by (apply Hleaf; by left).
    assert (Hld : is_leaf st (Value d)) by (apply Hleaf; by right).
    split; intros Hpre; apply (leaf_prefix st) in Hpre; try done.
    + destruct Hld as (v & -> & _). eauto.
    + destruct Hlf as (v & -> & _). eauto.
Qed.

Lemma wf_fields_setValue (st : GoValue) (fields : list structField)
    (field : handle) (value : string) :
  wf_fields st fields -> wf_fields (setValue field value st).2 fields.
Proof.
  intros [Hnd Hleaf]. split; [done|].
  intros d Hd. by apply setValue_is_leaf, Hleaf.
Qed.

Lemma loadFields_loaded (vars : gmap string string) (fields : list structField)
    (st st' : GoValue) :
  wf_fields st fields ->
  loadFields vars fields st = (None, st') ->
  forall d, d ∈ fields -> loaded vars st st' d.
Proof.
  revert st. induction fields as [|f fields IH]; intros st Hwf Hrun d Hd.
  { by apply elem_of_nil in Hd. }
  destruct (wf_fields_cons _ _ _ Hwf) as (Hwf' & (old & Hold & Hk) & Hsep).
  assert (Hothers : forall e, e ∈ fields -> is_Some (vars !! Name e) ->
                              ~ Value f `prefix_of` Value e).
  { intros e He _. by apply Hsep. }
  simpl in Hrun. apply elem_of_cons in Hd as [->|Hd].
  - exists old. split; [done|].
    destruct (vars !! Name f) as [data|] eqn:Hdata.
    + rewrite (setValue_coerce _ _ _ _ Hold) in Hrun.
      destruct (coerce old data) as [err|new] eqn:Hc; [done|].
      exists new. split; [done|].
      pose proof (proj1 (loadFields_frame vars fields (store st (Value f) new)
                           (Value f) Hothers)) as Hfr.
      rewrite Hrun in Hfr. simpl in Hfr. rewrite Hfr. eapply load_store; eauto.
    + pose proof (proj1 (loadFields_frame vars fields st (Value f) Hothers)) as Hfr.
      rewrite Hrun in Hfr. simpl in Hfr. by rewrite Hfr.
  - destruct (vars !! Name f) as [data|] eqn:Hdata.
    + pose proof (wf_fields_setValue st fields (Value f) data Hwf') as Hwf1.
      pose proof (setValue_frame st (Value f) (Value d) data
                    (proj2 (Hsep d Hd))) as Hfr.
      destruct (setValue (Value f) data st) as [[err|] st1]; [done|]. simpl in *.
      destruct (IH st1 Hwf1 Hrun d Hd) as (old' & Hold' & Hres).
      exists old'. split; [congruence | done].
    + by apply (IH st).
Qed.

(** Where the loop stops: at the first field whose variable is present and
    does not coerce. *)
Lemma loadFields_stops (vars : gmap string string) (fields : list structField)
    (st st' : GoValue) (err : error) :
  loadFields vars fields st = (Some err, st') ->
  exists pre d post data,
    fields = pre ++ d :: post
    /\ loadFields vars pre st = (None, st')
    /\ vars !! Name d = Some data
    /\ setValue (Value d) data st' = (Some err, st').
Proof.
  revert st. induction fields as [|f fields IH]; intros st Hrun; [done|].
  simpl in Hrun. destruct (vars !! Name f) as [data|] eqn:Hdata.
  - destruct (setValue (Value f) data st) as [[e|] st1] eqn:Hset.
    + injection Hrun as -> ->. pose proof (setValue_error _ _ _ _ _ Hset) as ->.
      exists [], f, fields, data. done.
    + destruct (IH st1 Hrun) as (pre & d & post & data' & -> & Hpre & Hd & Hfail).
      exists (f :: pre), d, post, data'. simpl. rewrite Hdata, Hset. done.
  - destruct (IH st Hrun) as (pre & d & post & data' & -> & Hpre & Hd & Hfail).
    exists (f :: pre), d, post, data'. simpl. rewrite Hdata. done.
Qed.

(** ** The field collector *)

(** Induction on a value, with the fields of a structure as premises. *)
Lemma GoValue_struct_ind (P : GoValue -> Prop) :
  (forall v, Kind v <> reflect.Struct -> P v) ->
  (forall fs, Forall (fun f => P f.2) fs -> P (VStruct fs)) ->
  forall v, P v.
Proof.
  intros Hleaf Hstruct. fix IH 1.
  intros [b|k n|k n|x|x|s|fs|e|k]; try (apply Hleaf; simpl; try destruct k; discriminate).
  apply Hstruct. induction fs as [|[sf fv] fs IHfs]; constructor; [apply IH | apply IHfs].
Qed.

Lemma parseStruct_struct (st : handle) (fs : list (StructField * GoValue)) :
  parseStruct st (VStruct fs) = parseFields st 0 fs.
Proof.
  cbn [parseStruct]. generalize 0%nat.
  induction fs as [|[refField refValue] fs IH]; intros i; [reflexivity|].
  cbn [parseFields]. rewrite <- IH. f_equal.
  unfold parseField. cbn [fst snd].
  destruct (negb (String.eqb (PkgPath refField) "")); [reflexivity|].
  destruct refValue as [b|k n|k n|x|x|s|fs'|e|k]; try destruct k; reflexivity.
Qed.

Lemma parseStruct_leaf (st : handle) (v : GoValue) :
  Kind v <> reflect.Struct -> parseStruct st v = [].
Proof. destruct v; try reflexivity. simpl. congruence. Qed.

Lemma field_at_load (v : GoValue) (p : handle) (sf : StructField) (fv : GoValue) :
  field_at v p = Some (sf, fv) -> load v p = Some fv.
Proof.
  revert v. induction p as [|i q IH]; intros v Hf; [done|].
  destruct v as [| | | | | |fs| |]; try (by destruct q).
  simpl. destruct q as [|i' q'].
  - simpl in Hf. by rewrite Hf.
  - cbn [field_at] in Hf. destruct (fs !! i) as [[sf' fv']|]; [|done]. by apply IH.
Qed.

Lemma field_at_cons (fs : list (StructField * GoValue)) (i : nat) (q : handle) :
  q <> [] ->
  field_at (VStruct fs) (i :: q) =
  match fs !! i with Some (_, fv) => field_at fv q | None => None end.
Proof. destruct q; [done | reflexivity]. Qed.

Lemma field_at_nonempty (v : GoValue) (p : handle) :
  is_Some (field_at v p) -> p <> [].
Proof. intros [x Hx] ->. by destruct v. Qed.

Lemma elem_of_parseFields (st : handle) (i : nat) (fs : list (StructField * GoValue))
    (d : structField) :
  d ∈ parseFields st i fs <->
  exists j f, fs !! j = Some f /\ d ∈ parseField st (i + j) f.
Proof.
  revert i. induction fs as [|f fs IH]; intros i; simpl.
  - split; [by intros ?%elem_of_nil | by intros (j & f & ? & _)].
  - rewrite elem_of_app, IH. split.
    + intros [Hd|(j & g & Hj & Hd)].
      * exists 0%nat, f. by rewrite Nat.add_0_r.
      * exists (S j), g. by rewrite Nat.add_succ_r.
    + intros ([|j] & g & Hj & Hd); simpl in Hj.
      * left. injection Hj as <-. by rewrite Nat.add_0_r in Hd.
      * right. exists j, g. by rewrite Nat.add_succ_r in Hd.
Qed.

Lemma elem_of_parseStruct (v : GoValue) (st : handle) (d : structField) :
  d ∈ parseStruct st v <-> collects v st d.
Proof.
  revert st. induction v as [v Hleaf|fs IH] using GoValue_struct_ind; intros st.
  - rewrite parseStruct_leaf by done. split; [by intros ?%elem_of_nil|].
    intros (p & sf & fv & _ & _ & Hf & _). destruct p as [|i [|j q]], v; done.
  - rewrite parseStruct_struct, elem_of_parseFields. simpl.
    rewrite Forall_lookup in IH. split.
    + intros (j & [sf fv] & Hj & Hd). unfold parseField in Hd. cbn [fst snd] in Hd.
      destruct (String.eqb_spec (PkgPath sf) "") as [Hexp|Hexp]; simpl in Hd;
        [|by apply elem_of_nil in Hd].
      destruct (decide (Kind fv = reflect.Struct)) as [Hk|Hk].
      * apply (IH j _ Hj) in Hd as (p & sf' & fv' & Hv & He & Hf & Hk' & Hn & Hne).
        exists (j :: p), sf', fv'. rewrite Hv, <- app_assoc.
        split; [done|]. split; [by simpl; rewrite Hj|].
        rewrite field_at_cons, Hj by (apply (field_at_nonempty fv); eauto). done.
      * destruct (String.eqb_spec (Tag_Get (Tag sf) "env") "") as [Ht|Ht];
          [by apply elem_of_nil in Hd|].
        apply list_elem_of_singleton in Hd as ->.
        exists [j], sf, fv. simpl. rewrite Hj. done.
    + intros (p & sf & fv & Hv & He & Hf & Hk & Hn & Hne).
      destruct p as [|j q]; [done|]. simpl in He.
      destruct (fs !! j) as [[sf0 fv0]|] eqn:Hj; [|done]. destruct He as [Hexp He].
      exists j, (sf0, fv0). split; [done|]. unfold parseField. cbn [fst snd].
      rewrite Hexp. simpl.
      destruct q as [|j' q'].
      * simpl in Hf. rewrite Hj in Hf. injection Hf as -> ->.
        rewrite decide_False by done.
        destruct (String.eqb_spec (Tag_Get (Tag sf) "env") "") as [Ht|Ht]; [congruence|].
        apply list_elem_of_singleton. destruct d as [n val]. simpl in *. by subst.
      * rewrite field_at_cons, Hj in Hf by done.
        destruct fv0 as [| | | | | |fs0| |]; try done.
        rewrite decide_True by done. apply (IH j _ Hj).
        exists (j' :: q'), sf, fv. rewrite Hv, <- app_assoc. done.
Qed.

Lemma parseField_handle (st : handle) (i : nat) (f : StructField * GoValue)
    (d : structField) :
  d ∈ parseField st i f -> exists q, Value d = st ++ i :: q.
Proof.
  unfold parseField. destruct (negb _); [by intros ?%elem_of_nil|].
  destruct (decide _) as [Hk|Hk].
  - intros (p & _ & _ & -> & _)%elem_of_parseStruct. exists p. by rewrite <- app_assoc.
  - destruct (String.eqb _ _); [by intros ?%elem_of_nil|].
    intros ->%list_elem_of_singleton. by exists [].
Qed.

Lemma parseFields_NoDup (st : handle) (i : nat) (fs : list (StructField * GoValue)) :
  Forall (fun f => forall st', NoDup (Value <$> parseStruct st' f.2)) fs ->
  NoDup (Value <$> parseFields st i fs).
Proof.
  revert i. induction fs as [|f fs IH]; intros i Hall; simpl; [constructor|].
  apply Forall_cons in Hall as [Hf Hall].
  rewrite fmap_app. apply NoDup_app. split; [|split].
  - unfold parseField. destruct (negb _); [constructor|].
    destruct (decide _); [apply Hf|].
    destruct (String.eqb _ _); [constructor | apply NoDup_singleton].
  - intros h (d & -> & Hd)%list_elem_of_fmap (e & Heq & He)%list_elem_of_fmap.
    apply parseField_handle in Hd as [q Hq].
    apply elem_of_parseFields in He as (j & g & _ & He).
    apply parseField_handle in He as [q' Hq'].
    rewrite Heq, Hq' in Hq. apply app_inv_head in Hq. injection Hq. lia.
  - by apply IH.
Qed.

Lemma parseStruct_NoDup (v : GoValue) (st : handle) :
  NoDup (Value <$> parseStruct st v).
Proof.
  revert st. induction v as [v Hleaf|fs IH] using GoValue_struct_ind; intros st.
  - rewrite parseStruct_leaf by done. constructor.
  - rewrite parseStruct_struct. by apply parseFields_NoDup.
Qed.

Lemma collects_is_leaf (st : GoValue) (d : structField) :
  collects st [] d -> is_leaf st (Value d).
Proof.
  intros (p & sf & fv & -> & _ & Hf & Hk & _). exists fv.
  split; [by eapply field_at_load | done].
Qed.

Lemma parseStruct_wf (st : GoValue) : wf_fields st (parseStruct [] st).
Proof.
  split; [apply parseStruct_NoDup|].
  intros d Hd%elem_of_parseStruct. by apply collects_is_leaf.
Qed.

(** No handle of the collector passes through an unexported field. *)
Lemma exported_path_prefix (st : GoValue) (p q : handle) (sf : StructField) (fv : GoValue) :
  exported_path st (p ++ q) -> field_at st p = Some (sf, fv) -> PkgPath sf = "".
Proof.
  revert st. induction p as [|i p IH]; intros st He Hf; [by destruct st|].
  destruct st as [| | | | | |fs| |]; try done. simpl in He.
  destruct (fs !! i) as [[sf' fv']|] eqn:Hi; [|done]. destruct He as [Hexp He].
  destruct p as [|i' p'].
  - simpl in Hf. rewrite Hi in Hf. by injection Hf as <- <-.
  - rewrite field_at_cons, Hi in Hf by done. by eapply IH.
Qed.

(** ** The two passes of [LoadFile] *)

Lemma loadFromEnv_eq (os : OS) (fields : list structField) (st : GoValue) :
  loadFromEnv os fields st =
  match readLines (os_Environ os) ∅ with
  | inl err => (Some err, st)
  | inr vars => loadFields vars fields st
  end.
Proof. unfold loadFromEnv, loadFromSource. by rewrite readSource_arrayIter. Qed.

Lemma loadFromFile_eq (os : OS) (filename : string) (fields : list structField)
    (st : GoValue) :
  loadFromFile os filename fields st =
  match os_Open os filename with
  | inl err => (Some err, st)
  | inr file =>
      match readLines (file_lines file) ∅ with
      | inl err => (Some err, st)
      | inr vars => loadFields vars fields st
      end
  end.
Proof.
  unfold loadFromFile, loadFromSource. destruct (os_Open os filename); [done|].
  by rewrite readSource_scannerIter.
Qed.

Lemma run_eq (os : OS) (c : call) (to : option GoValue) :
  run os c to =
  match call_file os c with
  | inl err => (Some err, to)
  | inr filename => LoadFile os filename to
  end.
Proof. destruct c; simpl; [|done]. unfold Load. by destruct (os_Getwd os). Qed.

Lemma wf_fields_loadFields (vars : gmap string string) (fields fields' : list structField)
    (st : GoValue) :
  wf_fields st fields -> wf_fields (loadFields vars fields' st).2 fields.
Proof.
  intros [Hnd Hleaf]. split; [done|]. intros d Hd. by apply loadFields_is_leaf, Hleaf.
Qed.

(** A successful file pass followed by a successful environment pass. *)
Lemma loaded_twice (fileVars envVars : gmap string string) (st st1 st2 : GoValue)
    (d : structField) :
  loaded fileVars st st1 d -> loaded envVars st1 st2 d ->
  exists old,
    load st (Value d) = Some old /\
    match envVars !! Name d with
    | Some data => exists new, coerce old data = inr new /\ load st2 (Value d) = Some new
    | None =>
        match fileVars !! Name d with
        | Some data => exists new, coerce old data = inr new /\ load st2 (Value d) = Some new
        | None => load st2 (Value d) = Some old
        end
    end.
Proof.
  intros (old & Hold & Hfile) (old1 & Hold1 & Henv). exists old. split; [done|].
  destruct (fileVars !! Name d) as [fdata|].
  - destruct Hfile as (new1 & Hc1 & Hl1). assert (old1 = new1) as -> by congruence.
    destruct (envVars !! Name d) as [edata|].
    + destruct Henv as (new & Hc & Hl). exists new. split; [|done].
      by rewrite <- (coerce_again _ _ _ _ Hc1).
    + exists new1. done.
  - assert (old1 = old) as -> by congruence. done.
Qed.

(** C1.  After a successful [Load] or [LoadFile] on a pointer to a
    structure, every field that the collector bound holds the coerced value
    of its variable in the environment if the environment has it; otherwise
    the coerced value of its variable in the file if the file has it;
    otherwise the value it held before the call. *)
Theorem run_precedence (os : OS) (c : call) (fs : list (StructField * GoValue))
    (to' : option GoValue) :
  stat_consistent os ->
  run os c (pointer_to (VStruct fs)) = (None, to') ->
  exists filename envVars st',
    call_file os c = inr filename
    /\ readSource (newArrayIter (os_Environ os)) = inr envVars
    /\ to' = pointer_to st'
    /\ forall d, d ∈ parseStruct [] (VStruct fs) ->
       exists old,
         load (VStruct fs) (Value d) = Some old /\
         match envVars !! Name d with
         | Some data =>
             exists new, coerce old data = inr new /\ load st' (Value d) = Some new
         | None =>
             match file_vars os filename !! Name d with
             | Some data =>
                 exists new, coerce old data = inr new /\ load st' (Value d) = Some new
             | None => load st' (Value d) = Some old
             end
         end.
Proof.
  intros Hfs. rewrite run_eq. destruct (call_file os c) as [err|filename]; [done|].
  unfold LoadFile, pointer_to. set (st := VStruct fs). set (fields := parseStruct [] st).
  pose proof (parseStruct_wf st) as Hwf. fold fields in Hwf.
  rewrite loadFromFile_eq. unfold file_vars. rewrite readSource_arrayIter.
  assert (Henv : forall fileVars st1,
    (forall d, d ∈ fields -> loaded fileVars st st1 d) -> wf_fields st1 fields ->
    (let '(err, st2) := loadFromEnv os fields st1 in (err, Some (VPtr (Some st2))))
      = (None, to') ->
    exists envVars st',
      readLines (os_Environ os) ∅ = inr envVars /\ to' = Some (VPtr (Some st'))
      /\ forall d, d ∈ fields ->
         exists old, load st (Value d) = Some old /\
           match envVars !! Name d with
           | Some data =>
               exists new, coerce old data = inr new /\ load st' (Value d) = Some new
           | None =>
               match fileVars !! Name d with
               | Some data =>
                   exists new, coerce old data = inr new /\ load st' (Value d) = Some new
               | None => load st' (Value d) = Some old
               end
           end).
  { intros fileVars st1 Hfile Hwf1. rewrite loadFromEnv_eq.
    destruct (readLines (os_Environ os) ∅) as [err|envVars]; [done|].
    destruct (loadFields envVars fields st1) as [[err|] st2] eqn:Hrun; [done|].
    intros [= <-]. exists envVars, st2. split; [done|]. split; [done|].
    intros d Hd. eapply loaded_twice; [by apply Hfile|].
    by eapply loadFields_loaded. }
  assert (Hnone : forall d, d ∈ fields -> loaded ∅ st st d).
  { intros d Hd. destruct (proj2 Hwf d Hd) as (old & Hold & _).
    exists old. by rewrite lookup_empty. }
  destruct (os_Open os filename) as [err|file] eqn:Hopen.
  - simpl. destruct (IsNotExist (os_Stat os filename)); simpl; [|done].
    intros Hrun. destruct (Henv ∅ st Hnone Hwf Hrun) as (envVars & st' & ? & ? & ?).
    exists filename, envVars, st'. rewrite Hopen. done.
  - assert (Hopened : IsNotExist (os_Stat os filename) = false).
    { destruct (IsNotExist (os_Stat os filename)) eqn:Hst; [|done].
      destruct (Hfs filename Hst) as [err Herr]. congruence. }
    rewrite Hopened.
    destruct (readLines (file_lines file) ∅) as [err|fileVars] eqn:Hread; [done|].
    destruct (loadFields fileVars fields st) as [[err|] st1] eqn:Hrun1; [done|].
    simpl. intros Hrun.
    assert (Hwf1 : wf_fields st1 fields).
    { pose proof (wf_fields_loadFields fileVars fields fields st Hwf) as Hw.
      by rewrite Hrun1 in Hw. }
    destruct (Henv fileVars st1 (loadFields_loaded _ _ _ _ Hwf Hrun1) Hwf1 Hrun)
      as (envVars & st' & ? & ? & ?).
    exists filename, envVars, st'. rewrite Hopen, readSource_scannerIter, Hread. done.
Qed.

(** ** What a call leaves alone *)

(** A pass changes nothing behind [p] when no field whose variable the
    source can name lies on or under [p]. *)
Lemma loadLines_frame (K : string -> Prop) (lines : list string)
    (fields : list structField) (st : GoValue) (p : handle) :
  (forall vars k, readLines lines ∅ = inr vars -> is_Some (vars !! k) -> K k) ->
  (forall d, d ∈ fields -> K (Name d) -> ~ p `prefix_of` Value d) ->
  let st' := match readLines lines ∅ with
             | inl err => st
             | inr vars => (loadFields vars fields st).2
             end in
  load st' p = load st p /\ field_at st' p = field_at st p.
Proof.
  intros HK Hp. destruct (readLines lines ∅) as [err|vars] eqn:Hread; [done|].
  apply loadFields_frame. intros d Hd Hsome. apply Hp; [done|]. by eapply HK.
Qed.

Lemma run_frame (K : string -> Prop) (os : OS) (c : call)
    (fs : list (StructField * GoValue)) (p : handle)
    (err : option error) (to' : option GoValue) :
  (forall lines vars k, readLines lines ∅ = inr vars -> is_Some (vars !! k) -> K k) ->
  (forall d, d ∈ parseStruct [] (VStruct fs) -> K (Name d) -> ~ p `prefix_of` Value d) ->
  run os c (pointer_to (VStruct fs)) = (err, to') ->
  exists st',
    to' = pointer_to st'
    /\ load st' p = load (VStruct fs) p
    /\ field_at st' p = field_at (VStruct fs) p.
Proof.
  intros HK Hp. rewrite run_eq. unfold pointer_to.
  destruct (call_file os c) as [e|filename].
  { intros [= <- <-]. by exists (VStruct fs). }
  unfold LoadFile. set (st := VStruct fs) in *. set (fields := parseStruct [] st) in *.
  rewrite loadFromFile_eq.
  assert (Hfile : exists e1 st1,
    match os_Open os filename with
    | inl err => (Some err, st)
    | inr file =>
        match readLines (file_lines file) ∅ with
        | inl err => (Some err, st)
        | inr vars => loadFields vars fields st
        end
    end = (e1, st1) /\ load st1 p = load st p /\ field_at st1 p = field_at st p).
  { destruct (os_Open os filename) as [e|file]; [by exists (Some e), st|].
    pose proof (loadLines_frame K (file_lines file) fields st p (HK _) Hp) as Hfr.
    destruct (readLines (file_lines file) ∅) as [e|vars]; [by exists (Some e), st|].
    simpl in Hfr. destruct (loadFields vars fields st) as [e1 st1]. by exists e1, st1. }
  destruct Hfile as (e1 & st1 & -> & Hl1 & Hf1).
  destruct (bool_decide (is_Some e1) && negb (IsNotExist (os_Stat os filename))).
  { intros [= <- <-]. by exists st1. }
  rewrite loadFromEnv_eq.
  pose proof (loadLines_frame K (os_Environ os) fields st1 p (HK _) Hp) as Hfr.
  destruct (readLines (os_Environ os) ∅) as [e|vars].
  { intros [= <- <-]. by exists st1. }
  simpl in Hfr. destruct (loadFields vars fields st1) as [e2 st2].
  intros [= <- <-]. exists st2. simpl in Hfr. destruct Hfr as [-> ->]. done.
Qed.

(** C4.  A field that is not exported is skipped by the collector, with
    everything under it, and no call changes it, whatever its tag and
    whatever the file and the environment hold. *)
Theorem unexported_untouched (os : OS) (c : call) (fs : list (StructField * GoValue))
    (p : handle) (sf : StructField) (fv : GoValue)
    (err : option error) (to' : option GoValue) :
  field_at (VStruct fs) p = Some (sf, fv) ->
  PkgPath sf <> "" ->
  run os c (pointer_to (VStruct fs)) = (err, to') ->
  (forall d, d ∈ parseStruct [] (VStruct fs) -> ~ p `prefix_of` Value d)
  /\ exists st', to' = pointer_to st' /\ field_at st' p = Some (sf, fv).
Proof.
  intros Hf Hunexp Hrun.
  assert (Hskip : forall d, d ∈ parseStruct [] (VStruct fs) -> ~ p `prefix_of` Value d).
  { intros d (p' & _ & _ & Hv & He & _)%elem_of_parseStruct [q Hq].
    simpl in Hv. rewrite Hv in Hq. subst p'.
    apply Hunexp. apply (exported_path_prefix (VStruct fs) p q sf fv); [|done].
    by rewrite <- Hq. }
  split; [done|].
  destruct (run_frame (fun _ => True) os c fs p err to') as (st' & -> & _ & Hfa); auto.
  exists st'. by rewrite Hfa.
Qed.

(** ** Errors of a pass *)

Lemma wf_fields_app (st : GoValue) (a b : list structField) :
  wf_fields st (a ++ b) ->
  wf_fields st a /\ wf_fields st b
  /\ forall x y, x ∈ a -> y ∈ b -> ~ Value y `prefix_of` Value x.
Proof.
  intros [Hnd Hleaf]. rewrite fmap_app in Hnd.
  apply NoDup_app in Hnd as (Hna & Hdis & Hnb).
  assert (Hla : forall d, d ∈ a -> is_leaf st (Value d)).
  { intros d Hd. apply Hleaf, elem_of_app. by left. }
  assert (Hlb : forall d, d ∈ b -> is_leaf st (Value d)).
  { intros d Hd. apply Hleaf, elem_of_app. by right. }
  split; [done|]. split; [done|].
  intros x y Hx Hy Hpre. apply (leaf_prefix st) in Hpre; [|by apply Hlb|].
  - apply (Hdis (Value x)); [by apply list_elem_of_fmap_2|].
    rewrite <- Hpre. by apply list_elem_of_fmap_2.
  - destruct (Hla x Hx) as (v & -> & _). eauto.
Qed.

(** [setValue] fails with an error of the conversion or of the kind. *)
Lemma coerce_error_kind (old : GoValue) (value : string) (err : error) :
  coerce old value = inl err ->
  (exists fn e, err = NumError fn value e) \/ (exists k, err = FieldNotSupported k).
Proof.
  destruct old as [b|k n|k n|x|x|s|fs|e|k]; try destruct k; cbn;
    try destruct (ParseBool value); try destruct (ParseInt value 10 64);
    try destruct (ParseUint value 10 64); try destruct (ParseFloat64 value);
    intros Hc; try discriminate Hc; injection Hc as <-;
    solve [left; eauto | right; eauto].
Qed.

Lemma setValue_error_kind (st st' : GoValue) (field : handle) (value : string) (err : error) :
  setValue field value st = (Some err, st') ->
  (exists fn e, err = NumError fn value e) \/ (exists k, err = FieldNotSupported k).
Proof.
  destruct (load st field) as [old|] eqn:Hold.
  - rewrite (setValue_coerce _ _ _ _ Hold).
    destruct (coerce old value) as [e|new] eqn:Hc; [|done].
    intros [= <- <-]. by eapply coerce_error_kind.
  - rewrite setValue_invalid by done. intros [= <- <-]. eauto.
Qed.

(** C9.  A pass that fails on a line without ['='] has changed no field of
    the target: the error comes from reading the source, and the source is
    read to its end before the first field is written. *)
Theorem malformed_pass_atomic {T : Type} `{iterable T} (source : T)
    (fields : list structField) (st st' : GoValue) (line : string) :
  loadFromSource source fields st = (Some (SeparatorMissing line), st') ->
  readSource source = inl (SeparatorMissing line) /\ st' = st.
Proof.
  unfold loadFromSource. destruct (readSource source) as [err|vars].
  - by intros [= -> ->].
  - intros (pre & d & post & data & _ & _ & _ & Hset)%loadFields_stops.
    apply setValue_error_kind in Hset as [(fn & e & Heq)|(k & Heq)]; discriminate.
Qed.

(** C8.  In a pass over well-formed fields, an error of coercion comes
    from the first field whose variable is present and does not coerce:
    the pass returns that error, the fields before it are loaded, and that
    field and the fields after it hold what they held. *)
Theorem coercion_failure_stops {T : Type} `{iterable T} (source : T)
    (vars : gmap string string) (fields : list structField)
    (st st' : GoValue) (err : error) :
  wf_fields st fields ->
  readSource source = inr vars ->
  loadFromSource source fields st = (Some err, st') ->
  exists pre d post data old,
    fields = pre ++ d :: post
    /\ vars !! Name d = Some data
    /\ load st (Value d) = Some old
    /\ coerce old data = inl err
    /\ (forall e, e ∈ pre -> loaded vars st st' e)
    /\ (forall e, e ∈ d :: post -> load st' (Value e) = load st (Value e)).
Proof.
  intros Hwf Hread. unfold loadFromSource. rewrite Hread.
  intros (pre & d & post & data & -> & Hpre & Hd & Hset)%loadFields_stops.
  destruct (wf_fields_app _ _ _ Hwf) as (Hwfa & Hwfb & Hsep).
  assert (Hlater : forall e, e ∈ d :: post -> load st' (Value e) = load st (Value e)).
  { intros e He.
    pose proof (proj1 (loadFields_frame vars pre st (Value e)
      (fun x Hx _ => Hsep x e Hx He))) as Hfr.
    by rewrite Hpre in Hfr. }
  destruct (proj2 Hwfb d) as (old & Hold & _); [by left|].
  exists pre, d, post, data, old. split_and!; try done.
  - assert (Hold' : load st' (Value d) = Some old).
    { rewrite Hlater; [done | by left]. }
    rewrite (setValue_coerce _ _ _ _ Hold') in Hset.
    destruct (coerce old data); congruence.
  - intros e He. exact (loadFields_loaded _ _ _ _ Hwfa Hpre e He).
Qed.

(** ** The entry points *)

(** C7, as the code has it.  A target that is not a non-nil pointer to a
    structure is rejected before any field is collected or written:
    [LoadFile] returns the error of the target, and so does [Load] once the
    working directory is known; when [os.Getwd] fails, [Load] returns that
    error instead.  The argument is left as it was. *)
Theorem invalid_target_rejected (os : OS) (filename : string) (to : option GoValue) :
  ~ struct_pointer to ->
  LoadFile os filename to = (Some TargetNotStructPointer, to)
  /\ Load os to =
     (Some match os_Getwd os with
           | inl err => err
           | inr _ => TargetNotStructPointer
           end, to).
Proof.
  intros Hinv.
  assert (Hlf : forall f, LoadFile os f to = (Some TargetNotStructPointer, to)).
  { intros f. unfold LoadFile.
    destruct to as [[b|k n|k n|x|x|s|fs|[[b|k n|k n|x|x|s|fs|e|k]|]|k]|]; try reflexivity.
    destruct Hinv. by exists fs. }
  split; [apply Hlf|]. unfold Load. destruct (os_Getwd os); [done | apply Hlf].
Qed.

(** The file pass of [LoadFile], case by case. *)

(** A file that does not exist gives no variable and no error: the call is
    the environment pass alone. *)
Lemma LoadFile_missing_file (os : OS) (filename : string)
    (fs : list (StructField * GoValue)) (err : error) :
  os_Open os filename = inl err ->
  IsNotExist (os_Stat os filename) = true ->
  LoadFile os filename (pointer_to (VStruct fs)) =
  let '(err, st) := loadFromEnv os (parseStruct [] (VStruct fs)) (VStruct fs) in
  (err, pointer_to st).
Proof.
  intros Hopen Hstat. unfold LoadFile, pointer_to, loadFromFile.
  rewrite Hopen, Hstat. by rewrite andb_false_r.
Qed.

(** A file that cannot be opened for another reason ends the call with
    the error of [os.Open]: nothing is written, the environment is not
    read. *)
Lemma LoadFile_open_error (os : OS) (filename : string)
    (fs : list (StructField * GoValue)) (err : error) :
  os_Open os filename = inl err ->
  IsNotExist (os_Stat os filename) = false ->
  LoadFile os filename (pointer_to (VStruct fs)) = (Some err, pointer_to (VStruct fs)).
Proof.
  intros Hopen Hstat. unfold LoadFile, pointer_to, loadFromFile.
  by rewrite Hopen, Hstat.
Qed.

(** A file with a line that is not an assignment, among the lines that
    the scanner delivers, ends the call with the error of that line:
    nothing is written, the environment is not read. *)
Lemma LoadFile_malformed_file (os : OS) (filename : string)
    (fs : list (StructField * GoValue)) (file : File) (err : error) :
  os_Open os filename = inr file ->
  IsNotExist (os_Stat os filename) = false ->
  readSource {| Scanner_of := NewScanner file |} = inl err ->
  LoadFile os filename (pointer_to (VStruct fs)) = (Some err, pointer_to (VStruct fs)).
Proof.
  intros Hopen Hstat Hread. unfold LoadFile, pointer_to, loadFromFile, loadFromSource.
  by rewrite Hopen, Hread, Hstat.
Qed.

(** The error that ended the scan of the file is never read: the call is
    the same whether the scanner stopped at the end of the file or on a
    failure. *)
Lemma loadFromFile_read_error (os os' : OS) (filename : string) (file : File)
    (fields : list structField) (st : GoValue) :
  os_Open os filename = inr file ->
  os_Open os' filename = inr {| file_lines := file_lines file; file_err := None |} ->
  loadFromFile os filename fields st = loadFromFile os' filename fields st.
Proof. intros Ho Ho'. rewrite !loadFromFile_eq, Ho, Ho'. reflexivity. Qed.

(** ** Strings *)

#[local] Arguments String.append !_ _ / : simpl nomatch.

Lemma string_length_ind (P : string -> Prop) :
  (forall s, (forall t, (String.length t < String.length s)%nat -> P t) -> P s) ->
  forall s, P s.
Proof.
  intros HP s. remember (String.length s) as n eqn:Hn. revert s Hn.
  induction n as [n IH] using lt_wf_ind. intros s ->.
  apply HP. intros t Ht. by apply (IH (String.length t)).
Qed.

Lemma append_nil_r (s : string) : s +:+ "" = s.
Proof. induction s as [|a s IH]; simpl; congruence. Qed.

Lemma append_assoc (s t u : string) : (s +:+ t) +:+ u = s +:+ (t +:+ u).
Proof. induction s as [|a s IH]; simpl; congruence. Qed.

Lemma rev_app_append (s t : string) : String.rev_app s t = String.rev s +:+ t.
Proof.
  unfold String.rev. revert t. induction s as [|a s IH]; intros t; [done|]. simpl.
  rewrite (IH (String a "")), (IH (String a t)), append_assoc. done.
Qed.

Lemma rev_append (s t : string) : String.rev (s +:+ t) = String.rev t +:+ String.rev s.
Proof.
  induction s as [|a s IH]; simpl; [by rewrite append_nil_r|].
  unfold String.rev in *. simpl.
  rewrite (rev_app_append (s +:+ t)), (rev_app_append s).
  unfold String.rev. by rewrite IH, append_assoc.
Qed.

Lemma rev_involutive (s : string) : String.rev (String.rev s) = s.
Proof.
  induction s as [|a s IH]; [done|].
  change (String a s) with (String a "" +:+ s) at 1.
  rewrite rev_append, rev_append, IH. done.
Qed.

Lemma TrimLeft_fixed (s : string) : leading_space s = false -> TrimLeft s = s.
Proof.
  destruct s as [|a [|b [|c r]]]; simpl; try done;
    repeat (destruct (asciiSpace _) || destruct (space2 _ _) || destruct (space3 _ _ _));
    done.
Qed.

Lemma TrimLeft_no_leading_space (s : string) : leading_space (TrimLeft s) = false.
Proof.
  induction s as [s IH] using string_length_ind.
  destruct (leading_space s) eqn:Hs; [|by rewrite TrimLeft_fixed].
  destruct s as [|a [|b [|c r]]].
  - done.
  - simpl in *. destruct (asciiSpace a); done.
  - pose proof (IH (String b "") ltac:(simpl; lia)) as H1.
    simpl in *. destruct (asciiSpace a); [done|]. destruct (space2 a b); done.
  - pose proof (IH (String b (String c r)) ltac:(simpl; lia)) as H1.
    pose proof (IH (String c r) ltac:(simpl; lia)) as H2.
    pose proof (IH r ltac:(simpl; lia)) as H3.
    simpl in *. destruct (asciiSpace a); [done|].
    destruct (space2 a b); [done|]. destruct (space3 a b c); done.
Qed.

Lemma TrimLeft_suffix (s : string) : exists y, s = y +:+ TrimLeft s.
Proof.
  induction s as [s IH] using string_length_ind.
  destruct s as [|a [|b [|c r]]].
  - by exists "".
  - simpl. destruct (asciiSpace a); [by exists (String a "") | by exists ""].
  - destruct (IH (String b "") ltac:(simpl; lia)) as [y1 H1].
    simpl in *. destruct (asciiSpace a).
    { exists (String a y1). simpl. by rewrite <- H1. }
    destruct (space2 a b); [by exists (String a (String b "")) | by exists ""].
  - destruct (IH (String b (String c r)) ltac:(simpl; lia)) as [y1 H1].
    destruct (IH (String c r) ltac:(simpl; lia)) as [y2 H2].
    destruct (IH r ltac:(simpl; lia)) as [y3 H3].
    simpl in *. destruct (asciiSpace a).
    { exists (String a y1). simpl. by rewrite <- H1. }
    destruct (space2 a b).
    { exists (String a (String b y2)). simpl. by rewrite <- H2. }
    destruct (space3 a b c); [|by exists ""].
    exists (String a (String b (String c y3))). simpl. by rewrite <- H3.
Qed.

Lemma TrimLeft_rev_suffix (s : string) : exists y, s = y +:+ TrimLeft_rev s.
Proof.
  induction s as [s IH] using string_length_ind.
  destruct s as [|a [|b [|c r]]].
  - by exists "".
  - simpl. destruct (asciiSpace a); [by exists (String a "") | by exists ""].
  - destruct (IH (String b "") ltac:(simpl; lia)) as [y1 H1].
    simpl in *. destruct (asciiSpace a).
    { exists (String a y1). simpl. by rewrite <- H1. }
    destruct (space2 b a); [by exists (String a (String b "")) | by exists ""].
  - destruct (IH (String b (String c r)) ltac:(simpl; lia)) as [y1 H1].
    destruct (IH (String c r) ltac:(simpl; lia)) as [y2 H2].
    destruct (IH r ltac:(simpl; lia)) as [y3 H3].
    simpl in *. destruct (asciiSpace a).
    { exists (String a y1). simpl. by rewrite <- H1. }
    destruct (space2 b a).
    { exists (String a (String b y2)). simpl. by rewrite <- H2. }
    destruct (space3 c b a); [|by exists ""].
    exists (String a (String b (String c y3))). simpl. by rewrite <- H3.
Qed.

(** [TrimRight] keeps a prefix. *)
Lemma TrimRight_prefix (s : string) : exists t, s = TrimRight s +:+ t.
Proof.
  unfold TrimRight. destruct (TrimLeft_rev_suffix (String.rev s)) as [y Hy].
  exists (String.rev y).
  rewrite <- rev_append, <- Hy. by rewrite rev_involutive.
Qed.

Lemma leading_space_prefix (p q : string) :
  leading_space p = true -> leading_space (p +:+ q) = true.
Proof.
  destruct p as [|a [|b [|c r]]]; simpl; try done.
  - rewrite orb_false_r. by intros ->.
  - destruct (asciiSpace a); [done|]. simpl. rewrite orb_false_r. by intros ->.
Qed.

Lemma HasPrefix_hash_prefix (p q : string) :
  HasPrefix_hash p = true -> HasPrefix_hash (p +:+ q) = true.
Proof. by destruct p. Qed.

Lemma TrimSpace_no_leading_space (s : string) : leading_space (TrimSpace s) = false.
Proof.
  unfold TrimSpace. destruct (TrimRight_prefix (TrimLeft s)) as [t Ht].
  destruct (leading_space (TrimRight (TrimLeft s))) eqn:Hl; [|done].
  apply (leading_space_prefix _ t) in Hl. rewrite <- Ht in Hl.
  by rewrite TrimLeft_no_leading_space in Hl.
Qed.

(** The name that a line assigns does not begin with ['#']. *)
Lemma TrimSpace_key_no_hash (line k v : string) :
  leading_space line = false ->
  HasPrefix_hash line = false ->
  line = k +:+ String "=" v ->
  HasPrefix_hash (TrimSpace k) = false.
Proof.
  intros Hl Hh ->.
  assert (Hk : leading_space k = false).
  { destruct (leading_space k) eqn:Hk; [|done].
    by rewrite (leading_space_prefix _ _ Hk) in Hl. }
  unfold TrimSpace. rewrite (TrimLeft_fixed _ Hk).
  destruct (TrimRight_prefix k) as [t Ht].
  destruct (HasPrefix_hash (TrimRight k)) eqn:Hr; [|done].
  apply (HasPrefix_hash_prefix _ t) in Hr. rewrite <- Ht in Hr.
  by rewrite (HasPrefix_hash_prefix _ _ Hr) in Hh.
Qed.

(** ** The line grammar *)

Lemma cut_eq_Some (s k v : string) :
  cut_eq s = Some (k, v) <-> s = k +:+ String "=" v /\ ~ has_eq k.
Proof.
  revert k. induction s as [|c s IH]; intros k; simpl.
  - split; [done|]. intros [Hs _]. by destruct k.
  - destruct (Ascii.eqb_spec c "=") as [->|Hc].
    + split.
      * intros [= <- <-]. split; [done|]. intros (a & b & Hab). by destruct a.
      * intros [Hs Hk]. destruct k as [|c' k]; simpl in Hs.
        -- by injection Hs as ->.
        -- injection Hs as <- ->. destruct Hk. by exists "", k.
    + destruct (cut_eq s) as [[k' v']|] eqn:Hcut.
      * split.
        -- intros [= <- <-]. destruct (proj1 (IH k') eq_refl) as [-> Hk'].
           split; [done|]. intros (a & b & Hab). destruct a as [|c' a]; simpl in Hab.
           ++ by injection Hab as ->.
           ++ injection Hab as -> ->. apply Hk'. by exists a, b.
        -- intros [Hs Hk]. destruct k as [|c' k]; simpl in Hs.
           ++ by injection Hs as ->.
           ++ injection Hs as <- ->.
              assert (Hcut' : Some (k', v') = Some (k, v)); [|by injection Hcut' as -> ->].
              apply IH. split; [done|]. intros (a & b & ->). apply Hk.
              by exists (String c a), b.
      * split; [done|]. intros [Hs Hk]. destruct k as [|c' k]; simpl in Hs.
        -- by injection Hs as ->.
        -- injection Hs as <- ->.
           assert (Hcut' : None = Some (k, v)); [|done].
           apply IH. split; [done|]. intros (a & b & ->). apply Hk.
           by exists (String c a), b.
Qed.

Lemma cut_eq_None (s : string) : cut_eq s = None <-> ~ has_eq s.
Proof.
  induction s as [|c s IH]; simpl.
  - split; [|done]. intros _ (a & b & Hab). by destruct a.
  - destruct (Ascii.eqb_spec c "=") as [->|Hc].
    + split; [done|]. intros Hn. destruct Hn. by exists "", s.
    + destruct (cut_eq s) as [[k v]|] eqn:Hcut.
      * split; [done|]. intros Hn. destruct Hn.
        apply cut_eq_Some in Hcut as [-> _]. by exists (String c k), v.
      * split; [|done]. intros _ (a & b & Hab).
        destruct a as [|c' a]; simpl in Hab.
        -- by injection Hab as ->.
        -- injection Hab as -> ->. apply (proj1 IH eq_refl). by exists a, b.
Qed.

Lemma assigns_functional (raw k v k' v' : string) :
  assigns raw k v -> assigns raw k' v' -> k = k' /\ v = v'.
Proof.
  intros (_ & _ & a & b & Hab & Ha & -> & ->) (_ & _ & a' & b' & Hab' & Ha' & -> & ->).
  assert (Heq : Some (a, b) = Some (a', b')); [|by injection Heq as -> ->].
  rewrite <- (proj2 (cut_eq_Some (TrimSpace raw) a b)) by done.
  by apply cut_eq_Some.
Qed.

Lemma length_zero (s : string) : (String.length s =? 0)%nat = true <-> s = "".
Proof. by destruct s. Qed.

(** One item of a source is skipped, or assigns a value to a name, or is
    malformed; the loop body acts accordingly. *)
Lemma readSource_line_spec (raw : string) (vars : gmap string string) :
  (readSource_line raw vars = inr vars /\ forall k v, ~ assigns raw k v)
  \/ (exists k v, assigns raw k v /\ readSource_line raw vars = inr (<[k := v]> vars))
  \/ (malformed raw /\ readSource_line raw vars = inl (SeparatorMissing (TrimSpace raw))).
Proof.
  unfold readSource_line, assigns, malformed, SplitN_eq_2.
  set (line := TrimSpace raw).
  destruct (String.length line =? 0)%nat eqn:Hlen; simpl.
  { left. split; [done|]. apply length_zero in Hlen. intros k v (Hne & _). done. }
  destruct (HasPrefix_hash line) eqn:Hhash; simpl.
  { left. split; [done|]. intros k v (_ & Hh & _). done. }
  assert (Hne : line <> "").
  { intros Heq. apply length_zero in Heq. congruence. }
  destruct (cut_eq line) as [[k v]|] eqn:Hcut; simpl.
  - right. left. exists (TrimSpace k), (TrimSpace v).
    apply cut_eq_Some in Hcut as [Hl Hk]. split; [|done].
    split_and!; try done. by exists k, v.
  - right. right. apply cut_eq_None in Hcut. done.
Qed.

Lemma assigns_no_hash (raw k v : string) : assigns raw k v -> HasPrefix_hash k = false.
Proof.
  intros (_ & Hh & a & b & Hab & _ & -> & _).
  eapply TrimSpace_key_no_hash; [apply TrimSpace_no_leading_space | done | done].
Qed.

(** ** The map of a source *)

Lemma arrayIter_delivers (environ : list string) : delivers (newArrayIter environ) environ.
Proof. intros vars. apply (readSource_loop_arrayIter [] environ vars). Qed.

Lemma scannerIter_delivers (file : File) :
  delivers {| Scanner_of := NewScanner file |} (file_lines file).
Proof. intros vars. apply readSource_loop_scannerIter. Qed.

Lemma last_assigns_cons (raw : string) (rest : list string) (key value : string) :
  last_assigns (raw :: rest) key value <->
  last_assigns rest key value
  \/ (assigns raw key value /\ forall r v, r ∈ rest -> ~ assigns r key v).
Proof.
  split.
  - intros ([|b before] & raw0 & after & Heq & Ha & Hn); simpl in Heq.
    + injection Heq as <- <-. by right.
    + injection Heq as <- ->. left. by exists before, raw0, after.
  - intros [(before & raw0 & after & -> & Ha & Hn)|[Ha Hn]].
    + by exists (raw :: before), raw0, after.
    + by exists [], raw, rest.
Qed.

Lemma readLines_lookup (lines : list string) (vars0 vars : gmap string string) :
  readLines lines vars0 = inr vars ->
  forall key value,
    vars !! key = Some value <->
    last_assigns lines key value
    \/ ((forall r v, r ∈ lines -> ~ assigns r key v) /\ vars0 !! key = Some value).
Proof.
  revert vars0. induction lines as [|raw rest IH]; intros vars0 Hread key value.
  { simpl in Hread. injection Hread as <-. split.
    - intros Hv. right. split; [|done]. by intros r v ?%elem_of_nil.
    - intros [(before & raw & after & Heq & _)|[_ Hv]]; [|done].
      by destruct before. }
  simpl in Hread. rewrite last_assigns_cons.
  destruct (readSource_line_spec raw vars0)
    as [[Hline Hskip]|[(k & v & Ha & Hline)|[_ Hline]]];
    rewrite Hline in Hread; [| |done]; rewrite (IH _ Hread key value).
  - split.
    + intros [Hl|[Hn Hv]]; [by left; left|]. right. split; [|done].
      intros r v' [->|Hr]%elem_of_cons; [apply Hskip | by apply Hn].
    + intros [[Hl|[Ha _]]|[Hn Hv]]; [by left | by destruct (Hskip key value) |].
      right. split; [|done]. intros r v' Hr. apply Hn. by right.
  - destruct (decide (k = key)) as [->|Hne].
    + rewrite lookup_insert_eq. split.
      * intros [Hl|[Hn [= ->]]]; [by left; left | by left; right].
      * intros [[Hl|[Ha' Hn]]|[Hn _]].
        -- by left.
        -- right. split; [done|]. by destruct (assigns_functional _ _ _ _ _ Ha Ha') as [_ ->].
        -- destruct (Hn raw v); [by left | done].
    + rewrite lookup_insert_ne by done. split.
      * intros [Hl|[Hn Hv]]; [by left; left|]. right. split; [|done].
        intros r v' [->|Hr]%elem_of_cons; [|by apply Hn].
        intros Ha'. by destruct (assigns_functional _ _ _ _ _ Ha Ha').
      * intros [[Hl|[Ha' _]]|[Hn Hv]].
        -- by left.
        -- by destruct (assigns_functional _ _ _ _ _ Ha Ha').
        -- right. split; [|done]. intros r v' Hr. apply Hn. by right.
Qed.


(** The name of a collected field is the one its tag gives. *)
Lemma collects_name (st : GoValue) (d d' : structField) :
  collects st [] d -> collects st [] d' -> Value d = Value d' -> Name d = Name d'.
Proof.
  intros (p & sf & fv & Hv & _ & Hf & _ & Hn & _) (p' & sf' & fv' & Hv' & _ & Hf' & _ & Hn' & _) Heq.
  simpl in Hv, Hv'. assert (p = p') as <- by congruence.
  rewrite Hf in Hf'. injection Hf' as <- <-. congruence.
Qed.

(** C10.  A field whose name begins with ['#'] is assigned by no item of
    any source, and holds after every call what it held before. *)
Theorem hash_key_never_bound (os : OS) (c : call) (fs : list (StructField * GoValue))
    (d : structField) (err : option error) (to' : option GoValue) :
  d ∈ parseStruct [] (VStruct fs) ->
  HasPrefix_hash (Name d) = true ->
  run os c (pointer_to (VStruct fs)) = (err, to') ->
  (forall raw value, ~ assigns raw (Name d) value)
  /\ exists st', to' = pointer_to st' /\ load st' (Value d) = load (VStruct fs) (Value d).
Proof.
  intros Hd Hhash Hrun. split.
  { intros raw value Ha%assigns_no_hash. congruence. }
  destruct (run_frame (fun k => HasPrefix_hash k = false) os c fs (Value d) err to')
    as (st' & -> & Hl & _); [| |done|by exists st'].
  - intros lines vars k Hread [v Hv].
    apply (readLines_lookup _ _ _ Hread) in Hv as [(_ & raw & _ & _ & Ha & _)|[_ Hv]];
      [by eapply assigns_no_hash | done].
  - intros d' Hd' Hk Hpre.
    pose proof (proj1 (elem_of_parseStruct _ _ _) Hd) as Hc.
    pose proof (proj1 (elem_of_parseStruct _ _ _) Hd') as Hc'.
    apply (leaf_prefix (VStruct fs)) in Hpre; [|by apply collects_is_leaf|].
    + rewrite (collects_name _ _ _ Hc Hc' Hpre) in Hhash. congruence.
    + destruct (collects_is_leaf _ _ Hc') as (v & -> & _). eauto.
Qed.

(** ** Numbers *)

Lemma byte_code_range (c : ascii) : 0 <= byte_code c < 256.
Proof.
  unfold byte_code. pose proof (N_ascii_bounded c) as Hb. lia.
Qed.

Lemma digit_val_digit (c : ascii) :
  is_digit c = true -> digit_val c = Some (byte_code c - 48) /\ 0 <= byte_code c - 48 < 10.
Proof.
  unfold is_digit, digit_val. intros Hd. rewrite Hd. split; [done|]. lia.
Qed.

Lemma digit_val_other (c : ascii) (d : Z) :
  is_digit c = false -> digit_val c = Some d -> 10 <= d.
Proof.
  unfold is_digit, digit_val. intros ->.
  destruct ((97 <=? lower c) && (lower c <=? 122)) eqn:Hl; [|done].
  intros [= <-]. lia.
Qed.

Lemma decimal_ge (s : string) (acc u : Z) : 0 <= acc -> decimal s acc = Some u -> acc <= u.
Proof.
  revert acc. induction s as [|c s IH]; intros acc Hacc; simpl.
  - intros [= <-]. lia.
  - destruct (is_digit c) eqn:Hd; [|done].
    destruct (digit_val_digit c Hd) as [_ Hr]. intros Hu%IH; lia.
Qed.

Lemma ParseUint_loop_decimal (s : string) (n u : Z) :
  0 <= n <= maxUint64 ->
  ParseUint_loop s 10 (2 ^ 64 - 1) n = inr u <-> decimal s n = Some u /\ u <= maxUint64.
Proof.
  revert n. induction s as [|c s IH]; intros n Hn; simpl.
  - split; [intros [= <-]; split; [done | lia] | by intros [[= <-] _]].
  - destruct (is_digit c) eqn:Hd.
    + destruct (digit_val_digit c Hd) as [-> Hr].
      rewrite Z.geb_leb, (proj2 (Z.leb_gt _ _)) by lia.
      change (maxUint64 / 10 + 1) with 1844674407370955162.
      change (2 ^ 64 - 1) with 18446744073709551615 in *.
      unfold maxUint64 in *. change (2 ^ 64 - 1) with 18446744073709551615 in *.
      rewrite Z.geb_leb. destruct (Z.leb_spec 1844674407370955162 n) as [Hcut|Hcut].
      { split; [done|]. intros [Hu%decimal_ge Hle]; lia. }
      replace (n * 10 + (byte_code c - 48) >? 18446744073709551615)
        with (negb (10 * n + (byte_code c - 48) <=? 18446744073709551615))
        by (rewrite Z.gtb_ltb, Z.leb_antisym, negb_involutive; f_equal; lia).
      destruct (Z.leb_spec (10 * n + (byte_code c - 48)) 18446744073709551615)
        as [Hn1|Hn1]; simpl.
      * replace (n * 10) with (10 * n) by lia. apply IH. lia.
      * split; [done|]. intros [Hu%decimal_ge Hle]; lia.
    + split; [|by intros [? _]].
      destruct (digit_val c) as [d|] eqn:Hdv; [|done].
      pose proof (digit_val_other c d Hd Hdv) as Hge.
      by rewrite Z.geb_leb, (proj2 (Z.leb_le _ _)) by lia.
Qed.

Lemma ParseUint_loop_digits (s : string) (n u : Z) :
  0 <= n <= maxUint64 ->
  decimal s n = Some u ->
  ParseUint_loop s 10 (2 ^ 64 - 1) n = if u <=? maxUint64 then inr u else inl ErrRange.
Proof.
  revert n. induction s as [|c s IH]; intros n Hn; simpl.
  - intros [= <-]. by rewrite (proj2 (Z.leb_le _ _)) by lia.
  - destruct (is_digit c) eqn:Hd; [|done].
    destruct (digit_val_digit c Hd) as [-> Hr]. intros Hu.
    assert (Hge : 10 * n + (byte_code c - 48) <= u)
      by (apply (decimal_ge s); [lia | done]).
    rewrite Z.geb_leb, (proj2 (Z.leb_gt 10 (byte_code c - 48))) by lia.
    change (maxUint64 / 10 + 1) with 1844674407370955162.
    unfold maxUint64 in *. change (2 ^ 64 - 1) with 18446744073709551615 in *.
    rewrite Z.geb_leb. destruct (Z.leb_spec 1844674407370955162 n) as [Hcut|Hcut].
    { by rewrite (proj2 (Z.leb_gt _ _)) by lia. }
    replace (n * 10 + (byte_code c - 48) >? 18446744073709551615)
      with (negb (10 * n + (byte_code c - 48) <=? 18446744073709551615))
      by (rewrite Z.gtb_ltb, Z.leb_antisym, negb_involutive; f_equal; lia).
    destruct (Z.leb_spec (10 * n + (byte_code c - 48)) 18446744073709551615)
      as [Hn1|Hn1]; simpl.
    + replace (n * 10) with (10 * n) by lia. apply IH; [lia | done].
    + by rewrite (proj2 (Z.leb_gt _ _)) by lia.
Qed.

Lemma unsigned_decimal_nonneg (s : string) (u : Z) : unsigned_decimal s = Some u -> 0 <= u.
Proof. destruct s; [done|]. by apply decimal_ge. Qed.

(** [ParseUint] in base 10 on 64 bits: the numerals of [0 .. 2^64 - 1]. *)
Lemma ParseUint_decimal (s : string) (u : Z) :
  ParseUint s 10 64 = inr u <-> unsigned_decimal s = Some u /\ u <= maxUint64.
Proof.
  destruct s as [|c s]; [by split; [|intros []]|].
  apply (ParseUint_loop_decimal (String c s) 0 u). unfold maxUint64. lia.
Qed.

Lemma ParseUint_digits (s : string) (u : Z) :
  unsigned_decimal s = Some u ->
  ParseUint s 10 64 = if u <=? maxUint64 then inr u else inl ErrRange.
Proof.
  destruct s as [|c s]; [done|].
  apply (ParseUint_loop_digits (String c s) 0 u). unfold maxUint64. lia.
Qed.

Lemma ParseUint_not_decimal (s : string) :
  unsigned_decimal s = None -> exists e, ParseUint s 10 64 = inl e.
Proof.
  intros Hnone. destruct (ParseUint s 10 64) as [e|u] eqn:Hp; [by exists e|].
  apply ParseUint_decimal in Hp as [Hp _]. congruence.
Qed.

(** [ParseInt] in base 10 on 64 bits: the signed numerals of
    [-2^63 .. 2^63 - 1]. *)
Lemma ParseInt_digits (s : string) (i : Z) :
  signed_decimal s = Some i ->
  ParseInt s 10 64 =
  if (- 2 ^ 63 <=? i) && (i <=? 2 ^ 63 - 1) then inr i else inl ErrRange.
Proof.
  destruct s as [|c r]; [done|]. unfold signed_decimal, ParseInt.
  change (2 ^ (64 - 1)) with 9223372036854775808.
  change (2 ^ 63) with 9223372036854775808.
  destruct (Ascii.eqb c "+") eqn:Hplus.
  - assert (Ascii.eqb c "-" = false) as ->.
    { apply Ascii.eqb_eq in Hplus as ->. done. }
    simpl. intros Hu. pose proof (unsigned_decimal_nonneg _ _ Hu) as Hge.
    rewrite (ParseUint_digits _ _ Hu). unfold maxUint64.
    change (2 ^ 64 - 1) with 18446744073709551615.
    zbool.
  - destruct (Ascii.eqb c "-") eqn:Hminus; cbn [orb negb andb].
    + destruct (unsigned_decimal r) as [u|] eqn:Hu; [|done]. intros [= <-].
      pose proof (unsigned_decimal_nonneg _ _ Hu) as Hge.
      rewrite (ParseUint_digits _ _ Hu). unfold maxUint64.
      change (2 ^ 64 - 1) with 18446744073709551615.
      zbool.
    + intros Hu. pose proof (unsigned_decimal_nonneg _ _ Hu) as Hge.
      rewrite (ParseUint_digits _ _ Hu). unfold maxUint64.
      change (2 ^ 64 - 1) with 18446744073709551615.
      zbool.
Qed.

Lemma ParseInt_not_decimal (s : string) :
  signed_decimal s = None -> exists e, ParseInt s 10 64 = inl e.
Proof.
  destruct s as [|c r]; [by exists ErrSyntax|]. unfold signed_decimal, ParseInt.
  destruct (Ascii.eqb c "+") eqn:Hplus; [|destruct (Ascii.eqb c "-") eqn:Hminus];
    cbn [orb negb andb].
  - intros [e ->]%ParseUint_not_decimal. destruct e; eauto.
  - destruct (unsigned_decimal r) eqn:Hu; [done|]. intros _.
    destruct (ParseUint_not_decimal _ Hu) as [e ->]. destruct e; eauto.
  - intros [e ->]%ParseUint_not_decimal. destruct e; eauto.
Qed.

(** A value that fits the width of the field is stored as it is. *)
Lemma wrap_signed_fits (bits x : Z) :
  0 < bits -> - 2 ^ (bits - 1) <= x < 2 ^ (bits - 1) -> wrap_signed bits x = x.
Proof.
  intros Hb Hx. unfold wrap_signed.
  replace (2 ^ bits) with (2 * 2 ^ (bits - 1)).
  - rewrite Z.mod_small; lia.
  - rewrite <- Z.pow_succ_r by lia. f_equal. lia.
Qed.

Lemma wrap_unsigned_fits (bits x : Z) :
  0 <= x < 2 ^ bits -> wrap_unsigned bits x = x.
Proof. intros Hx. unfold wrap_unsigned. by rewrite Z.mod_small. Qed.

(** C2, as the code has it.  A field of a signed or unsigned integer type
    is coerced by a parse in base 10 on 64 bits, whatever the width of the
    field: the string is refused, and nothing written, exactly when it is
    not a decimal numeral or its value does not fit 64 bits; a value that
    fits 64 bits is written converted to the type of the field, that is
    reduced to its low bits, so that a value that fits the width of the
    field is written as it is, and any other is written truncated, without
    error.  A field of a floating-point type is coerced by
    [strconv.ParseFloat] on 64 bits, whatever its width: the error of
    [ParseFloat] is returned and nothing written, or else its result is
    written, as it is in a 64-bit field and converted to [float32] in a
    32-bit field.  A [uintptr] field is not supported. *)
Theorem numeric_coercion (st : GoValue) (field : handle) (value : string) (old : GoValue) :
  load st field = Some old ->
  match old with
  | VInt k _ =>
      match signed_decimal value with
      | Some i =>
          if (- 2 ^ 63 <=? i) && (i <=? 2 ^ 63 - 1)
          then setValue field value st
               = (None, store st field (VInt k (wrap_signed (int_bits k) i)))
               /\ (0 < int_bits k ->
                   - 2 ^ (int_bits k - 1) <= i < 2 ^ (int_bits k - 1) ->
                   setValue field value st = (None, store st field (VInt k i)))
          else setValue field value st = (Some (NumError "ParseInt" value ErrRange), st)
      | None => exists e, setValue field value st = (Some (NumError "ParseInt" value e), st)
      end
  | VUint KUintptr _ =>
      setValue field value st = (Some (FieldNotSupported reflect.Uintptr), st)
  | VUint k _ =>
      match unsigned_decimal value with
      | Some u =>
          if u <=? 2 ^ 64 - 1
          then setValue field value st
               = (None, store st field (VUint k (wrap_unsigned (uint_bits k) u)))
               /\ (u < 2 ^ uint_bits k ->
                   setValue field value st = (None, store st field (VUint k u)))
          else setValue field value st = (Some (NumError "ParseUint" value ErrRange), st)
      | None => exists e, setValue field value st = (Some (NumError "ParseUint" value e), st)
      end
  | VFloat32 _ =>
      setValue field value st =
      match ParseFloat64 value with
      | inl e => (Some (NumError "ParseFloat" value e), st)
      | inr f => (None, store st field (VFloat32 (to_float32 f)))
      end
  | VFloat64 _ =>
      setValue field value st =
      match ParseFloat64 value with
      | inl e => (Some (NumError "ParseFloat" value e), st)
      | inr f => (None, store st field (VFloat64 f))
      end
  | _ => True
  end.
Proof.
  intros Hold. rewrite (setValue_coerce _ _ _ _ Hold).
  destruct old as [b|k n|k n|x|x|s|fs|e|k]; try done.
  - simpl. destruct (signed_decimal value) as [i|] eqn:Hs.
    + rewrite (ParseInt_digits _ _ Hs). destruct (_ && _); [|done].
      split; [done|]. intros Hbits Hfits. by rewrite wrap_signed_fits.
    + destruct (ParseInt_not_decimal _ Hs) as [e ->]. by exists e.
  - assert (Hu : match unsigned_decimal value with
                 | Some u =>
                     0 <= u
                     /\ ParseUint value 10 64
                        = if u <=? 2 ^ 64 - 1 then inr u else inl ErrRange
                 | None => exists e, ParseUint value 10 64 = inl e
                 end).
    { destruct (unsigned_decimal value) as [u|] eqn:Hu;
        [|by apply ParseUint_not_decimal].
      split; [by eapply unsigned_decimal_nonneg | by apply ParseUint_digits]. }
    destruct k; simpl; try done;
      (destruct (unsigned_decimal value) as [u|];
       [destruct Hu as [Hge ->]; destruct (_ <=? _); [|done];
        split; [done|]; intros Hfits; by rewrite wrap_unsigned_fits
       |destruct Hu as [e ->]; by exists e]).
  - simpl. by destruct (ParseFloat64 value).
  - simpl. by destruct (ParseFloat64 value).
Qed.

(** ** Nested structures *)

Lemma parseFields_app (st : handle) (k : nat) (xs ys : list (StructField * GoValue)) :
  parseFields st k (xs ++ ys) = parseFields st k xs ++ parseFields st (k + length xs) ys.
Proof.
  revert k. induction xs as [|x xs IH]; intros k; simpl.
  - by rewrite Nat.add_0_r.
  - rewrite IH, <- app_assoc. do 3 f_equal. lia.
Qed.

(** The handles of the collector are relative to the handle it is given. *)
Lemma parseStruct_under (v : GoValue) (st : handle) :
  parseStruct st v = under st <$> parseStruct [] v.
Proof.
  revert st. induction v as [v Hleaf|fs IH] using GoValue_struct_ind; intros st.
  - by rewrite !parseStruct_leaf.
  - rewrite !parseStruct_struct. generalize 0%nat.
    induction fs as [|f fs IHfs]; intros k; [done|].
    apply Forall_cons in IH as [Hf IH]. simpl.
    rewrite fmap_app, <- (IHfs IH). f_equal.
    unfold parseField. destruct (negb _); [done|].
    destruct (decide _) as [Hk|Hk].
    + rewrite (Hf (st ++ [k])), (Hf ([] ++ [k])), <- list_fmap_compose.
      apply list_fmap_ext. intros _ d _. unfold under. simpl.
      by rewrite <- app_assoc.
    + by destruct (String.eqb _ _).
Qed.

Lemma parseFields_under (st : handle) (k : nat) (fs : list (StructField * GoValue)) :
  parseFields st k fs = under st <$> parseFields [] k fs.
Proof.
  revert k. induction fs as [|f fs IH]; intros k; [done|]. simpl.
  rewrite fmap_app, <- IH. f_equal.
  unfold parseField. destruct (negb _); [done|].
  destruct (decide _) as [Hk|Hk].
  - rewrite (parseStruct_under _ (st ++ [k])), (parseStruct_under _ ([] ++ [k])).
    rewrite <- list_fmap_compose.
    apply list_fmap_ext. intros _ d _. unfold under. simpl. by rewrite <- app_assoc.
  - by destruct (String.eqb _ _).
Qed.

Lemma parseFields_shift (k k0 : nat) (fs : list (StructField * GoValue)) :
  parseFields [] (k + k0) fs = shift k <$> parseFields [] k0 fs.
Proof.
  revert k0. induction fs as [|f fs IH]; intros k0; [done|]. simpl.
  rewrite fmap_app, <- IH, Nat.add_succ_r. f_equal.
  unfold parseField. destruct (negb _); [done|].
  destruct (decide _) as [Hk|Hk].
  - rewrite (parseStruct_under _ ([] ++ [(k + k0)%nat])), (parseStruct_under _ ([] ++ [k0])).
    rewrite <- list_fmap_compose. by apply list_fmap_ext.
  - by destruct (String.eqb _ _).
Qed.

Lemma parseFields_first_index (fs : list (StructField * GoValue)) (d : structField) :
  d ∈ parseFields [] 0 fs -> exists j q, Value d = j :: q /\ (j < length fs)%nat.
Proof.
  intros (j & f & Hj & [q Hq]%parseField_handle)%elem_of_parseFields.
  exists j, q. split; [done|]. by eapply lookup_lt_Some.
Qed.

Lemma parseStruct_splice (before after inner : list (StructField * GoValue))
    (sf : StructField) :
  PkgPath sf = "" ->
  parseStruct [] (VStruct (before ++ (sf, VStruct inner) :: after)) =
  parseFields [] 0 before ++ parseStruct [length before] (VStruct inner)
  ++ parseFields [] (S (length before)) after.
Proof.
  intros Hexp. rewrite parseStruct_struct, parseFields_app. simpl.
  unfold parseField at 1. simpl. rewrite Hexp. reflexivity.
Qed.

Lemma parseStruct_spliced (before after inner : list (StructField * GoValue))
    (sf : StructField) :
  PkgPath sf = "" ->
  Forall2 (spliced_field (length before) (length inner))
    (parseStruct [] (VStruct (before ++ (sf, VStruct inner) :: after)))
    (parseStruct [] (VStruct (before ++ inner ++ after))).
Proof.
  intros Hexp. rewrite parseStruct_splice by done.
  rewrite (parseStruct_struct [] (before ++ inner ++ after)), !parseFields_app.
  rewrite !Nat.add_0_l.
  apply Forall2_app; [|apply Forall2_app].
  - apply Forall_Forall2_diag, Forall_forall.
    intros d (j & q & Hv & Hj)%parseFields_first_index.
    split; [done|]. rewrite Hv. by constructor.
  - rewrite parseStruct_struct, parseFields_under.
    replace (parseFields [] (length before) inner)
      with (parseFields [] (length before + 0) inner) by (by rewrite Nat.add_0_r).
    rewrite parseFields_shift.
    apply Forall2_fmap, Forall_Forall2_diag, Forall_forall.
    intros d (j & q & Hv & Hj)%parseFields_first_index.
    split; [done|]. simpl. rewrite Hv. by constructor.
  - replace (parseFields [] (S (length before)) after)
      with (parseFields [] (S (length before) + 0) after) by (by rewrite Nat.add_0_r).
    replace (parseFields [] (length before + length inner) after)
      with (parseFields [] (length before + length inner + 0) after)
      by (by rewrite Nat.add_0_r).
    rewrite !parseFields_shift.
    apply Forall2_fmap, Forall_Forall2_diag, Forall_forall.
    intros d (j & q & Hv & Hj)%parseFields_first_index.
    split; [done|]. simpl. rewrite Hv. by constructor.
Qed.

Lemma splices_load (sf : StructField) (n m : nat) (nested flat : GoValue) (h h' : handle) :
  splices sf n m nested flat -> spliced n m h h' -> load flat h' = load nested h.
Proof.
  intros [before inner after <- <-] [j q Hj|j q Hj|j q]; simpl.
  - by rewrite !lookup_app_l by done.
  - rewrite (lookup_app_r before (inner ++ after)) by lia.
    rewrite list_lookup_middle by done.
    replace (length before + j - length before)%nat with j by lia.
    by rewrite lookup_app_l by done.
  - rewrite (lookup_app_r before (_ :: _)) by lia.
    rewrite (lookup_app_r before (inner ++ after)) by lia.
    rewrite lookup_app_r by lia.
    replace (S (length before + j) - length before)%nat with (S j) by lia.
    replace (length before + length inner + j - length before - length inner)%nat
      with j by lia.
    done.
Qed.

Lemma splices_store (sf : StructField) (n m : nat) (nested flat : GoValue) (h h' : handle)
    (new : GoValue) :
  splices sf n m nested flat -> spliced n m h h' ->
  splices sf n m (store nested h new) (store flat h' new).
Proof.
  intros [before inner after <- <-] [j q Hj|j q Hj|j q]; cbn [store].
  - rewrite !alter_app_l by done.
    set (before' := alter _ j before).
    replace (length before) with (length before') by apply length_alter.
    by constructor.
  - replace (alter (fun f : StructField * GoValue => (f.1, store f.2 (j :: q) new)) (length before)
               (before ++ (sf, VStruct inner) :: after))
      with (before ++ (sf, VStruct (alter (fun f : StructField * GoValue => (f.1, store f.2 q new)) j inner))
              :: after).
    2: { rewrite <- (Nat.add_0_r (length before)) at 1. by rewrite alter_app_r. }
    rewrite alter_app_r, alter_app_l by done.
    set (inner' := alter _ j inner).
    replace (length inner) with (length inner') by apply length_alter.
    by constructor.
  - replace (S (length before) + j)%nat with (length before + S j)%nat by lia.
    rewrite <- Nat.add_assoc, !alter_app_r. simpl. by constructor.
Qed.

Lemma splices_setValue (sf : StructField) (n m : nat) (nested flat : GoValue)
    (h h' : handle) (value : string) :
  splices sf n m nested flat -> spliced n m h h' ->
  exists flat',
    setValue h' value flat = ((setValue h value nested).1, flat')
    /\ splices sf n m (setValue h value nested).2 flat'.
Proof.
  intros Hs Hh. pose proof (splices_load _ _ _ _ _ _ _ Hs Hh) as Hl.
  destruct (load nested h) as [old|] eqn:Hold.
  - rewrite (setValue_coerce _ _ _ _ Hold), (setValue_coerce _ _ _ _ Hl).
    destruct (coerce old value) as [err|new]; [by exists flat|].
    exists (store flat h' new). split; [done|]. by apply splices_store.
  - rewrite !setValue_invalid by done. by exists flat.
Qed.

Lemma splices_loadFields (sf : StructField) (n m : nat) (vars : gmap string string)
    (fields fields' : list structField) (nested flat : GoValue) :
  Forall2 (spliced_field n m) fields fields' ->
  splices sf n m nested flat ->
  exists flat',
    loadFields vars fields' flat = ((loadFields vars fields nested).1, flat')
    /\ splices sf n m (loadFields vars fields nested).2 flat'.
Proof.
  intros Hf. revert nested flat.
  induction Hf as [|d d' fields fields' [Hname Hh] Hf IH]; intros nested flat Hs; simpl.
  { by exists flat. }
  rewrite <- Hname. destruct (vars !! Name d) as [data|]; [|by apply IH].
  destruct (splices_setValue _ _ _ _ _ _ _ data Hs Hh) as (flat1 & -> & Hs1).
  destruct (setValue (Value d) data nested) as [[err|] nested1]; simpl in *.
  - by exists flat1.
  - by apply IH.
Qed.

Lemma splices_LoadFile (os : OS) (filename : string) (sf : StructField)
    (before inner after : list (StructField * GoValue))
    (err : option error) (to' : option GoValue) :
  PkgPath sf = "" ->
  LoadFile os filename (pointer_to (VStruct (before ++ (sf, VStruct inner) :: after)))
    = (err, to') ->
  exists nested' flat',
    to' = pointer_to nested'
    /\ splices sf (length before) (length inner) nested' flat'
    /\ LoadFile os filename (pointer_to (VStruct (before ++ inner ++ after)))
       = (err, pointer_to flat').
Proof.
  intros Hexp. unfold LoadFile, pointer_to.
  pose proof (parseStruct_spliced before after inner sf Hexp) as Hfields.
  set (nested := VStruct (before ++ (sf, VStruct inner) :: after)) in *.
  set (flat := VStruct (before ++ inner ++ after)) in *.
  set (fields := parseStruct [] nested) in *. set (fields' := parseStruct [] flat) in *.
  assert (Hs : splices sf (length before) (length inner) nested flat) by by constructor.
  assert (Hpass : forall lines nested0 flat0,
    splices sf (length before) (length inner) nested0 flat0 ->
    exists flat1,
      match readLines lines ∅ with
      | inl e => (Some e, flat0)
      | inr vars => loadFields vars fields' flat0
      end
      = (match readLines lines ∅ with
         | inl e => (Some e, nested0)
         | inr vars => loadFields vars fields nested0
         end.1, flat1)
      /\ splices sf (length before) (length inner)
           match readLines lines ∅ with
           | inl e => (Some e, nested0)
           | inr vars => loadFields vars fields nested0
           end.2 flat1).
  { intros lines nested0 flat0 Hs0. destruct (readLines lines ∅) as [e|vars].
    - by exists flat0.
    - by apply splices_loadFields. }
  rewrite !loadFromFile_eq.
  assert (Hfile : exists flat1,
    match os_Open os filename with
    | inl e => (Some e, flat)
    | inr file =>
        match readLines (file_lines file) ∅ with
        | inl e => (Some e, flat)
        | inr vars => loadFields vars fields' flat
        end
    end
    = (match os_Open os filename with
       | inl e => (Some e, nested)
       | inr file =>
           match readLines (file_lines file) ∅ with
           | inl e => (Some e, nested)
           | inr vars => loadFields vars fields nested
           end
       end.1, flat1)
    /\ splices sf (length before) (length inner)
         match os_Open os filename with
         | inl e => (Some e, nested)
         | inr file =>
             match readLines (file_lines file) ∅ with
             | inl e => (Some e, nested)
             | inr vars => loadFields vars fields nested
             end
         end.2 flat1).
  { destruct (os_Open os filename) as [e|file]; [by exists flat | by apply Hpass]. }
  destruct Hfile as (flat1 & -> & Hs1).
  destruct (match os_Open os filename with
            | inl e => (Some e, nested)
            | inr file => _
            end) as [e1 nested1]. simpl in *.
  destruct (bool_decide (is_Some e1) && negb (IsNotExist (os_Stat os filename))).
  { intros [= <- <-]. by exists nested1, flat1. }
  rewrite !loadFromEnv_eq.
  destruct (Hpass (os_Environ os) nested1 flat1 Hs1) as (flat2 & -> & Hs2).
  destruct (match readLines (os_Environ os) ∅ with
            | inl e => (Some e, nested1)
            | inr vars => _
            end) as [e2 nested2]. simpl in *.
  intros [= <- <-]. by exists nested2, flat2.
Qed.

(** C5.  An exported field that is a structure is collected by its own
    fields, whatever its tag: their descriptors come where the field is
    declared, between those of the fields before and after it; and a call
    on the target is the same call on the target that declares the fields
    of the nested structure in its place: same names in the same order on
    the same fields, same error, same values. *)
Theorem nested_struct_spliced (os : OS) (c : call) (sf : StructField)
    (before inner after : list (StructField * GoValue))
    (err : option error) (to' : option GoValue) :
  PkgPath sf = "" ->
  run os c (pointer_to (VStruct (before ++ (sf, VStruct inner) :: after))) = (err, to') ->
  parseStruct [] (VStruct (before ++ (sf, VStruct inner) :: after))
  = parseFields [] 0 before ++ parseStruct [length before] (VStruct inner)
    ++ parseFields [] (S (length before)) after
  /\ Forall2 (spliced_field (length before) (length inner))
       (parseStruct [] (VStruct (before ++ (sf, VStruct inner) :: after)))
       (parseStruct [] (VStruct (before ++ inner ++ after)))
  /\ exists nested' flat',
       to' = pointer_to nested'
       /\ splices sf (length before) (length inner) nested' flat'
       /\ run os c (pointer_to (VStruct (before ++ inner ++ after)))
          = (err, pointer_to flat').
Proof.
  intros Hexp Hrun.
  split; [by apply parseStruct_splice|]. split; [by apply parseStruct_spliced|].
  rewrite run_eq in *. destruct (call_file os c) as [e|filename].
  - injection Hrun as <- <-. eexists _, _. split; [done|]. split; [|done].
    by constructor.
  - by apply splices_LoadFile.
Qed.

(** ** Further properties of the iterators *)

Lemma items_arrayIter (pre suf : list string) (fuel : nat) :
  items fuel {| Index := Z.of_nat (length pre) - 1; Environ := pre ++ suf |}
  = take fuel suf.
Proof.
  revert pre suf. induction fuel as [|fuel IH]; intros pre suf; [done|].
  cbn [items Iter Next arrayIter_iterable].
  unfold arrayIter_Iter, arrayIter_Next. cbn [Index Environ fst snd].
  destruct suf as [|raw suf].
  - rewrite length_app, (proj2 (Z.ltb_ge _ _)) by (simpl; lia). done.
  - rewrite length_app, (proj2 (Z.ltb_lt _ _)) by (simpl; lia).
    replace (Z.to_nat (Z.of_nat (length pre) - 1 + 1)) with (length pre) by lia.
    rewrite list_lookup_middle by reflexivity. simpl. f_equal.
    specialize (IH (pre ++ [raw]) suf).
    rewrite length_app, <- app_assoc in IH. simpl in IH.
    rewrite <- IH. f_equal. f_equal. lia.
Qed.

(** X1.  The iterator over an array delivers the entries of the array, each
    once, in the order of the array, and then ends: [Next] is reached with
    the index in range only. *)
Theorem arrayIter_in_order (arr : list string) (fuel : nat) :
  items fuel (newArrayIter arr) = take fuel arr.
Proof. exact (items_arrayIter [] arr fuel). Qed.

(** Every source delivers its items. *)
Lemma readSource_loop_items {T : Type} `{iterable T} (fuel : nat) (source : T)
    (vars : gmap string string) :
  (pending source <= fuel)%nat ->
  readSource_loop source vars = readLines (items fuel source) vars.
Proof.
  revert source vars. induction fuel as [|fuel IH]; intros source vars Hfuel;
    rewrite readSource_loop_eq; pose proof (Iter_pending source) as Hdec;
    destruct (Iter source) as [[|] source'] eqn:Hit; simpl in *;
    rewrite ?Hit; try done.
  - specialize (Hdec eq_refl). lia.
  - cbn [readLines]. destruct (readSource_line (Next source') vars) as [err|vars']; [done|].
    apply IH. specialize (Hdec eq_refl). lia.
Qed.

(** ** Further properties of the line reader *)

Lemma readSource_line_error (raw : string) (vars : gmap string string) (err : error) :
  readSource_line raw vars = inl err <->
  malformed raw /\ err = SeparatorMissing (TrimSpace raw).
Proof.
  unfold readSource_line, malformed, SplitN_eq_2.
  set (line := TrimSpace raw).
  destruct (String.length line =? 0)%nat eqn:Hlen; simpl.
  { apply length_zero in Hlen. split; [done|]. by intros [(Hne & _) _]. }
  destruct (HasPrefix_hash line) eqn:Hhash; simpl.
  { split; [done|]. by intros [(_ & Hh & _) _]. }
  assert (Hne : line <> "").
  { intros Heq. apply length_zero in Heq. congruence. }
  destruct (cut_eq line) as [[k v]|] eqn:Hcut; simpl.
  - split; [done|]. intros [(_ & _ & Hn) _]. apply cut_eq_None in Hn. congruence.
  - apply cut_eq_None in Hcut. split; [by intros [= <-] | by intros [_ ->]].
Qed.

Lemma readLines_error (lines : list string) (vars : gmap string string) (err : error) :
  readLines lines vars = inl err <->
  exists before raw after,
    lines = before ++ raw :: after
    /\ (forall r, r ∈ before -> ~ malformed r)
    /\ malformed raw
    /\ err = SeparatorMissing (TrimSpace raw).
Proof.
  revert vars. induction lines as [|raw rest IH]; intros vars; simpl.
  { split; [done|]. intros ([|b before] & raw & after & Heq & _); done. }
  destruct (readSource_line raw vars) as [e|vars'] eqn:Hline.
  - apply readSource_line_error in Hline as [Hm ->]. split.
    + intros [= <-]. exists [], raw, rest. split_and!; try done.
      by intros r ?%elem_of_nil.
    + intros ([|b before] & raw0 & after & Heq & Hok & Hm0 & ->); simpl in Heq.
      * by injection Heq as <- <-.
      * injection Heq as <- ->. destruct (Hok raw); [by left | done].
  - assert (Hok : ~ malformed raw).
    { intros Hm. pose proof (proj2 (readSource_line_error raw vars _) (conj Hm eq_refl)).
      congruence. }
    rewrite IH. split.
    + intros (before & raw0 & after & -> & Hb & Hm & ->).
      exists (raw :: before), raw0, after. split_and!; try done.
      intros r [->|Hr]%elem_of_cons; [done | by apply Hb].
    + intros ([|b before] & raw0 & after & Heq & Hb & Hm & ->); simpl in Heq.
      * injection Heq as <- <-. done.
      * injection Heq as <- ->. exists before, raw0, after. split_and!; try done.
        intros r Hr. apply Hb. by right.
Qed.

(** X2.  [readSource] fails exactly when an item of the source is
    malformed, and its error is that of the first such item: the items
    after it are not looked at, and the error carries the trimmed item. *)
Theorem readSource_first_malformed {T : Type} `{iterable T} (source : T)
    (lines : list string) (err : error) :
  delivers source lines ->
  readSource source = inl err <->
  exists before raw after,
    lines = before ++ raw :: after
    /\ (forall r, r ∈ before -> ~ malformed r)
    /\ malformed raw
    /\ err = SeparatorMissing (TrimSpace raw).
Proof. intros Hsrc. unfold readSource. rewrite Hsrc. apply readLines_error. Qed.

(** ** Further properties of the field collector *)

(** X3.  [parseStruct] collects a field under a name exactly when every
    field on the way to it is exported, the field is not a structure, and
    the name is the value of the key [env] of its tag and is not empty. *)
Theorem parseStruct_complete (st : GoValue) (name : string) (p : handle) :
  {| Name := name; Value := p |} ∈ parseStruct [] st <->
  exists sf fv,
    exported_path st p
    /\ field_at st p = Some (sf, fv)
    /\ Kind fv <> reflect.Struct
    /\ Tag_Get (Tag sf) "env" = name
    /\ name <> "".
Proof.
  rewrite elem_of_parseStruct. unfold collects. simpl. split.
  - intros (q & sf & fv & -> & He & Hf & Hk & -> & Hne). by exists sf, fv.
  - intros (sf & fv & He & Hf & Hk & <- & Hne). by exists p, sf, fv.
Qed.

Lemma handle_lt_cons (i : nat) (l : list handle) :
  StronglySorted handle_lt l -> StronglySorted handle_lt ((i ::.) <$> l).
Proof.
  induction 1 as [|p l Hl IH Hall]; simpl; constructor; [done|].
  rewrite Forall_fmap. eapply Forall_impl; [done|]. intros q Hq. simpl. by right.
Qed.

Lemma parseFields_sorted (i : nat) (fs : list (StructField * GoValue)) :
  Forall (fun f => StronglySorted handle_lt (Value <$> parseStruct [] f.2)) fs ->
  StronglySorted handle_lt (Value <$> parseFields [] i fs).
Proof.
  revert i. induction fs as [|f fs IH]; intros i Hall; simpl; [constructor|].
  apply Forall_cons in Hall as [Hf Hall].
  rewrite fmap_app. apply StronglySorted_app. split_and!.
  - intros x1 x2 (d & -> & Hd)%list_elem_of_fmap (e & -> & He)%list_elem_of_fmap.
    apply parseField_handle in Hd as [q ->].
    apply elem_of_parseFields in He as (j & g & _ & He).
    apply parseField_handle in He as [q' ->]. simpl. left. lia.
  - unfold parseField. destruct (negb _); [constructor|].
    destruct (decide _) as [Hk|Hk].
    + rewrite parseStruct_under, <- list_fmap_compose.
      replace (Value ∘ under ([] ++ [i])) with ((i ::.) ∘ Value) by done.
      rewrite list_fmap_compose. by apply handle_lt_cons.
    + destruct (String.eqb _ _); repeat constructor.
  - by apply IH.
Qed.

(** X4.  [parseStruct] lists the fields in the order of their
    declarations, the fields of a nested structure in the place of the
    structure: the handles are strictly increasing, hence pairwise
    distinct. *)
Theorem parseStruct_declaration_order (st : GoValue) :
  StronglySorted handle_lt (Value <$> parseStruct [] st).
Proof.
  induction st as [v Hleaf|fs IH] using GoValue_struct_ind.
  - rewrite parseStruct_leaf by done. constructor.
  - rewrite parseStruct_struct. by apply parseFields_sorted.
Qed.

(** ** The type of the target *)

Lemma TypeOf_leaf (v : GoValue) : Kind v <> reflect.Struct -> TypeOf v = TLeaf (Kind v).
Proof. by destruct v. Qed.

Lemma TypeOf_store (st : GoValue) (h : handle) (old new : GoValue) :
  load st h = Some old -> TypeOf new = TypeOf old ->
  TypeOf (store st h new) = TypeOf st.
Proof.
  revert st. induction h as [|i h IH]; intros st Hold Hty.
  - simpl in *. by injection Hold as ->.
  - destruct st as [| | | | | |fs| |]; try discriminate Hold. simpl in *.
    destruct (fs !! i) as [[sf fv]|] eqn:Hi; [|discriminate].
    f_equal. apply list_eq. intros j. rewrite !list_lookup_fmap.
    destruct (decide (j = i)) as [->|Hne].
    + rewrite list_lookup_alter_eq, Hi. simpl. f_equal. f_equal. by apply IH.
    + by rewrite list_lookup_alter_ne.
Qed.

Lemma coerce_TypeOf (old new : GoValue) (value : string) :
  coerce old value = inr new -> TypeOf new = TypeOf old.
Proof.
  intros [Ho Hn]%coerce_leaf. rewrite !TypeOf_leaf; congruence.
Qed.

Lemma setValue_TypeOf (st : GoValue) (field : handle) (value : string) :
  TypeOf (setValue field value st).2 = TypeOf st.
Proof.
  destruct (load st field) as [old|] eqn:Hold.
  - rewrite (setValue_coerce _ _ _ _ Hold).
    destruct (coerce old value) as [err|new] eqn:Hc; [done|]. simpl.
    eapply TypeOf_store; [done|]. by eapply coerce_TypeOf.
  - by rewrite setValue_invalid.
Qed.

Lemma loadFields_TypeOf (vars : gmap string string) (fields : list structField)
    (st : GoValue) :
  TypeOf (loadFields vars fields st).2 = TypeOf st.
Proof.
  revert st. induction fields as [|f fields IH]; intros st; [done|]. simpl.
  destruct (vars !! Name f) as [data|]; [|apply IH].
  pose proof (setValue_TypeOf st (Value f) data) as Hset.
  destruct (setValue (Value f) data st) as [[err|] st1]; simpl in *; [done|].
  by rewrite IH.
Qed.

(** The collector reads the type of the target only. *)
Lemma parseStruct_TypeOf (v w : GoValue) (st : handle) :
  TypeOf v = TypeOf w -> parseStruct st v = parseStruct st w.
Proof.
  revert w st. induction v as [v Hleaf|fs IH] using GoValue_struct_ind; intros w st Hty.
  - rewrite TypeOf_leaf in Hty by done.
    assert (Hw : Kind w <> reflect.Struct) by (destruct w; try destruct k; done).
    by rewrite !parseStruct_leaf.
  - destruct w as [| | | | | |gs| |]; try discriminate Hty.
    simpl in Hty. injection Hty as Hty.
    rewrite !parseStruct_struct. generalize 0%nat.
    revert gs Hty. induction fs as [|[sf fv] fs IHfs]; intros [|[sg gv] gs] Hty i;
      try discriminate Hty; [done|].
    apply Forall_cons in IH as [Hf IH]. simpl in Hty. injection Hty as -> Hfv Hty.
    simpl. rewrite (IHfs IH gs Hty). f_equal.
    unfold parseField. simpl. destruct (negb _); [done|].
    assert (Hk : Kind fv = reflect.Struct <-> Kind gv = reflect.Struct).
    { destruct fv, gv; simpl in *; try done; split; congruence. }
    destruct (decide (Kind fv = reflect.Struct)) as [Hs|Hs].
    + rewrite decide_True by (by apply Hk). by apply Hf.
    + rewrite decide_False by (by rewrite <- Hk). done.
Qed.

Lemma TypeOf_Kind (v w : GoValue) : TypeOf v = TypeOf w -> Kind v = Kind w.
Proof. destruct v, w; simpl; congruence. Qed.

Lemma load_TypeOf (v w : GoValue) (p : handle) (x : GoValue) :
  TypeOf v = TypeOf w -> load v p = Some x ->
  exists y, load w p = Some y /\ TypeOf y = TypeOf x.
Proof.
  revert v w. induction p as [|i p IH]; intros v w Hty Hx.
  - simpl in *. injection Hx as <-. by exists w.
  - destruct v as [| | | | | |fs| |]; try discriminate Hx.
    destruct w as [| | | | | |gs| |]; try discriminate Hty.
    simpl in *. injection Hty as Hty.
    apply (f_equal (fun l => l !! i)) in Hty. rewrite !list_lookup_fmap in Hty.
    destruct (fs !! i) as [[sf fv]|]; [|discriminate].
    destruct (gs !! i) as [[sg gv]|]; [|discriminate].
    simpl in Hty. injection Hty as _ Hty. by apply (IH fv).
Qed.

Lemma is_leaf_TypeOf (v w : GoValue) (p : handle) :
  TypeOf v = TypeOf w -> is_leaf v p -> is_leaf w p.
Proof.
  intros Hty (x & Hx & Hk). destruct (load_TypeOf v w p x Hty Hx) as (y & Hy & Hxy).
  exists y. split; [done|]. by rewrite (TypeOf_Kind _ _ Hxy).
Qed.

Lemma wf_fields_TypeOf (v w : GoValue) (fields : list structField) :
  TypeOf v = TypeOf w -> wf_fields v fields -> wf_fields w fields.
Proof.
  intros Hty [Hnd Hleaf]. split; [done|].
  intros d Hd. by eapply is_leaf_TypeOf, Hleaf.
Qed.

(** Two values of the same type that agree on the fields that are not
    structures are equal. *)
Lemma GoValue_ext (v w : GoValue) :
  TypeOf v = TypeOf w -> (forall p, is_leaf v p -> load w p = load v p) -> v = w.
Proof.
  revert w. induction v as [v Hleaf|fs IH] using GoValue_struct_ind; intros w Hty Hp.
  - assert (Hw : Some w = Some v) by (apply (Hp []); by exists v).
    by injection Hw.
  - destruct w as [| | | | | |gs| |]; try discriminate Hty.
    simpl in Hty. injection Hty as Hty. f_equal.
    rewrite Forall_lookup in IH. apply list_eq. intros i.
    pose proof (f_equal (fun l => l !! i) Hty) as Hi. simpl in Hi.
    rewrite !list_lookup_fmap in Hi.
    destruct (fs !! i) as [[sf fv]|] eqn:Hf; destruct (gs !! i) as [[sg gv]|] eqn:Hg;
      try discriminate Hi; [|done].
    simpl in Hi. injection Hi as -> Hfv. f_equal. f_equal.
    apply (IH i _ Hf); [done|]. intros p (x & Hx & Hk).
    assert (Hl : is_leaf (VStruct fs) (i :: p)).
    { exists x. simpl. by rewrite Hf. }
    specialize (Hp _ Hl). simpl in Hp. by rewrite Hf, Hg in Hp.
Qed.

Lemma coerce_Kind (old old' : GoValue) (value : string) :
  Kind old' = Kind old -> coerce old' value = coerce old value.
Proof.
  destruct old as [b|k n|k n|x|x|s|fs|e|k], old' as [b'|k' n'|k' n'|x'|x'|s'|fs'|e'|k'];
    try destruct k; try destruct k'; simpl; intros Hk; try discriminate Hk; reflexivity.
Qed.

(** The same step on two targets of the same type: the same outcome, and
    the same value written. *)
Lemma setValue_parallel (st st2 : GoValue) (h : handle) (data : string) :
  is_leaf st h -> TypeOf st2 = TypeOf st ->
  (exists err, setValue h data st = (Some err, st) /\ setValue h data st2 = (Some err, st2))
  \/ (exists new,
        setValue h data st = (None, store st h new)
        /\ setValue h data st2 = (None, store st2 h new)
        /\ load (store st h new) h = Some new
        /\ load (store st2 h new) h = Some new).
Proof.
  intros (old & Hold & Hk) Hty.
  destruct (load_TypeOf st st2 h old (eq_sym Hty) Hold) as (old2 & Hold2 & Hty2).
  rewrite (setValue_coerce _ _ _ _ Hold), (setValue_coerce _ _ _ _ Hold2).
  rewrite (coerce_Kind old old2) by (by apply TypeOf_Kind).
  destruct (coerce old data) as [err|new] eqn:Hc.
  - left. by exists err.
  - right. exists new. split_and!; try done; by eapply load_store.
Qed.

(** The same pass on two targets of the same type returns the same error,
    and a field holds either what the pass wrote, in both, or what it
    held, in both. *)
Lemma loadFields_parallel (vars : gmap string string) (fields : list structField)
    (st st2 : GoValue) (e : option error) (st' : GoValue) :
  wf_fields st fields -> TypeOf st2 = TypeOf st ->
  loadFields vars fields st = (e, st') ->
  exists st2',
    loadFields vars fields st2 = (e, st2')
    /\ forall p, is_leaf st p ->
       (load st' p = load st p /\ load st2' p = load st2 p) \/ load st2' p = load st' p.
Proof.
  revert st st2. induction fields as [|f fields IH]; intros st st2 Hwf Hty Hrun.
  { simpl in *. injection Hrun as <- <-. exists st2. split; [done|]. by left. }
  destruct (wf_fields_cons _ _ _ Hwf) as (Hwf' & Hleaf & Hsep).
  simpl in *. destruct (vars !! Name f) as [data|]; [|by apply IH].
  destruct (setValue_parallel st st2 (Value f) data Hleaf Hty)
    as [(err & Hs & Hs2)|(new & Hs & Hs2 & Hl & Hl2)]; rewrite Hs in Hrun; rewrite Hs2.
  { injection Hrun as <- <-. exists st2. split; [done|]. by left. }
  pose proof (wf_fields_setValue st fields (Value f) data Hwf') as Hwf1.
  pose proof (setValue_TypeOf st (Value f) data) as Hty1.
  pose proof (setValue_TypeOf st2 (Value f) data) as Hty21.
  rewrite Hs in Hwf1, Hty1. rewrite Hs2 in Hty21. simpl in *.
  destruct (IH _ (store st2 (Value f) new) Hwf1 ltac:(congruence) Hrun)
    as (st2' & Hrun2 & Hp).
  exists st2'. split; [done|]. intros p Hleafp.
  assert (Hleafp1 : is_leaf (store st (Value f) new) p).
  { eapply is_leaf_TypeOf; [|done]. done. }
  destruct (Hp p Hleafp1) as [[H1 H2]|H1]; [|by right].
  destruct (decide (p = Value f)) as [->|Hne]; [right; congruence|].
  assert (Hpre : ~ p `prefix_of` Value f).
  { intros Hpre. apply Hne. apply (leaf_prefix st); [done| |done].
    destruct Hleaf as (v & -> & _). eauto. }
  pose proof (setValue_frame st (Value f) p data Hpre) as Hf1.
  pose proof (setValue_frame st2 (Value f) p data Hpre) as Hf2.
  rewrite Hs in Hf1. rewrite Hs2 in Hf2. simpl in *. left. split; congruence.
Qed.

(** Two passes over the same fields, the second unless the first says
    stop, as [LoadFile] runs them: running them again on their result
    changes nothing. *)
Lemma two_pass_idempotent (fread eread : error + gmap string string)
    (stop : option error -> bool) (fields : list structField) (st : GoValue) :
  wf_fields st fields ->
  let pass read s :=
    match read with
    | inl err => (Some err, s)
    | inr vars => loadFields vars fields s
    end in
  let call s := let r1 := pass fread s in if stop r1.1 then r1 else pass eread r1.2 in
  call (call st).2 = call st /\ TypeOf (call st).2 = TypeOf st.
Proof.
  intros Hwf pass call.
  assert (Hpar : forall read s s2,
    wf_fields s fields -> TypeOf s2 = TypeOf s ->
    TypeOf (pass read s).2 = TypeOf s
    /\ (pass read s2).1 = (pass read s).1
    /\ forall p, is_leaf s p ->
       (load (pass read s).2 p = load s p /\ load (pass read s2).2 p = load s2 p)
       \/ load (pass read s2).2 p = load (pass read s).2 p).
  { intros read s s2 Hs Hty. unfold pass. destruct read as [err|vars]; simpl.
    - split; [done|]. split; [done|]. intros p _. by left.
    - pose proof (loadFields_TypeOf vars fields s) as Hty'.
      destruct (loadFields vars fields s) as [e s'] eqn:Hrun.
      destruct (loadFields_parallel _ _ _ _ _ _ Hs Hty Hrun) as (s2' & -> & Hp).
      done. }
  assert (Hsame : forall read s,
    wf_fields s fields ->
    TypeOf (pass read s).2 = TypeOf s /\ wf_fields (pass read s).2 fields).
  { intros read s Hs. destruct (Hpar read s s Hs eq_refl) as (Hty & _).
    split; [done|]. by eapply wf_fields_TypeOf. }
  assert (Hext : forall (r : option error * GoValue) (e : option error) (s : GoValue),
    r.1 = e -> TypeOf r.2 = TypeOf s ->
    (forall p, is_leaf s p -> load r.2 p = load s p) -> r = (e, s)).
  { intros [e' s'] e s He Hty Hp. simpl in *. subst e'. f_equal.
    symmetry. apply GoValue_ext; [done|]. exact Hp. }
  unfold call. cbv zeta.
  set (r1 := pass fread st).
  destruct (Hsame fread st Hwf) as [Hty1 Hwf1]. fold r1 in Hty1, Hwf1.
  destruct (stop r1.1) eqn:Hstop.
  - split; [|done].
    destruct (Hpar fread st r1.2 Hwf Hty1) as (_ & He & Hp). fold r1 in He, Hp.
    destruct (Hsame fread r1.2 Hwf1) as [Hty' _].
    rewrite He, Hstop. transitivity (r1.1, r1.2); [|by rewrite <- surjective_pairing].
    apply Hext; [done | done |]. intros p Hleaf.
    destruct (Hp p) as [[_ H2]|H2]; [|done|done].
    by eapply is_leaf_TypeOf.
  - set (r2 := pass eread r1.2).
    destruct (Hsame eread r1.2 Hwf1) as [Hty2 Hwf2]. fold r2 in Hty2, Hwf2.
    split; [|congruence].
    destruct (Hpar fread st r2.2 Hwf ltac:(congruence)) as (_ & He1 & Hp1).
    fold r1 in He1, Hp1. rewrite He1, Hstop.
    set (s1 := pass fread r2.2) in *.
    destruct (Hsame fread r2.2 Hwf2) as [Htys1 _]. fold s1 in Htys1.
    destruct (Hpar eread r1.2 s1.2 Hwf1 ltac:(congruence)) as (_ & He2 & Hp2).
    fold r2 in He2, Hp2.
    destruct (Hsame eread s1.2 ltac:(eapply wf_fields_TypeOf; [|exact Hwf2]; congruence))
      as [Htyf _].
    transitivity (r2.1, r2.2); [|by rewrite <- surjective_pairing].
    apply Hext; [done | congruence |]. intros p Hleaf.
    assert (Hleaf1 : is_leaf r1.2 p) by (eapply is_leaf_TypeOf; [|done]; congruence).
    assert (Hleaf0 : is_leaf st p) by (eapply is_leaf_TypeOf; [|exact Hleaf1]; congruence).
    destruct (Hp2 p Hleaf1) as [[H1 H2]|H2]; [|done].
    destruct (Hp1 p Hleaf0) as [[H3 H4]|H4]; congruence.
Qed.

Lemma LoadFile_two_pass (os : OS) (filename : string) (fs : list (StructField * GoValue)) :
  LoadFile os filename (pointer_to (VStruct fs)) =
  let pass read s :=
    match read with
    | inl err => (Some err, s)
    | inr vars => loadFields vars (parseStruct [] (VStruct fs)) s
    end in
  let call s :=
    let r1 := pass match os_Open os filename with
                   | inl err => inl err
                   | inr file => readLines (file_lines file) ∅
                   end s in
    if (fun e => bool_decide (is_Some e) && negb (IsNotExist (os_Stat os filename))) r1.1
    then r1 else pass (readLines (os_Environ os) ∅) r1.2 in
  ((call (VStruct fs)).1, pointer_to (call (VStruct fs)).2).
Proof.
  unfold LoadFile, pointer_to. rewrite loadFromFile_eq. cbv zeta beta.
  set (fields := parseStruct [] (VStruct fs)).
  set (r1 := match os_Open os filename with
             | inl err => (Some err, VStruct fs)
             | inr file =>
                 match readLines (file_lines file) ∅ with
                 | inl err => (Some err, VStruct fs)
                 | inr vars => loadFields vars fields (VStruct fs)
                 end
             end).
  assert (Hr1 : match match os_Open os filename with
                      | inl err => inl err
                      | inr file => readLines (file_lines file) ∅
                      end with
                | inl err => (Some err, VStruct fs)
                | inr vars => loadFields vars fields (VStruct fs)
                end = r1).
  { unfold r1. destruct (os_Open os filename) as [err|file]; [done|].
    by destruct (readLines (file_lines file) ∅). }
  rewrite Hr1. destruct r1 as [e1 st1]. simpl.
  destruct (bool_decide (is_Some e1) && negb (IsNotExist (os_Stat os filename))); [done|].
  rewrite loadFromEnv_eq.
  destruct (readLines (os_Environ os) ∅) as [err|vars]; [done|].
  by destruct (loadFields vars fields st1).
Qed.

Lemma LoadFile_again (os : OS) (filename : string) (fs : list (StructField * GoValue))
    (err : option error) (to' : option GoValue) :
  LoadFile os filename (pointer_to (VStruct fs)) = (err, to') ->
  exists st',
    to' = pointer_to st'
    /\ TypeOf st' = TypeOf (VStruct fs)
    /\ LoadFile os filename to' = (err, to').
Proof.
  rewrite LoadFile_two_pass.
  pose proof (two_pass_idempotent
    match os_Open os filename with
    | inl err => inl err
    | inr file => readLines (file_lines file) ∅
    end
    (readLines (os_Environ os) ∅)
    (fun e => bool_decide (is_Some e) && negb (IsNotExist (os_Stat os filename)))
    (parseStruct [] (VStruct fs)) (VStruct fs) (parseStruct_wf _)) as Hidem.
  cbv beta zeta in *.
  match type of Hidem with context [TypeOf ?x.2 = _] => set (r := x) in * end.
  destruct Hidem as [Hidem Hty]. intros [= <- <-].
  exists r.2. split; [done|]. split; [done|].
  destruct r.2 as [| | | | | |gs| |] eqn:Hr2; try discriminate Hty.
  rewrite LoadFile_two_pass. cbv beta zeta.
  rewrite (parseStruct_TypeOf _ _ [] Hty), Hidem, ?Hr2. done.
Qed.

(** X5.  A call never changes the type of its target: the structure that
    the pointer leads to has after the call, failed or not, the fields
    that were declared, of the kinds they had, and the collector finds in
    it the fields it found before. *)
Theorem run_preserves_type (os : OS) (c : call) (st : GoValue) :
  exists st',
    (run os c (pointer_to st)).2 = pointer_to st'
    /\ TypeOf st' = TypeOf st
    /\ parseStruct [] st' = parseStruct [] st.
Proof.
  destruct (run os c (pointer_to st)) as [err to'] eqn:Hrun. simpl.
  rewrite run_eq in Hrun.
  assert (Hsame : (err, to') = (err, pointer_to st) ->
    exists st', to' = pointer_to st' /\ TypeOf st' = TypeOf st
                /\ parseStruct [] st' = parseStruct [] st).
  { intros [= ->]. by exists st. }
  destruct (call_file os c) as [e|filename]; [by apply Hsame; injection Hrun as <- <-|].
  destruct st as [b|k n|k n|x|x|s|fs|e|k];
    try (apply Hsame; simpl in Hrun; by injection Hrun as <- <-).
  apply LoadFile_again in Hrun as (st' & -> & Hty & _).
  exists st'. split; [done|]. split; [done|]. by apply parseStruct_TypeOf.
Qed.

(** X6.  A call is idempotent: the same call on the target as the first
    call left it, with the file and the environment as they were, returns
    the same error and changes nothing more. *)
Theorem run_idempotent (os : OS) (c : call) (to : option GoValue) :
  run os c (run os c to).2 = run os c to.
Proof.
  destruct (run os c to) as [err to'] eqn:Hrun. simpl. revert Hrun.
  rewrite !run_eq. destruct (call_file os c) as [e|filename]; [by intros [= <- <-]|].
  destruct to as [[b|k n|k n|x|x|s|fs0|[[b|k n|k n|x|x|s|fs|e|k]|]|k]|];
    try (by intros [= <- <-]).
  by intros (st' & _ & _ & Hagain)%LoadFile_again.
Qed.

(** ** Further properties of [setValue] and of a pass *)

(** X7.  [setValue] changes at most the field it is given: it keeps the
    type of the target, leaves alone every field that is not on the way to
    that field, and changes nothing at all when it returns an error. *)
Theorem setValue_one_field (st : GoValue) (field : handle) (value : string) :
  (is_Some (setValue field value st).1 -> (setValue field value st).2 = st)
  /\ TypeOf (setValue field value st).2 = TypeOf st
  /\ forall p, ~ p `prefix_of` field -> load (setValue field value st).2 p = load st p.
Proof.
  split_and!.
  - destruct (setValue field value st) as [[err|] st'] eqn:Hset; simpl.
    + intros _. by eapply setValue_error.
    + by intros [? ?].
  - apply setValue_TypeOf.
  - intros p Hp. by apply setValue_frame.
Qed.

(** X8.  The kinds that [setValue] converts to are [bool], the five signed
    and the five unsigned integer kinds, the two floating-point kinds and
    [string].  On a field of any other kind ([uintptr], complex numbers,
    pointers, slices, maps, structures, ...), and on those only, it
    returns the error of the unsupported kind, whatever the string. *)
Theorem setValue_supported_kinds (st : GoValue) (field : handle) (value : string) :
  (exists k, setValue field value st = (Some (FieldNotSupported k), st))
  <-> supported (Kind_at st field) = false.
Proof.
  unfold Kind_at. destruct (load st field) as [old|] eqn:Hold.
  - rewrite (setValue_coerce _ _ _ _ Hold).
    destruct old as [b|k n|k n|x|x|s|fs|e|k]; try destruct k; cbn;
      try destruct (ParseBool value); try destruct (ParseInt value 10 64);
      try destruct (ParseUint value 10 64); try destruct (ParseFloat64 value);
      (split; [intros [k' Hk']; try discriminate Hk'; done | intros Hs; try discriminate Hs; eauto]).
  - rewrite setValue_invalid by done. split; [done | eauto].
Qed.

(** X9.  A numeral whose value fits the width of an integer field is
    stored as it is. *)
Theorem integer_in_range_exact (st : GoValue) (field : handle) (value : string)
    (old : GoValue) :
  load st field = Some old ->
  match old with
  | VInt k _ =>
      forall i, signed_decimal value = Some i ->
      0 < int_bits k <= 64 ->
      - 2 ^ (int_bits k - 1) <= i < 2 ^ (int_bits k - 1) ->
      setValue field value st = (None, store st field (VInt k i))
  | VUint k _ =>
      forall u, unsigned_decimal value = Some u ->
      k <> KUintptr ->
      0 <= uint_bits k <= 64 ->
      u < 2 ^ uint_bits k ->
      setValue field value st = (None, store st field (VUint k u))
  | _ => True
  end.
Proof.
  intros Hold. rewrite (setValue_coerce _ _ _ _ Hold).
  destruct old as [b|k n|k n|x|x|s|fs|e|k]; try done.
  - intros i Hi Hbits Hrange. simpl. rewrite (ParseInt_digits _ _ Hi).
    assert (Hle : 2 ^ (int_bits k - 1) <= 2 ^ 63) by (apply Z.pow_le_mono_r; lia).
    rewrite (proj2 (Z.leb_le _ _)), (proj2 (Z.leb_le _ _)) by lia. simpl.
    by rewrite wrap_signed_fits by lia.
  - intros u Hu Hptr Hbits Hrange.
    pose proof (unsigned_decimal_nonneg _ _ Hu) as Hge.
    assert (Hle : 2 ^ uint_bits k <= 2 ^ 64) by (apply Z.pow_le_mono_r; lia).
    assert (Hcoerce : coerce (VUint k n) value =
                      match ParseUint value 10 64 with
                      | inl err => inl (NumError "ParseUint" value err)
                      | inr u => inr (VUint k (wrap_unsigned (uint_bits k) u))
                      end) by (by destruct k).
    rewrite Hcoerce, (ParseUint_digits _ _ Hu). unfold maxUint64.
    rewrite (proj2 (Z.leb_le _ _)) by lia.
    by rewrite wrap_unsigned_fits by lia.
Qed.

(** X10.  A pass that returns no error has loaded every field: each field
    whose variable the source holds has the coerced value of the variable,
    also when several fields name the same variable, and each other field
    holds what it held. *)
Theorem pass_loads_every_field {T : Type} `{iterable T} (source : T)
    (vars : gmap string string) (fields : list structField) (st st' : GoValue) :
  wf_fields st fields ->
  readSource source = inr vars ->
  loadFromSource source fields st = (None, st') ->
  forall d, d ∈ fields -> loaded vars st st' d.
Proof.
  intros Hwf Hread. unfold loadFromSource. rewrite Hread.
  by apply loadFields_loaded.
Qed.

Lemma loadFields_none (vars : gmap string string) (fields : list structField)
    (st : GoValue) :
  (forall d, d ∈ fields -> vars !! Name d = None) ->
  loadFields vars fields st = (None, st).
Proof.
  induction fields as [|f fields IH]; intros Hnone; [done|]. simpl.
  rewrite (Hnone f) by (by left). apply IH. intros d Hd. apply Hnone. by right.
Qed.

Lemma readLines_assigned (lines : list string) (vars : gmap string string)
    (key value : string) :
  readLines lines ∅ = inr vars -> vars !! key = Some value ->
  exists raw, raw ∈ lines /\ assigns raw key value.
Proof.
  intros Hread Hv.
  apply (readLines_lookup _ _ _ Hread) in Hv as [(before & raw & after & -> & Ha & _)|[_ Hv]];
    [|done].
  exists raw. split; [|done]. apply elem_of_app. right. by left.
Qed.

(** A pass over items none of which assigns to a field changes nothing. *)
Lemma pass_unassigned (lines : list string) (fields : list structField) (st : GoValue) :
  (forall d raw value, d ∈ fields -> raw ∈ lines -> ~ assigns raw (Name d) value) ->
  match readLines lines ∅ with
  | inl err => st
  | inr vars => (loadFields vars fields st).2
  end = st.
Proof.
  intros Hno. destruct (readLines lines ∅) as [err|vars] eqn:Hread; [done|].
  rewrite loadFields_none; [done|]. intros d Hd.
  destruct (vars !! Name d) as [value|] eqn:Hv; [|done].
  destruct (readLines_assigned _ _ _ _ Hread Hv) as (raw & Hraw & Ha).
  by destruct (Hno d raw value).
Qed.

(** X11.  When no item of the environment or of the file assigns to a
    variable that a field names, the call leaves the target exactly as it
    was, whether it returns an error or not. *)
Theorem no_assignment_no_change (os : OS) (c : call) (fs : list (StructField * GoValue)) :
  (forall d raw value,
     d ∈ parseStruct [] (VStruct fs) -> assigns raw (Name d) value ->
     (raw ∉ os_Environ os)
     /\ forall filename file,
          call_file os c = inr filename -> os_Open os filename = inr file ->
          raw ∉ file_lines file) ->
  (run os c (pointer_to (VStruct fs))).2 = pointer_to (VStruct fs).
Proof.
  intros Hno. rewrite run_eq.
  destruct (call_file os c) as [e|filename] eqn:Hcall; [done|].
  rewrite LoadFile_two_pass. cbv beta zeta. cbn [snd].
  set (st := VStruct fs) in *. set (fields := parseStruct [] st) in *.
  assert (Hfile : match match os_Open os filename with
                        | inl err => inl err
                        | inr file => readLines (file_lines file) ∅
                        end with
                  | inl err => (Some err, st)
                  | inr vars => loadFields vars fields st
                  end.2 = st).
  { destruct (os_Open os filename) as [err|file] eqn:Hopen; [done|].
    pose proof (pass_unassigned (file_lines file) fields st) as Hp.
    destruct (readLines (file_lines file) ∅) as [err|vars]; [done|].
    apply Hp. intros d raw value Hd Hraw Ha.
    by destruct (proj2 (Hno d raw value Hd Ha) filename file). }
  assert (Henv : match readLines (os_Environ os) ∅ with
                 | inl err => (Some err, st)
                 | inr vars => loadFields vars fields st
                 end.2 = st).
  { pose proof (pass_unassigned (os_Environ os) fields st) as Hp.
    destruct (readLines (os_Environ os) ∅) as [err|vars]; [done|].
    apply Hp. intros d raw value Hd Hraw Ha.
    by destruct (proj1 (Hno d raw value Hd Ha)). }
  destruct (_ && _); rewrite ?Hfile, ?Henv; done.
Qed.

(** ** Further properties of the file pass *)

(** X12.  A file that does not exist is read as an empty file: the call
    is the call on a system where the file exists and has no line. *)
Theorem missing_file_as_empty (os os' : OS) (filename : string) (to : option GoValue)
    (err : error) :
  os_Open os filename = inl err ->
  IsNotExist (os_Stat os filename) = true ->
  os_Open os' filename = inr {| file_lines := []; file_err := None |} ->
  os_Environ os' = os_Environ os ->
  LoadFile os filename to = LoadFile os' filename to.
Proof.
  intros Hopen Hstat Hopen' Henv.
  destruct to as [[b|k n|k n|x|x|s|fs0|[[b|k n|k n|x|x|s|fs|e|k]|]|k]|]; try reflexivity.
  change (Some (VPtr (Some (VStruct fs)))) with (pointer_to (VStruct fs)).
  rewrite !LoadFile_two_pass. cbv beta zeta.
  rewrite Hopen, Hopen', Hstat, Henv. cbn [file_lines readLines].
  rewrite loadFields_none by (intros d _; apply lookup_empty).
  cbn [fst snd negb]. rewrite andb_false_r.
  by rewrite bool_decide_eq_false_2 by (by intros [? ?]).
Qed.

(** X13.  A file that cannot be opened, for another reason than not to
    exist, or that has a malformed line ends the call with that error:
    no field is written, whatever the lines before the malformed one
    assign, and the environment plays no part. *)
Theorem file_error_returned (os : OS) (filename : string)
    (fs : list (StructField * GoValue)) (err : error) :
  IsNotExist (os_Stat os filename) = false ->
  os_Open os filename = inl err
  \/ (exists file before raw after,
        os_Open os filename = inr file
        /\ file_lines file = before ++ raw :: after
        /\ (forall r, r ∈ before -> ~ malformed r)
        /\ malformed raw
        /\ err = SeparatorMissing (TrimSpace raw)) ->
  LoadFile os filename (pointer_to (VStruct fs)) = (Some err, pointer_to (VStruct fs)).
Proof.
  intros Hstat [Hopen|(file & before & raw & after & Hopen & Hlines & Hb & Hm & ->)].
  - by apply LoadFile_open_error.
  - eapply LoadFile_malformed_file; [done | done |].
    rewrite readSource_scannerIter. apply readLines_error.
    by exists before, raw, after.
Qed.

(** ** Further properties of the names and values read *)

Lemma TrimLeft_rev_fixed (s : string) : TrimLeft_rev (TrimLeft_rev s) = TrimLeft_rev s.
Proof.
  induction s as [s IH] using string_length_ind.
  destruct s as [|a [|b [|c r]]].
  - done.
  - simpl. destruct (asciiSpace a) eqn:Ha; [done|]. simpl. by rewrite Ha.
  - pose proof (IH (String b "") ltac:(simpl; lia)) as H1.
    simpl in *. destruct (asciiSpace a) eqn:Ha; [done|].
    destruct (space2 b a) eqn:Hb; [done|]. simpl. by rewrite Ha, Hb.
  - pose proof (IH (String b (String c r)) ltac:(simpl; lia)) as H1.
    pose proof (IH (String c r) ltac:(simpl; lia)) as H2.
    pose proof (IH r ltac:(simpl; lia)) as H3.
    simpl in *. destruct (asciiSpace a) eqn:Ha; [done|].
    destruct (space2 b a) eqn:Hb; [done|].
    destruct (space3 c b a) eqn:Hc; [done|]. simpl. by rewrite Ha, Hb, Hc.
Qed.

(** [TrimSpace] leaves nothing to trim. *)
Lemma TrimSpace_fixed (s : string) : TrimSpace (TrimSpace s) = TrimSpace s.
Proof.
  unfold TrimSpace at 1. rewrite TrimLeft_fixed by apply TrimSpace_no_leading_space.
  unfold TrimSpace, TrimRight. by rewrite rev_involutive, TrimLeft_rev_fixed.
Qed.

Lemma has_eq_TrimSpace (s : string) : has_eq (TrimSpace s) -> has_eq s.
Proof.
  intros (a & b & Hab). destruct (TrimLeft_suffix s) as [y Hy].
  destruct (TrimRight_prefix (TrimLeft s)) as [t Ht].
  fold (TrimSpace s) in Ht. rewrite Hab in Ht. rewrite Ht in Hy.
  exists (y +:+ a), (b +:+ t). rewrite Hy, !append_assoc. done.
Qed.

(** What an item assigns: a name and a value with no white space around
    them, the name without ['='] and not beginning with ['#']. *)
Lemma assigns_trimmed (raw key value : string) :
  assigns raw key value ->
  TrimSpace key = key /\ TrimSpace value = value
  /\ ~ has_eq key /\ HasPrefix_hash key = false.
Proof.
  intros Ha. pose proof (assigns_no_hash _ _ _ Ha) as Hh.
  destruct Ha as (_ & _ & k & v & _ & Hk & -> & ->).
  split_and!; try apply TrimSpace_fixed; try done.
  by intros ?%has_eq_TrimSpace.
Qed.

(** X14.  The names and the values in the map that [readSource] returns
    have no white space around them; a name has no ['='] in it and does
    not begin with ['#']. *)
Theorem readSource_entries_trimmed {T : Type} `{iterable T} (source : T)
    (vars : gmap string string) (key value : string) :
  readSource source = inr vars ->
  vars !! key = Some value ->
  TrimSpace key = key /\ TrimSpace value = value
  /\ ~ has_eq key /\ HasPrefix_hash key = false.
Proof.
  unfold readSource.
  rewrite (readSource_loop_items (pending source) source ∅) by done.
  intros Hread Hv. destruct (readLines_assigned _ _ _ _ Hread Hv) as (raw & _ & Ha).
  by eapply assigns_trimmed.
Qed.

(** X15.  A field whose name has white space around it or an ['='] in it
    is assigned by no item of any source, and holds after every call what
    it held before. *)
Theorem untrimmed_key_never_bound (os : OS) (c : call) (fs : list (StructField * GoValue))
    (d : structField) :
  d ∈ parseStruct [] (VStruct fs) ->
  TrimSpace (Name d) <> Name d \/ has_eq (Name d) ->
  (forall raw value, ~ assigns raw (Name d) value)
  /\ exists st',
       (run os c (pointer_to (VStruct fs))).2 = pointer_to st'
       /\ load st' (Value d) = load (VStruct fs) (Value d).
Proof.
  intros Hd Hbad.
  assert (Hno : forall raw value, ~ assigns raw (Name d) value).
  { intros raw value (Ht & _ & He & _)%assigns_trimmed. by destruct Hbad. }
  split; [done|].
  destruct (run os c (pointer_to (VStruct fs))) as [err to'] eqn:Hrun. simpl.
  destruct (run_frame (fun k => exists raw value, assigns raw k value)
              os c fs (Value d) err to') as (st' & -> & Hl & _); [| |done|by exists st'].
  - intros lines vars k Hread [v Hv].
    destruct (readLines_assigned _ _ _ _ Hread Hv) as (raw & _ & Ha). by exists raw, v.
  - intros d' Hd' (raw & value & Ha) Hpre.
    pose proof (proj1 (elem_of_parseStruct _ _ _) Hd) as Hc.
    pose proof (proj1 (elem_of_parseStruct _ _ _) Hd') as Hc'.
    apply (leaf_prefix (VStruct fs)) in Hpre; [|by apply collects_is_leaf|].
    + rewrite <- (collects_name _ _ _ Hc Hc' Hpre) in Ha. by destruct (Hno raw value).
    + destruct (collects_is_leaf _ _ Hc') as (v & -> & _). eauto.
Qed.

(** ** When a call succeeds *)

(** A pass over well-formed fields returns no error exactly when every
    variable that the source holds for a field coerces to the type of
    the field. *)
Lemma loadFields_succeeds (vars : gmap string string) (fields : list structField)
    (st : GoValue) :
  wf_fields st fields ->
  (loadFields vars fields st).1 = None <->
  forall d old data,
    d ∈ fields -> load st (Value d) = Some old -> vars !! Name d = Some data ->
    exists new, coerce old data = inr new.
Proof.
  intros Hwf. destruct (loadFields vars fields st) as [[err|] st'] eqn:Hrun; simpl.
  - split; [done|]. intros Hall.
    apply loadFields_stops in Hrun as (pre & d & post & data & -> & Hpre & Hd & Hset).
    destruct (wf_fields_app _ _ _ Hwf) as (Hwfa & Hwfb & Hsep).
    destruct (proj2 Hwfb d) as (old & Hold & _); [by left|].
    assert (Hold' : load st' (Value d) = Some old).
    { pose proof (proj1 (loadFields_frame vars pre st (Value d)
        (fun x Hx _ => Hsep x d Hx ltac:(by left)))) as Hfr.
      rewrite Hpre in Hfr. simpl in Hfr. congruence. }
    rewrite (setValue_coerce _ _ _ _ Hold') in Hset.
    destruct (Hall d old data) as [new Hnew]; [|done|done|].
    + apply elem_of_app. right. by left.
    + rewrite Hnew in Hset. done.
  - split; [|done]. intros _ d old data Hd Hold Hdata.
    destruct (loadFields_loaded _ _ _ _ Hwf Hrun d Hd) as (old' & Hold' & Hres).
    rewrite Hdata in Hres. destruct Hres as (new & Hnew & _).
    exists new. congruence.
Qed.

(** The same, read on a target of the same type. *)
Lemma loadFields_succeeds_TypeOf (vars : gmap string string) (fields : list structField)
    (st st1 : GoValue) :
  wf_fields st fields -> TypeOf st1 = TypeOf st ->
  (loadFields vars fields st1).1 = None <->
  forall d old data,
    d ∈ fields -> load st (Value d) = Some old -> vars !! Name d = Some data ->
    exists new, coerce old data = inr new.
Proof.
  intros Hwf Hty.
  rewrite loadFields_succeeds by (by eapply wf_fields_TypeOf).
  split; intros Hall d old data Hd Hold Hdata.
  - destruct (load_TypeOf st st1 (Value d) old (eq_sym Hty) Hold) as (old1 & Hold1 & Hty1).
    rewrite <- (coerce_Kind old old1) by (by apply TypeOf_Kind). by eapply Hall.
  - destruct (load_TypeOf st1 st (Value d) old Hty Hold) as (old0 & Hold0 & Hty0).
    rewrite <- (coerce_Kind old old0) by (by apply TypeOf_Kind). by eapply Hall.
Qed.

Lemma LoadFile_succeeds (os : OS) (filename : string) (fs : list (StructField * GoValue)) :
  stat_consistent os ->
  (LoadFile os filename (pointer_to (VStruct fs))).1 = None <->
  match os_Open os filename with
  | inl _ => IsNotExist (os_Stat os filename) = true
  | inr file => exists vars, readSource {| Scanner_of := NewScanner file |} = inr vars
  end
  /\ exists envVars,
       readSource (newArrayIter (os_Environ os)) = inr envVars
       /\ forall d old data,
            d ∈ parseStruct [] (VStruct fs) ->
            load (VStruct fs) (Value d) = Some old ->
            file_vars os filename !! Name d = Some data \/ envVars !! Name d = Some data ->
            exists new, coerce old data = inr new.
Proof.
  intros Hfs. unfold file_vars.
  rewrite LoadFile_two_pass. cbv beta zeta. cbn [fst].
  set (st := VStruct fs). set (fields := parseStruct [] st).
  pose proof (parseStruct_wf st) as Hwf. fold fields in Hwf.
  rewrite readSource_arrayIter.
  destruct (os_Open os filename) as [e|file] eqn:Hopen.
  - cbn [fst snd].
    destruct (IsNotExist (os_Stat os filename)) eqn:Hstat; simpl.
    + destruct (readLines (os_Environ os) ∅) as [e2|envVars] eqn:Henv; simpl.
      { split; [done|]. by intros (_ & ? & ? & _). }
      rewrite (loadFields_succeeds _ _ _ Hwf). split.
      * intros Hall. split; [done|]. exists envVars. split; [done|].
        intros d old data Hd Hold [Hdata|Hdata]; [by rewrite lookup_empty in Hdata|].
        by eapply Hall.
      * intros (_ & ? & [= <-] & Hall) d old data Hd Hold Hdata.
        eapply Hall; eauto.
    + split; [done|]. by intros (? & _).
  - assert (Hstat : IsNotExist (os_Stat os filename) = false).
    { destruct (IsNotExist (os_Stat os filename)) eqn:Hst; [|done].
      destruct (Hfs filename Hst) as [err Herr]. congruence. }
    rewrite Hstat, readSource_scannerIter.
    destruct (readLines (file_lines file) ∅) as [e1|fileVars] eqn:Hfile; simpl.
    { split; [done|]. by intros ([? ?] & _). }
    pose proof (loadFields_succeeds fileVars fields st Hwf) as Hsucc1.
    pose proof (loadFields_TypeOf fileVars fields st) as Hty1.
    destruct (loadFields fileVars fields st) as [[e1|] st1] eqn:Hrun1; simpl in *.
    + split; [done|]. intros (_ & ? & _ & Hall).
      assert (Hnone : Some e1 = None); [|done].
      apply Hsucc1. intros d old data Hd Hold Hdata. eapply Hall; eauto.
    + destruct (readLines (os_Environ os) ∅) as [e2|envVars] eqn:Henv; simpl.
      { split; [done|]. by intros (_ & ? & ? & _). }
      rewrite (loadFields_succeeds_TypeOf envVars fields st st1 Hwf Hty1). split.
      * intros Hall. split; [eauto|]. exists envVars. split; [done|].
        intros d old data Hd Hold [Hdata|Hdata]; [|by eapply Hall].
        by eapply (proj1 Hsucc1 eq_refl).
      * intros (_ & ? & [= <-] & Hall) d old data Hd Hold Hdata.
        eapply Hall; eauto.
Qed.

(** X16.  On a pointer to a structure, [Load] and [LoadFile] return no
    error exactly when the file is missing or is read to its end without a
    malformed line, the environment has no malformed entry, and every
    value that the file or the environment holds for a field coerces to
    the type of the field: a value of the file that does not coerce fails
    the call also when the environment has another value for the field. *)
Theorem run_succeeds_iff (os : OS) (c : call) (fs : list (StructField * GoValue)) :
  stat_consistent os ->
  (run os c (pointer_to (VStruct fs))).1 = None <->
  exists filename envVars,
    call_file os c = inr filename
    /\ match os_Open os filename with
       | inl _ => IsNotExist (os_Stat os filename) = true
       | inr file => exists vars, readSource {| Scanner_of := NewScanner file |} = inr vars
       end
    /\ readSource (newArrayIter (os_Environ os)) = inr envVars
    /\ forall d old data,
         d ∈ parseStruct [] (VStruct fs) ->
         load (VStruct fs) (Value d) = Some old ->
         file_vars os filename !! Name d = Some data \/ envVars !! Name d = Some data ->
         exists new, coerce old data = inr new.
Proof.
  intros Hfs. rewrite run_eq.
  destruct (call_file os c) as [e|filename].
  { simpl. split; [done|]. by intros (? & ? & ? & _). }
  cbv iota beta. rewrite (LoadFile_succeeds _ _ _ Hfs). split.
  - intros (Hfile & envVars & Henv & Hall). by exists filename, envVars.
  - intros (? & envVars & [= <-] & Hfile & Henv & Hall). split; [done|]. by exists envVars.
Qed.

(** ** The two passes as one *)

(** A field that is not a structure and that the collector did not collect
    is on the way to no collected field. *)
Lemma leaf_off_fields (st : GoValue) (fields : list structField) (p : handle) :
  wf_fields st fields -> is_leaf st p -> p ∉ Value <$> fields ->
  forall d, d ∈ fields -> ~ p `prefix_of` Value d.
Proof.
  intros [_ Hleaf] Hp Hnotin d Hd Hpre. apply Hnotin.
  apply (leaf_prefix st) in Hpre as ->; [by apply list_elem_of_fmap_2|done|].
  destruct (Hleaf d Hd) as (v & -> & _). eauto.
Qed.

(** A pass with the variables of the file, then a pass with those of the
    environment, both without error, are one pass with the variables of
    the file overridden by those of the environment. *)
Lemma loadFields_union (fileVars envVars : gmap string string) (fields : list structField)
    (st st1 st2 : GoValue) :
  wf_fields st fields ->
  loadFields fileVars fields st = (None, st1) ->
  loadFields envVars fields st1 = (None, st2) ->
  loadFields (envVars ∪ fileVars) fields st = (None, st2).
Proof.
  intros Hwf Hrun1 Hrun2.
  pose proof (loadFields_TypeOf fileVars fields st) as Hty1. rewrite Hrun1 in Hty1.
  pose proof (loadFields_TypeOf envVars fields st1) as Hty2. rewrite Hrun2 in Hty2.
  pose proof (loadFields_TypeOf (envVars ∪ fileVars) fields st) as Htyu.
  simpl in *.
  assert (Hwf1 : wf_fields st1 fields) by (by apply (wf_fields_TypeOf st)).
  pose proof (proj1 (loadFields_succeeds fileVars fields st Hwf)) as Hs1.
  rewrite Hrun1 in Hs1. specialize (Hs1 eq_refl).
  pose proof (proj1 (loadFields_succeeds_TypeOf envVars fields st st1 Hwf Hty1)) as Hs2.
  rewrite Hrun2 in Hs2. specialize (Hs2 eq_refl).
  assert (Hsu : (loadFields (envVars ∪ fileVars) fields st).1 = None).
  { apply loadFields_succeeds; [done|]. intros d old data Hd Hold Hdata.
    apply lookup_union_Some_raw in Hdata as [Hdata|[_ Hdata]]; eauto. }
  destruct (loadFields (envVars ∪ fileVars) fields st) as [eu su] eqn:Hrunu.
  simpl in *. subst eu. f_equal.
  apply GoValue_ext; [congruence|]. intros p Hleaf.
  assert (Hleaf0 : is_leaf st p) by (by eapply is_leaf_TypeOf).
  destruct (decide (p ∈ Value <$> fields)) as [(d & -> & Hd)%list_elem_of_fmap|Hoff].
  - destruct (loadFields_loaded _ _ _ _ Hwf Hrunu d Hd) as (old & Hold & Hu).
    destruct (loaded_twice fileVars envVars st st1 st2 d
                (loadFields_loaded _ _ _ _ Hwf Hrun1 d Hd)
                (loadFields_loaded _ _ _ _ Hwf1 Hrun2 d Hd)) as (old' & Hold' & H2).
    assert (old' = old) as -> by congruence.
    destruct (envVars !! Name d) as [edata|] eqn:He.
    + rewrite (lookup_union_Some_l _ _ _ _ He) in Hu.
      destruct Hu as (new & Hn & ->), H2 as (new' & Hn' & ->). congruence.
    + rewrite (lookup_union_r _ _ _ He) in Hu.
      destruct (fileVars !! Name d) as [fdata|].
      * destruct Hu as (new & Hn & ->), H2 as (new' & Hn' & ->). congruence.
      * congruence.
  - pose proof (leaf_off_fields st fields p Hwf Hleaf0 Hoff) as Hsep.
    pose proof (proj1 (loadFields_frame (envVars ∪ fileVars) fields st p
                         (fun d Hd _ => Hsep d Hd))) as Hfu.
    pose proof (proj1 (loadFields_frame fileVars fields st p
                         (fun d Hd _ => Hsep d Hd))) as Hf1.
    pose proof (proj1 (loadFields_frame envVars fields st1 p
                         (fun d Hd _ => Hsep d Hd))) as Hf2.
    rewrite Hrunu in Hfu. rewrite Hrun1 in Hf1. rewrite Hrun2 in Hf2. simpl in *.
    congruence.
Qed.

(** X17.  A call that returns no error is one pass over the fields with
    the variables of the file overridden by those of the environment: the
    target it leaves is the target of that pass. *)
Theorem run_as_one_pass (os : OS) (c : call) (fs : list (StructField * GoValue))
    (to' : option GoValue) :
  stat_consistent os ->
  run os c (pointer_to (VStruct fs)) = (None, to') ->
  exists filename envVars st',
    call_file os c = inr filename
    /\ readSource (newArrayIter (os_Environ os)) = inr envVars
    /\ to' = pointer_to st'
    /\ loadFields (envVars ∪ file_vars os filename) (parseStruct [] (VStruct fs)) (VStruct fs)
       = (None, st').
Proof.
  intros Hfs. rewrite run_eq. unfold file_vars.
  destruct (call_file os c) as [e|filename]; [done|].
  rewrite LoadFile_two_pass. cbv beta zeta.
  set (st := VStruct fs). set (fields := parseStruct [] st).
  pose proof (parseStruct_wf st) as Hwf. fold fields in Hwf.
  rewrite readSource_arrayIter.
  assert (Hfile : exists fileVars st1,
    match match os_Open os filename with
          | inl err => inl err
          | inr file => readLines (file_lines file) ∅
          end with
    | inl err => (Some err, st)
    | inr vars => loadFields vars fields st
    end.2 = st1
    /\ (bool_decide (is_Some
          match match os_Open os filename with
                | inl err => inl err
                | inr file => readLines (file_lines file) ∅
                end with
          | inl err => (Some err, st)
          | inr vars => loadFields vars fields st
          end.1) && negb (IsNotExist (os_Stat os filename)) = false ->
        match os_Open os filename with
        | inl _ => ∅
        | inr file =>
            match readSource {| Scanner_of := NewScanner file |} with
            | inl _ => ∅
            | inr vars => vars
            end
        end = fileVars
        /\ loadFields fileVars fields st = (None, st1))).
  { destruct (os_Open os filename) as [e|file] eqn:Hopen.
    - exists ∅, st. split; [done|]. intros _. split; [done|].
      apply loadFields_none. intros d _. apply lookup_empty.
    - assert (Hstat : IsNotExist (os_Stat os filename) = false).
      { destruct (IsNotExist (os_Stat os filename)) eqn:Hst; [|done].
        destruct (Hfs filename Hst) as [err Herr]. congruence. }
      rewrite Hstat, readSource_scannerIter.
      destruct (readLines (file_lines file) ∅) as [e1|fileVars].
      { exists ∅, st. split; [done|]. done. }
      destruct (loadFields fileVars fields st) as [[e1|] st1] eqn:Hrun1.
      + exists fileVars, st1. split; [done|]. done.
      + exists fileVars, st1. done. }
  destruct Hfile as (fileVars & st1 & Hst1 & Hfile).
  destruct (bool_decide _ && negb _) eqn:Hstop.
  { intros [= He _]. apply andb_true_iff in Hstop as [Hsome _].
    apply bool_decide_eq_true in Hsome as [? Hsome]. congruence. }
  destruct (Hfile eq_refl) as [<- Hrun1]. rewrite Hst1.
  destruct (readLines (os_Environ os) ∅) as [e2|envVars]; [done|].
  destruct (loadFields envVars fields st1) as [e2 st2] eqn:Hrun2. simpl.
  intros [= -> <-]. exists filename, envVars, st2. split_and!; try done.
  by eapply loadFields_union.
Qed.

(** X18.  A field that has no name for a variable, its tag being without
    the key [env] or giving it the empty value, is not changed by any
    call. *)
Theorem untagged_untouched (os : OS) (c : call) (fs : list (StructField * GoValue))
    (p : handle) (sf : StructField) (fv : GoValue) :
  field_at (VStruct fs) p = Some (sf, fv) ->
  Kind fv <> reflect.Struct ->
  Tag_Get (Tag sf) "env" = "" ->
  exists st',
    (run os c (pointer_to (VStruct fs))).2 = pointer_to st'
    /\ field_at st' p = Some (sf, fv).
Proof.
  intros Hf Hk Htag.
  destruct (run os c (pointer_to (VStruct fs))) as [err to'] eqn:Hrun. simpl.
  destruct (run_frame (fun _ => True) os c fs p err to') as (st' & -> & _ & Hfa);
    [done| |done|].
  - intros d (q & sf' & fv' & Hv & _ & Hf' & _ & Hn & Hne)%elem_of_parseStruct _ Hpre.
    simpl in Hv. subst q.
    apply (leaf_prefix (VStruct fs)) in Hpre.
    + rewrite <- Hpre, Hf in Hf'. injection Hf' as <- <-. congruence.
    + exists fv. split; [by eapply field_at_load | done].
    + erewrite field_at_load by done. eauto.
  - exists st'. by rewrite Hfa.
Qed.

End Properties.

Section Examples.
#[local] Existing Instance decimal_platform.

(** ** Examples of the library functions *)

Example TrimSpace_ex : TrimSpace " INT_FIELD = 4 " = "INT_FIELD = 4".
Proof. reflexivity. Qed.

Example SplitN_ex : SplitN_eq_2 "A = b=c" = ["A "; " b=c"].
Proof. reflexivity. Qed.

Example ParseInt_ex :
  ParseInt "-8" 10 64 = inr (-8)
  /\ ParseInt "+9223372036854775807" 10 64 = inr 9223372036854775807
  /\ ParseInt "9223372036854775808" 10 64 = inl ErrRange
  /\ ParseInt "-9223372036854775808" 10 64 = inr (-9223372036854775808)
  /\ ParseInt "4_2" 10 64 = inl ErrSyntax
  /\ ParseInt "" 10 64 = inl ErrSyntax
  /\ ParseInt "-" 10 64 = inl ErrSyntax
  /\ ParseInt "0x10" 10 64 = inl ErrSyntax
  /\ ParseUint "18446744073709551615" 10 64 = inr 18446744073709551615
  /\ ParseUint "18446744073709551616" 10 64 = inl ErrRange
  /\ ParseUint "-1" 10 64 = inl ErrSyntax
  /\ ParseBool "True" = inr true /\ ParseBool "yes" = inl ErrSyntax.
Proof. vm_compute. repeat split. Qed.

(** ** The tests of the package *)

Example TestFieldVisibility :
  Load (system setupEnv None) (pointer_to (Visibility ""))
  = (None, pointer_to (Visibility "32")).
Proof. reflexivity. Qed.

Example TestOverrideFromEnv :
  Load (system setupEnv None) (pointer_to Cfg_zero)
  = (None, pointer_to (Cfg true (-8) 7 f16_5 "32")).
Proof. reflexivity. Qed.

Example TestOverrideFromFile :
  LoadFile (system [] (Some (whole setupEnvFile))) "/work/.env" (pointer_to Cfg_zero)
  = (None, pointer_to (Cfg true 4 11 (S754_zero false) "ABC")).
Proof. reflexivity. Qed.

Example TestOverrideAll :
  LoadFile (system setupEnv (Some (whole setupEnvFile))) "/work/.env" (pointer_to Cfg_zero)
  = (None, pointer_to (Cfg true (-8) 7 f16_5 "32")).
Proof. reflexivity. Qed.

Example TestNestedStruct :
  Load (system setupEnv None) (pointer_to (Nested false 0))
  = (None, pointer_to (Nested true (-8))).
Proof. reflexivity. Qed.

Lemma system_consistent (environ : list string) (dotenv : option File) :
  stat_consistent (system environ dotenv).
Proof.
  intros name. unfold system. simpl. destruct dotenv as [file|]; [|by eauto].
  destruct (decide (name = "/work/.env")); [done | by eauto].
Qed.

(** ** The claims on the tests' structures *)

(** C1 on [TestOverrideAll]: the environment wins over the file, and the
    field the file comments out takes the value of the environment. *)
Lemma run_precedence_witness :
  stat_consistent (system setupEnv (Some (whole setupEnvFile)))
  /\ run (system setupEnv (Some (whole setupEnvFile))) CallLoad (pointer_to Cfg_zero)
     = (None, pointer_to (Cfg true (-8) 7 f16_5 "32"))
  /\ exists filename envVars st',
       call_file (system setupEnv (Some (whole setupEnvFile))) CallLoad = inr filename
       /\ readSource (newArrayIter setupEnv) = inr envVars
       /\ pointer_to (Cfg true (-8) 7 f16_5 "32") = pointer_to st'
       /\ forall d, d ∈ parseStruct [] Cfg_zero ->
          exists old,
            load Cfg_zero (Value d) = Some old /\
            match envVars !! Name d with
            | Some data =>
                exists new, coerce old data = inr new /\ load st' (Value d) = Some new
            | None =>
                match file_vars (system setupEnv (Some (whole setupEnvFile))) filename
                      !! Name d with
                | Some data =>
                    exists new, coerce old data = inr new /\ load st' (Value d) = Some new
                | None => load st' (Value d) = Some old
                end
            end.
Proof.
  split; [apply system_consistent|]. split; [reflexivity|].
  apply (run_precedence (H := decimal_platform) (system setupEnv (Some (whole setupEnvFile))) CallLoad).
  - apply system_consistent.
  - reflexivity.
Defined.

(** C2, the claim as stated, fails: 300 does not fit 8 bits, and an
    [int8] field takes it, as 44, without error. *)
Lemma int8_takes_300 :
  signed_decimal "300" = Some 300
  /\ ~ (- 2 ^ 7 <= 300 < 2 ^ 7)
  /\ setValue [0%nat] "300" (Small 0) = (None, Small 44).
Proof. split; [reflexivity|]. split; [lia | reflexivity]. Qed.

(** C2, as the code has it, on the same field: 300 is written as its low
    eight bits, and -128, which fits eight bits, as it is. *)
Lemma numeric_coercion_witness :
  load (Small 0) [0%nat] = Some (VInt KInt8 0)
  /\ setValue [0%nat] "300" (Small 0)
     = (None, store (Small 0) [0%nat] (VInt KInt8 (wrap_signed (int_bits KInt8) 300)))
  /\ setValue [0%nat] "-128" (Small 0)
     = (None, store (Small 0) [0%nat] (VInt KInt8 (-128))).
Proof.
  split; [reflexivity|]. split.
  - exact (proj1 (numeric_coercion (H := decimal_platform) (Small 0) [0%nat] "300"
                    (VInt KInt8 0) eq_refl)).
  - apply (proj2 (numeric_coercion (H := decimal_platform) (Small 0) [0%nat] "-128"
                    (VInt KInt8 0) eq_refl)).
    + reflexivity.
    + split; [apply Z.leb_le|]; reflexivity.
Defined.

(** C3 fails on the code: [/etc] opens and cannot be read; the call
    reports nothing and goes on to the environment. *)
Theorem read_failure_unreported :
  os_Open (etc setupEnv) "/etc" = inr unreadable
  /\ file_err unreadable = Some (PathError "read" "/etc" EISDIR)
  /\ LoadFile (etc setupEnv) "/etc" (pointer_to Cfg_zero)
     = (None, pointer_to (Cfg true (-8) 7 f16_5 "32")).
Proof. split; [reflexivity|]. split; reflexivity. Qed.

(** C4 on [TestFieldVisibility]: the unexported field keeps its value
    though its variable is set. *)
Lemma unexported_untouched_witness :
  field_at (Visibility "") [2%nat]
    = Some (hidden "floatField" "FLOAT_FIELD", VFloat32 (S754_zero false))
  /\ PkgPath (hidden "floatField" "FLOAT_FIELD") <> ""
  /\ run (system setupEnv None) CallLoad (pointer_to (Visibility ""))
     = (None, pointer_to (Visibility "32"))
  /\ (forall d, d ∈ parseStruct [] (Visibility "") -> ~ [2%nat] `prefix_of` Value d)
  /\ exists st',
       pointer_to (Visibility "32") = pointer_to st'
       /\ field_at st' [2%nat]
          = Some (hidden "floatField" "FLOAT_FIELD", VFloat32 (S754_zero false)).
Proof.
  split; [reflexivity|]. split; [discriminate|]. split; [reflexivity|].
  apply (unexported_untouched (H := decimal_platform) (system setupEnv None) CallLoad
           _ [2%nat] _ _ None).
  - reflexivity.
  - discriminate.
  - reflexivity.
Defined.

(** C5 on [TestNestedStruct]: the call on the nested structure is the call
    on the flat one. *)
Lemma nested_struct_spliced_witness :
  PkgPath More = ""
  /\ run (system setupEnv None) CallLoad (pointer_to (Nested false 0))
     = (None, pointer_to (Nested true (-8)))
  /\ exists nested' flat',
       pointer_to (Nested true (-8)) = pointer_to nested'
       /\ splices More 1 1 nested' flat'
       /\ run (system setupEnv None) CallLoad (pointer_to (Flat false 0))
          = (None, pointer_to flat').
Proof.
  split; [reflexivity|]. split; [reflexivity|].
  apply (nested_struct_spliced (H := decimal_platform) (system setupEnv None) CallLoad More
           [(tagged "Field" "BOOL_FIELD", VBool false)]
           [(tagged "Field" "INT_FIELD", VInt KInt 0)] [] None
           (pointer_to (Nested true (-8)))); reflexivity.
Defined.


(** C7, the claim as stated, fails for [Load]: with no working directory
    the error is that of [os.Getwd], not that of the target. *)
Lemma Load_nil_without_directory :
  ~ struct_pointer None
  /\ Load lost None = (Some (PathError "getwd" "." ENOENT), None)
  /\ Load lost None <> (Some TargetNotStructPointer, None).
Proof.
  split; [by intros [fs Hfs]|]. split; [reflexivity | discriminate].
Qed.

Lemma invalid_target_rejected_witness :
  ~ struct_pointer (Some Cfg_zero)
  /\ LoadFile (system setupEnv None) "/work/.env" (Some Cfg_zero)
     = (Some TargetNotStructPointer, Some Cfg_zero)
  /\ Load (system setupEnv None) (Some Cfg_zero)
     = (Some TargetNotStructPointer, Some Cfg_zero).
Proof.
  assert (Hinv : ~ struct_pointer (Some Cfg_zero)) by (by intros [fs Hfs]).
  split; [exact Hinv|].
  exact (invalid_target_rejected (H := decimal_platform) (system setupEnv None) "/work/.env" (Some Cfg_zero) Hinv).
Defined.

(** C8: the second variable does not coerce; the first field is loaded,
    the others are not. *)
Lemma coercion_failure_stops_witness :
  wf_fields Cfg_zero (parseStruct [] Cfg_zero)
  /\ readSource (newArrayIter ["BOOL_FIELD=1"; "INT_FIELD=four"; "UINT_FIELD=7"])
     = inr (<["UINT_FIELD" := "7"]> (<["INT_FIELD" := "four"]> {["BOOL_FIELD" := "1"]}))
  /\ loadFromSource (newArrayIter ["BOOL_FIELD=1"; "INT_FIELD=four"; "UINT_FIELD=7"])
       (parseStruct [] Cfg_zero) Cfg_zero
     = (Some (NumError "ParseInt" "four" ErrSyntax), Cfg true 0 0 (S754_zero false) "")
  /\ exists pre d post data old,
       parseStruct [] Cfg_zero = pre ++ d :: post
       /\ (<["UINT_FIELD" := "7"]> (<["INT_FIELD" := "four"]> {["BOOL_FIELD" := "1"]})
            : gmap string string) !! Name d = Some data
       /\ load Cfg_zero (Value d) = Some old
       /\ coerce old data = inl (NumError "ParseInt" "four" ErrSyntax)
       /\ (forall e, e ∈ pre ->
            loaded (<["UINT_FIELD" := "7"]> (<["INT_FIELD" := "four"]> {["BOOL_FIELD" := "1"]}))
              Cfg_zero (Cfg true 0 0 (S754_zero false) "") e)
       /\ (forall e, e ∈ d :: post ->
            load (Cfg true 0 0 (S754_zero false) "") (Value e) = load Cfg_zero (Value e)).
Proof.
  split; [apply parseStruct_wf|]. split; [reflexivity|]. split; [reflexivity|].
  apply (coercion_failure_stops (H := decimal_platform)
           (newArrayIter ["BOOL_FIELD=1"; "INT_FIELD=four"; "UINT_FIELD=7"])).
  - apply parseStruct_wf.
  - reflexivity.
  - reflexivity.
Defined.

(** C9: a line without ['='] after a line that assigns; nothing is
    written. *)
Lemma malformed_pass_atomic_witness :
  loadFromSource (newArrayIter ["BOOL_FIELD=1"; "INT_FIELD"])
    (parseStruct [] Cfg_zero) Cfg_zero
  = (Some (SeparatorMissing "INT_FIELD"), Cfg_zero)
  /\ readSource (newArrayIter ["BOOL_FIELD=1"; "INT_FIELD"])
     = inl (SeparatorMissing "INT_FIELD")
  /\ Cfg_zero = Cfg_zero.
Proof.
  split; [reflexivity|].
  apply (malformed_pass_atomic (H := decimal_platform) (newArrayIter ["BOOL_FIELD=1"; "INT_FIELD"])
           (parseStruct [] Cfg_zero)).
  reflexivity.
Defined.

(** C10: the variable [#NOTE] is set, as far as a line can set it, and the
    field keeps its value. *)
Lemma hash_key_never_bound_witness :
  {| Name := "#NOTE"; Value := [0%nat] |} ∈ parseStruct [] (Commented "draft")
  /\ HasPrefix_hash "#NOTE" = true
  /\ run (system ["#NOTE=final"] (Some (whole ["#NOTE=final"]))) CallLoad
       (pointer_to (Commented "draft"))
     = (None, pointer_to (Commented "draft"))
  /\ (forall raw value, ~ assigns raw "#NOTE" value)
  /\ exists st',
       pointer_to (Commented "draft") = pointer_to st'
       /\ load st' [0%nat] = load (Commented "draft") [0%nat].
Proof.
  assert (Hd : {| Name := "#NOTE"; Value := [0%nat] |} ∈ parseStruct [] (Commented "draft"))
    by (apply list_elem_of_singleton; reflexivity).
  split; [exact Hd|]. split; [reflexivity|]. split; [reflexivity|].
  exact (hash_key_never_bound (H := decimal_platform) (system ["#NOTE=final"] (Some (whole ["#NOTE=final"])))
           CallLoad _ {| Name := "#NOTE"; Value := [0%nat] |} None
           (pointer_to (Commented "draft")) Hd eq_refl eq_refl).
Defined.

(** ** The further properties on examples *)

(** X2: the second of three items is malformed, the third too. *)
Lemma readSource_first_malformed_witness :
  delivers (newArrayIter ["BOOL_FIELD=1"; " INT_FIELD "; "UINT_FIELD"])
    ["BOOL_FIELD=1"; " INT_FIELD "; "UINT_FIELD"]
  /\ readSource (newArrayIter ["BOOL_FIELD=1"; " INT_FIELD "; "UINT_FIELD"])
     = inl (SeparatorMissing "INT_FIELD")
  /\ (readSource (newArrayIter ["BOOL_FIELD=1"; " INT_FIELD "; "UINT_FIELD"])
      = inl (SeparatorMissing "INT_FIELD") <->
      exists before raw after,
        ["BOOL_FIELD=1"; " INT_FIELD "; "UINT_FIELD"] = before ++ raw :: after
        /\ (forall r, r ∈ before -> ~ malformed r)
        /\ malformed raw
        /\ SeparatorMissing "INT_FIELD" = SeparatorMissing (TrimSpace raw)).
Proof.
  split; [apply arrayIter_delivers|]. split; [reflexivity|].
  apply (readSource_first_malformed
           (newArrayIter ["BOOL_FIELD=1"; " INT_FIELD "; "UINT_FIELD"])).
  apply arrayIter_delivers.
Defined.

(** X9: the least value of an [int8] field. *)
Lemma integer_in_range_exact_witness :
  load (Small 0) [0%nat] = Some (VInt KInt8 0)
  /\ signed_decimal "-128" = Some (-128)
  /\ setValue [0%nat] "-128" (Small 0)
     = (None, store (Small 0) [0%nat] (VInt KInt8 (-128))).
Proof.
  split; [reflexivity|]. split; [reflexivity|].
  apply (integer_in_range_exact (H := decimal_platform) (Small 0) [0%nat] "-128"
           (VInt KInt8 0) eq_refl (-128)).
  - reflexivity.
  - simpl. lia.
  - simpl. lia.
Defined.

(** X10: one variable for two fields, of two types. *)
Lemma pass_loads_every_field_witness :
  wf_fields (Twice 0 "") (parseStruct [] (Twice 0 ""))
  /\ readSource (newArrayIter ["PORT=80"]) = inr {["PORT" := "80"]}
  /\ loadFromSource (newArrayIter ["PORT=80"]) (parseStruct [] (Twice 0 "")) (Twice 0 "")
     = (None, Twice 80 "80")
  /\ forall d, d ∈ parseStruct [] (Twice 0 "") ->
       loaded {["PORT" := "80"]} (Twice 0 "") (Twice 80 "80") d.
Proof.
  split; [apply parseStruct_wf|]. split; [reflexivity|]. split; [reflexivity|].
  apply (pass_loads_every_field (H := decimal_platform) (newArrayIter ["PORT=80"])).
  - apply parseStruct_wf.
  - reflexivity.
  - reflexivity.
Defined.

(** X11: an environment that names no field of [Cfg], and no file. *)
Lemma no_assignment_no_change_witness :
  (forall d raw value,
     d ∈ parseStruct [] Cfg_zero -> assigns raw (Name d) value ->
     (raw ∉ os_Environ (system ["HOME=/root"] None))
     /\ forall filename file,
          call_file (system ["HOME=/root"] None) CallLoad = inr filename ->
          os_Open (system ["HOME=/root"] None) filename = inr file ->
          raw ∉ file_lines file)
  /\ (run (system ["HOME=/root"] None) CallLoad (pointer_to Cfg_zero)).2
     = pointer_to Cfg_zero.
Proof.
  assert (Hno : forall d raw value,
     d ∈ parseStruct [] Cfg_zero -> assigns raw (Name d) value ->
     (raw ∉ os_Environ (system ["HOME=/root"] None))
     /\ forall filename file,
          call_file (system ["HOME=/root"] None) CallLoad = inr filename ->
          os_Open (system ["HOME=/root"] None) filename = inr file ->
          raw ∉ file_lines file).
  { intros d raw value Hd Ha. split; [|discriminate].
    intros ->%list_elem_of_singleton.
    assert (Hhome : assigns "HOME=/root" "HOME" "/root").
    { split; [discriminate|]. split; [reflexivity|].
      exists "HOME", "/root". split; [reflexivity|]. split; [|split; reflexivity].
      apply cut_eq_None. reflexivity. }
    destruct (assigns_functional _ _ _ _ _ Ha Hhome) as [Hname _].
    cbv in Hd. repeat (apply elem_of_cons in Hd as [->|Hd]; [discriminate Hname|]).
    by apply elem_of_nil in Hd. }
  split; [exact Hno|].
  exact (no_assignment_no_change (H := decimal_platform) (system ["HOME=/root"] None)
           CallLoad _ Hno).
Defined.

(** X12: [TestOverrideFromEnv] with an empty file in the place of none. *)
Lemma missing_file_as_empty_witness :
  os_Open (system setupEnv None) "/work/.env" = inl (PathError "open" "/work/.env" ENOENT)
  /\ IsNotExist (os_Stat (system setupEnv None) "/work/.env") = true
  /\ os_Open (system setupEnv (Some (whole []))) "/work/.env"
     = inr {| file_lines := []; file_err := None |}
  /\ os_Environ (system setupEnv (Some (whole []))) = os_Environ (system setupEnv None)
  /\ LoadFile (system setupEnv None) "/work/.env" (pointer_to Cfg_zero)
     = LoadFile (system setupEnv (Some (whole []))) "/work/.env" (pointer_to Cfg_zero).
Proof.
  split; [reflexivity|]. split; [reflexivity|]. split; [reflexivity|].
  split; [reflexivity|].
  apply (missing_file_as_empty (H := decimal_platform) (system setupEnv None)
           (system setupEnv (Some (whole []))) "/work/.env" (pointer_to Cfg_zero)
           (PathError "open" "/work/.env" ENOENT)); reflexivity.
Defined.

(** X13: the second line of the file is malformed; the first line and the
    environment assign to fields, and no field is written. *)
Lemma file_error_returned_witness :
  IsNotExist (os_Stat (system setupEnv (Some (whole ["BOOL_FIELD=1"; "INT_FIELD"])))
                "/work/.env") = false
  /\ (os_Open (system setupEnv (Some (whole ["BOOL_FIELD=1"; "INT_FIELD"]))) "/work/.env"
      = inl (SeparatorMissing "INT_FIELD")
      \/ exists file before raw after,
           os_Open (system setupEnv (Some (whole ["BOOL_FIELD=1"; "INT_FIELD"]))) "/work/.env"
           = inr file
           /\ file_lines file = before ++ raw :: after
           /\ (forall r, r ∈ before -> ~ malformed r)
           /\ malformed raw
           /\ SeparatorMissing "INT_FIELD" = SeparatorMissing (TrimSpace raw))
  /\ LoadFile (system setupEnv (Some (whole ["BOOL_FIELD=1"; "INT_FIELD"]))) "/work/.env"
       (pointer_to Cfg_zero)
     = (Some (SeparatorMissing "INT_FIELD"), pointer_to Cfg_zero).
Proof.
  assert (Hfile :
    os_Open (system setupEnv (Some (whole ["BOOL_FIELD=1"; "INT_FIELD"]))) "/work/.env"
    = inl (SeparatorMissing "INT_FIELD")
    \/ exists file before raw after,
         os_Open (system setupEnv (Some (whole ["BOOL_FIELD=1"; "INT_FIELD"]))) "/work/.env"
         = inr file
         /\ file_lines file = before ++ raw :: after
         /\ (forall r, r ∈ before -> ~ malformed r)
         /\ malformed raw
         /\ SeparatorMissing "INT_FIELD" = SeparatorMissing (TrimSpace raw)).
  { right. exists (whole ["BOOL_FIELD=1"; "INT_FIELD"]), ["BOOL_FIELD=1"], "INT_FIELD", [].
    split; [reflexivity|]. split; [reflexivity|]. split; [|split; [|reflexivity]].
    - intros r ->%list_elem_of_singleton (_ & _ & Hn). apply Hn.
      exists "BOOL_FIELD", "1". reflexivity.
    - split; [discriminate|]. split; [reflexivity|]. apply cut_eq_None. reflexivity. }
  split; [reflexivity|]. split; [exact Hfile|].
  exact (file_error_returned (H := decimal_platform)
           (system setupEnv (Some (whole ["BOOL_FIELD=1"; "INT_FIELD"]))) "/work/.env" _
           (SeparatorMissing "INT_FIELD") eq_refl Hfile).
Defined.

(** X14: the line [" INT_FIELD = 4 "] of the tests' file. *)
Lemma readSource_entries_trimmed_witness :
  readSource (newArrayIter [" INT_FIELD = 4 "]) = inr {["INT_FIELD" := "4"]}
  /\ ({["INT_FIELD" := "4"]} : gmap string string) !! "INT_FIELD" = Some "4"
  /\ TrimSpace "INT_FIELD" = "INT_FIELD" /\ TrimSpace "4" = "4"
  /\ ~ has_eq "INT_FIELD" /\ HasPrefix_hash "INT_FIELD" = false.
Proof.
  split; [reflexivity|]. split; [reflexivity|].
  apply (readSource_entries_trimmed (newArrayIter [" INT_FIELD = 4 "])
           {["INT_FIELD" := "4"]}); reflexivity.
Defined.

(** X15: the name [A=B] is read as the name [A] with the value [B=...]. *)
Lemma untrimmed_key_never_bound_witness :
  {| Name := "A=B"; Value := [0%nat] |} ∈ parseStruct [] (Equation "x")
  /\ (TrimSpace "A=B" <> "A=B" \/ has_eq "A=B")
  /\ (forall raw value, ~ assigns raw "A=B" value)
  /\ exists st',
       (run (system ["A=B=c"] None) CallLoad (pointer_to (Equation "x"))).2 = pointer_to st'
       /\ load st' [0%nat] = load (Equation "x") [0%nat].
Proof.
  assert (Hd : {| Name := "A=B"; Value := [0%nat] |} ∈ parseStruct [] (Equation "x"))
    by (apply list_elem_of_singleton; reflexivity).
  assert (Hbad : TrimSpace "A=B" <> "A=B" \/ has_eq "A=B")
    by (right; exists "A", "B"; reflexivity).
  split; [exact Hd|]. split; [exact Hbad|].
  exact (untrimmed_key_never_bound (H := decimal_platform) (system ["A=B=c"] None)
           CallLoad _ {| Name := "A=B"; Value := [0%nat] |} Hd Hbad).
Defined.

(** X16 on [TestOverrideAll]. *)
Lemma run_succeeds_iff_witness :
  stat_consistent (system setupEnv (Some (whole setupEnvFile)))
  /\ ((run (system setupEnv (Some (whole setupEnvFile))) CallLoad (pointer_to Cfg_zero)).1
      = None <->
      exists filename envVars,
        call_file (system setupEnv (Some (whole setupEnvFile))) CallLoad = inr filename
        /\ match os_Open (system setupEnv (Some (whole setupEnvFile))) filename with
           | inl _ =>
               IsNotExist (os_Stat (system setupEnv (Some (whole setupEnvFile))) filename)
               = true
           | inr file =>
               exists vars, readSource {| Scanner_of := NewScanner file |} = inr vars
           end
        /\ readSource (newArrayIter (os_Environ (system setupEnv (Some (whole setupEnvFile)))))
           = inr envVars
        /\ forall d old data,
             d ∈ parseStruct [] Cfg_zero ->
             load Cfg_zero (Value d) = Some old ->
             file_vars (system setupEnv (Some (whole setupEnvFile))) filename !! Name d
             = Some data
             \/ envVars !! Name d = Some data ->
             exists new, coerce old data = inr new).
Proof.
  split; [apply system_consistent|].
  apply (run_succeeds_iff (H := decimal_platform)
           (system setupEnv (Some (whole setupEnvFile))) CallLoad).
  apply system_consistent.
Defined.

(** X17 on [TestOverrideAll]. *)
Lemma run_as_one_pass_witness :
  stat_consistent (system setupEnv (Some (whole setupEnvFile)))
  /\ run (system setupEnv (Some (whole setupEnvFile))) CallLoad (pointer_to Cfg_zero)
     = (None, pointer_to (Cfg true (-8) 7 f16_5 "32"))
  /\ exists filename envVars st',
       call_file (system setupEnv (Some (whole setupEnvFile))) CallLoad = inr filename
       /\ readSource (newArrayIter (os_Environ (system setupEnv (Some (whole setupEnvFile)))))
          = inr envVars
       /\ pointer_to (Cfg true (-8) 7 f16_5 "32") = pointer_to st'
       /\ loadFields
            (envVars ∪ file_vars (system setupEnv (Some (whole setupEnvFile))) filename)
            (parseStruct [] Cfg_zero) Cfg_zero
          = (None, st').
Proof.
  split; [apply system_consistent|]. split; [reflexivity|].
  apply (run_as_one_pass (H := decimal_platform)
           (system setupEnv (Some (whole setupEnvFile))) CallLoad).
  - apply system_consistent.
  - reflexivity.
Defined.

(** X18 on [TestFieldVisibility]: the field with the empty tag. *)
Lemma untagged_untouched_witness :
  field_at (Visibility "") [1%nat] = Some (tagged "IntField" "", VInt KInt 0)
  /\ Kind (VInt KInt 0) <> reflect.Struct
  /\ Tag_Get (Tag (tagged "IntField" "")) "env" = ""
  /\ exists st',
       (run (system setupEnv None) CallLoad (pointer_to (Visibility ""))).2 = pointer_to st'
       /\ field_at st' [1%nat] = Some (tagged "IntField" "", VInt KInt 0).
Proof.
  split; [reflexivity|]. split; [discriminate|]. split; [reflexivity|].
  apply (untagged_untouched (H := decimal_platform) (system setupEnv None) CallLoad
           _ [1%nat] _ _).
  - reflexivity.
  - discriminate.
  - reflexivity.
Defined.

End Examples.
